(** * VF_BETA: the image-generation job lifecycle, embedded in Rocq

    The development follows the two TypeScript programs that carry the
    logic of the repository:

    - the requeue script ([requeueFailedJobs], [shouldRequeueJob]), which
      sweeps the failed set of the BullMQ queue and resubmits the jobs
      that deserve another attempt;
    - the worker ([waitForComfyUICompletion], [processComfyUIOutputs],
      [injectWorkflowParameters] and the worker body itself), which hands
      a workflow to ComfyUI, polls it and collects the images.

    Asynchronous code is written in explicit state-passing style: every
    [await] that touches the outside world becomes a function of a world
    state that returns either a value or a thrown error. *)

From Stdlib Require Import ZArith String Ascii List Bool Lia PrimFloat Uint63.
From stdpp Require Import base option list strings pretty.

Open Scope Z_scope.
Set Warnings "-register-all".

(** ** Thrown values *)

(** A thrown JavaScript error, kept by its constructor and message. The
    messages of engine errors (TypeError, SyntaxError) are engine text
    and are only descriptive here. *)
Inductive exn : Type :=
  | Error (message : string)
  | TypeError (message : string)
  | SyntaxError (message : string).

Definition message (e : exn) : string :=
  match e with
  | Error m | TypeError m | SyntaxError m => m
  end.

(** The outcome of a computation that may throw. *)
Inductive result (A : Type) : Type :=
  | Ok (a : A)
  | Throw (e : exn).
Arguments Ok {A} a.
Arguments Throw {A} e.

(** Sequencing: a throw ends the computation. *)
Definition bind {A B : Type} (r : result A) (k : A -> result B) : result B :=
  match r with
  | Ok a => k a
  | Throw e => Throw e
  end.

Notation "'let*' x ':=' r 'in' k" := (bind r (fun x => k))
  (at level 10, x name, r at level 200, k at level 200).

(** ** Strings *)

(** [String.prototype.includes]: [includes pat s] holds when [pat] occurs
    in [s] as a contiguous substring. *)
Fixpoint includes (pat s : string) : bool :=
  String.prefix pat s
  || match s with
     | EmptyString => false
     | String _ s' => includes pat s'
     end.

(** An instance of [String.prototype.toLowerCase] for text whose cased
    letters are ASCII: bytes 'A'..'Z' are mapped to 'a'..'z', every other
    byte (the UTF-8 bytes of accented letters among them) is kept. *)
Definition ascii_lower (c : ascii) : ascii :=
  let n := nat_of_ascii c in
  if ((65 <=? n) && (n <=? 90))%nat then ascii_of_nat (n + 32) else c.

Fixpoint ascii_toLowerCase (s : string) : string :=
  match s with
  | EmptyString => EmptyString
  | String c s' => String (ascii_lower c) (ascii_toLowerCase s')
  end.

(** A text of ASCII characters only. On such a text, and on the error
    messages of the worker, whose capitals are ASCII,
    [ascii_toLowerCase] is [String.prototype.toLowerCase]. *)
Definition isAscii (s : string) : bool :=
  forallb (fun c => (nat_of_ascii c <? 128)%nat) (list_ascii_of_string s).

(** * JavaScript values

    The data the worker handles is untyped ([any]): workflow templates
    read from JSON files, job inputs, the answers of ComfyUI. It is
    modelled as JSON-shaped values. An object and an array are both a
    list of properties in the order the engine enumerates them; an array
    is flagged and holds its elements under the keys "0", "1", ...

    What is not modelled: numbers that are not integers, inherited
    (prototype) properties, and characters outside ASCII as single
    UTF-16 units (a string is its sequence of bytes). *)

Module JS.

(** Primitive values. [PNum] is a number with an integer value. *)
Inductive prim : Type :=
  | PUndefined
  | PNull
  | PBool (b : bool)
  | PNum (z : Z)
  | PNaN
  | PStr (s : string).

(** A value as a tree: a leaf, or an object or array with its
    properties. The type of leaves is a parameter: [prim] for plain JSON
    data, heap values for data that may point into a store. *)
Inductive tree (A : Type) : Type :=
  | Leaf (a : A)
  | Node (isArray : bool) (props : list (string * tree A)).
Arguments Leaf {A} a.
Arguments Node {A} isArray props.

Definition json : Type := tree prim.

(** ToBoolean on a primitive. *)
Definition prim_truthy (p : prim) : bool :=
  match p with
  | PUndefined | PNull | PNaN => false
  | PBool b => b
  | PNum z => negb (z =? 0)
  | PStr s => negb (String.eqb s "")
  end.

(** [Number.MAX_SAFE_INTEGER]: up to it the integers are numbers of the
    language one by one. *)
Definition MAX_SAFE_INTEGER : Z := 9007199254740991.

Definition nullish (p : prim) : bool :=
  match p with
  | PUndefined | PNull => true
  | _ => false
  end.

(** *** Property lists *)

Section Props.

Context {V : Type}.

(** The value of the first property named [k]. *)
Fixpoint lookup_prop (k : string) (ps : list (string * V)) : option V :=
  match ps with
  | [] => None
  | (k', v) :: ps' => if String.eqb k k' then Some v else lookup_prop k ps'
  end.

(** [o[k] = v] on the properties of [o]: an existing property keeps its
    place, a new one goes last. (A new key that is an array index would
    be placed among the indices by the engine; the worker only assigns
    the keys "text" and "seed".) *)
Fixpoint assign_prop (k : string) (v : V) (ps : list (string * V))
  : list (string * V) :=
  match ps with
  | [] => [(k, v)]
  | (k', v') :: ps' =>
      if String.eqb k k' then (k, v) :: ps' else (k', v') :: assign_prop k v ps'
  end.

Definition has_prop (k : string) (ps : list (string * V)) : bool :=
  match lookup_prop k ps with Some _ => true | None => false end.

(** The elements of an array: the properties "0", "1", ... as far as
    they are listed in that order. *)
Fixpoint items_from (i : nat) (ps : list (string * V)) : list V :=
  match ps with
  | (k, v) :: ps' =>
      if String.eqb k (pretty i) then v :: items_from (S i) ps' else []
  | [] => []
  end.

Definition array_items (ps : list (string * V)) : list V := items_from 0 ps.

(** The properties of an array with the given elements. *)
Fixpoint index_from (i : nat) (vs : list V) : list (string * V) :=
  match vs with
  | [] => []
  | v :: vs' => (pretty i, v) :: index_from (S i) vs'
  end.

End Props.

(** An array literal and an object literal. *)
Definition arr {A : Type} (elements : list (tree A)) : tree A :=
  Node true (index_from 0 elements).

Definition obj {A : Type} (props : list (string * tree A)) : tree A :=
  Node false props.

(** *** Reading properties *)

(** The index a key denotes in a string or array of length [n]. *)
Definition index_of_key (k : string) (n : nat) : option nat :=
  find (fun i => String.eqb (pretty i) k) (seq 0 n).

(** [p[k]] on a primitive: [undefined] and [null] throw, a string has
    its characters and its length, everything else has no property. *)
Definition prim_get (p : prim) (k : string) : result prim :=
  match p with
  | PUndefined =>
      Throw (TypeError ("Cannot read properties of undefined (reading '"
                          +:+ k +:+ "')"))
  | PNull =>
      Throw (TypeError ("Cannot read properties of null (reading '"
                          +:+ k +:+ "')"))
  | PStr s =>
      if String.eqb k "length" then Ok (PNum (Z.of_nat (String.length s)))
      else
        match index_of_key k (String.length s) with
        | Some i =>
            match String.get i s with
            | Some c => Ok (PStr (String c EmptyString))
            | None => Ok PUndefined
            end
        | None => Ok PUndefined
        end
  | _ => Ok PUndefined
  end.

(** [o[k]] on the properties of an object or array. *)
Definition props_get {V : Type} (undefined : V) (length_value : nat -> V)
    (isArray : bool) (ps : list (string * V)) (k : string) : V :=
  match lookup_prop k ps with
  | Some v => v
  | None =>
      if isArray && String.eqb k "length"
      then length_value (length (array_items ps))
      else undefined
  end.

(** [v[k]] on plain JSON data. *)
Definition get (v : json) (k : string) : result json :=
  match v with
  | Leaf p =>
      match prim_get p k with
      | Ok p' => Ok (Leaf p')
      | Throw e => Throw e
      end
  | Node a ps =>
      Ok (props_get (Leaf PUndefined) (fun n => Leaf (PNum (Z.of_nat n))) a ps k)
  end.

Definition truthy (v : json) : bool :=
  match v with
  | Leaf p => prim_truthy p
  | Node _ _ => true
  end.

Definition is_nullish (v : json) : bool :=
  match v with
  | Leaf p => nullish p
  | Node _ _ => false
  end.

(** [v?.[k]]: [undefined] when [v] is [null] or [undefined]. *)
Definition opt_get (v : json) (k : string) : json :=
  match v with
  | Leaf p =>
      match prim_get p k with
      | Ok p' => Leaf p'
      | Throw _ => Leaf PUndefined
      end
  | Node a ps =>
      props_get (Leaf PUndefined) (fun n => Leaf (PNum (Z.of_nat n))) a ps k
  end.

(** The keys a [for ... in] loop and [Object.keys] enumerate. *)
Definition string_keys (s : string) : list string :=
  map (fun i => pretty i) (seq 0 (String.length s)).

Definition keys (v : json) : list string :=
  match v with
  | Leaf (PStr s) => string_keys s
  | Leaf _ => []
  | Node _ ps => map fst ps
  end.

Definition isArray (v : json) : bool :=
  match v with
  | Node true _ => true
  | _ => false
  end.

(** *** Conversion to a string *)

Definition prim_to_string (p : prim) : string :=
  match p with
  | PUndefined => "undefined"
  | PNull => "null"
  | PBool true => "true"
  | PBool false => "false"
  | PNum z => pretty z
  | PNaN => "NaN"
  | PStr s => s
  end.

Fixpoint join (sep : string) (parts : list string) : string :=
  match parts with
  | [] => ""
  | [s] => s
  | s :: rest => s +:+ sep +:+ join sep rest
  end.

(** ToString, as a template literal applies it: an object prints as
    "[object Object]", an array as its elements joined by commas, with
    [null] and [undefined] elements printed empty. *)
Fixpoint to_string (v : json) : string :=
  match v with
  | Leaf p => prim_to_string p
  | Node false _ => "[object Object]"
  | Node true ps =>
      join ","
        ((fix elements (i : nat) (ps : list (string * json)) : list string :=
            match ps with
            | (k, e) :: ps' =>
                if String.eqb k (pretty i) then
                  (if is_nullish e then ""%string else to_string e)
                  :: elements (S i) ps'
                else []
            | [] => []
            end) 0%nat ps)
  end.

End JS.
(** * The requeue script *)

Module Requeue.

(** [interface RequeueOptions]: every field is optional. *)
Record RequeueOptions : Type := {
  maxAge : option Z;
  maxRetries : option Z;
  priorityBoost : option bool;
  delayBeforeRequeue : option Z
}.

Definition defaultOptions : RequeueOptions := {|
  maxAge := Some (24 * 60 * 60 * 1000);
  maxRetries := Some 2;
  priorityBoost := Some true;
  delayBeforeRequeue := Some 30000
|}.

(** [{ ...defaultOptions, ...options }]: a field present in [options]
    wins, an absent one keeps the default. (A field given as
    [undefined], which would replace the default by [undefined], is not
    told apart from an absent one.) *)
Definition spread_options (base over : RequeueOptions) : RequeueOptions := {|
  maxAge := match maxAge over with Some v => Some v | None => maxAge base end;
  maxRetries :=
    match maxRetries over with Some v => Some v | None => maxRetries base end;
  priorityBoost :=
    match priorityBoost over with Some v => Some v | None => priorityBoost base end;
  delayBeforeRequeue :=
    match delayBeforeRequeue over with
    | Some v => Some v
    | None => delayBeforeRequeue base
    end
|}.

(** The lineage block written under [requeue_info]. The timestamp is kept
    as the clock reading in milliseconds; its ISO rendering is not
    modelled. *)
Record RequeueInfo : Type := {
  original_job_id : string;
  requeue_count : Z;
  requeue_timestamp : Z;
  original_failure_reason : option string
}.

Section Jobs.

(** The fields of [job.data] other than [requeue_info] (workflow name,
    inputs, user, ...): the script copies them and never looks inside. *)
Context {Payload : Type}.

Record JobData : Type := {
  payload : Payload;
  requeue_info : option RequeueInfo
}.

(** A job of the failed set, with the fields of BullMQ's [Job] that the
    script reads. Jobs on this queue are created by the producer and by
    this script, both with an object payload, so [data] is always
    present. *)
Record Job : Type := {
  id : string;
  name : string;
  data : JobData;
  timestamp : Z;
  failedReason : option string
}.

(** Why a job was accepted or rejected. The script renders these as log
    text; the constructors keep the values the text interpolates (the
    reason text is cut to 100 characters there, which is not modelled). *)
Inductive Reason : Type :=
  | TooOld (jobAge : Z)
  | MaxRequeuesReached (requeueCount : Z)
  | TemporaryError (failureReason : string)
  | PermanentError (failureReason : string)
  | FirstAttemptUnknown
  | UnknownAlreadyRequeued (requeueCount : Z).

Record Decision : Type := {
  requeue : bool;
  reason : Reason
}.

(** [x || 0] on a number: 0 is the only falsy integer. *)
Definition or_zero (x : option Z) : Z :=
  match x with
  | Some n => if n =? 0 then 0 else n
  | None => 0
  end.

(** [job.data.requeue_info?.requeue_count || 0] *)
Definition requeueCountOf (job : Job) : Z :=
  or_zero (requeue_count <$> requeue_info (data job)).

(** [a > b] and [a >= b] where [b] may be [undefined]: a comparison with
    [undefined] is false. *)
Definition gt_opt (a : Z) (b : option Z) : bool :=
  match b with Some m => m <? a | None => false end.

Definition ge_opt (a : Z) (b : option Z) : bool :=
  match b with Some m => m <=? a | None => false end.

Definition temporaryErrors : list string :=
  [ "timeout"; "connection"; "network"; "ECONNREFUSED"; "ENOTFOUND";
    "ETIMEDOUT"; "ComfyUI API Error (5"; "Timeout waiting for ComfyUI";
    "Erro ao consultar histórico" ]%string.

Definition permanentErrors : list string :=
  [ "Workflow não encontrado"; "ComfyUI API Error (4"; "bad anatomy";
    "invalid input"; "malformed" ]%string.

(** [String.prototype.toLowerCase], a builtin of the engine. *)
Variable toLowerCase : string -> string.

(** [errors.some(error =>
      failureReason.toLowerCase().includes(error.toLowerCase()))] *)
Definition matchesAny (errors : list string) (failureReason : string) : bool :=
  existsb
    (fun error => includes (toLowerCase error) (toLowerCase failureReason))
    errors.

(** [job.failedReason || '']: an absent or empty reason reads as the empty
    string. *)
Definition failureReasonOf (job : Job) : string :=
  match failedReason job with
  | Some r => if String.eqb r "" then ""%string else r
  | None => ""%string
  end.

(** [shouldRequeueJob], with [now] the value of [Date.now()]. With a typed
    job no step of the body throws, so the [catch] branch of the source
    is not reached. *)
Definition shouldRequeueJob (now : Z) (job : Job) (options : RequeueOptions)
  : Decision :=
  let jobAge := now - timestamp job in
  if gt_opt jobAge (maxAge options) then
    {| requeue := false; reason := TooOld jobAge |}
  else
    let requeueCount := requeueCountOf job in
    if ge_opt requeueCount (maxRetries options) then
      {| requeue := false; reason := MaxRequeuesReached requeueCount |}
    else
      let failureReason := failureReasonOf job in
      let isTemporaryError := matchesAny temporaryErrors failureReason in
      if isTemporaryError then
        {| requeue := true; reason := TemporaryError failureReason |}
      else
        let isPermanentError := matchesAny permanentErrors failureReason in
        if isPermanentError then
          {| requeue := false; reason := PermanentError failureReason |}
        else if requeueCount =? 0 then
          {| requeue := true; reason := FirstAttemptUnknown |}
        else
          {| requeue := false; reason := UnknownAlreadyRequeued requeueCount |}.

(** *** The sweep *)

(** The options object handed to [queue.add]. *)
Record JobOptions : Type := {
  jobId : string;
  attempts : Z;
  priority : option Z;
  delay : option Z
}.

(** The statistics the sweep returns. *)
Record Stats : Type := {
  total : nat;
  requeued : nat;
  skipped : nat
}.

(** The durable queue and the clock are collaborators: the sweep sees
    them through these operations on a world state. An operation that is
    awaited may reject, which the sweep sees as a thrown error. *)
Context {World : Type}.
Variable date_now : World -> Z * World.
Variable getFailed : World -> result (list Job) * World.
Variable queue_add :
  string -> JobData -> JobOptions -> World -> result unit * World.
Variable job_remove : Job -> World -> result unit * World.

(** The awaited call [shouldRequeueJob(job, opts)] as the loop sees it. *)
Variable evaluate :
  Job -> RequeueOptions -> World -> result Decision * World.

(** The [newJobOptions] object of one resubmission. *)
Definition newJobOptions (job : Job) (opts : RequeueOptions) (now : Z)
  : JobOptions := {|
  jobId := "requeue-" +:+ id job +:+ "-" +:+ pretty now;
  attempts := 3;
  priority :=
    match priorityBoost opts with Some true => Some 1 | _ => None end;
  delay :=
    match delayBeforeRequeue opts with
    | Some d => if negb (d =? 0) && (0 <? d) then Some d else None
    | None => None
    end
|}.

(** The [jobData] object of one resubmission: the payload of the failed
    job with a fresh [requeue_info]. *)
Definition requeueJobData (job : Job) (now : Z) : JobData := {|
  payload := payload (data job);
  requeue_info := Some {|
    original_job_id := id job;
    requeue_count := requeueCountOf job + 1;
    requeue_timestamp := now;
    original_failure_reason := failedReason job
  |}
|}.

(** The loop carries the two counters and the world. *)
Record SweepState : Type := {
  requeuedCount : nat;
  skippedCount : nat;
  world : World
}.

Definition count_requeued (st : SweepState) (w : World) : SweepState :=
  {| requeuedCount := S (requeuedCount st);
     skippedCount := skippedCount st;
     world := w |}.

Definition count_skipped (st : SweepState) (w : World) : SweepState :=
  {| requeuedCount := requeuedCount st;
     skippedCount := S (skippedCount st);
     world := w |}.

(** What one turn of the loop does to the counters: one of them goes up
    by one. *)
Inductive counted (st st' : SweepState) : Prop :=
  | counted_requeued :
      requeuedCount st' = S (requeuedCount st) ->
      skippedCount st' = skippedCount st -> counted st st'
  | counted_skipped :
      requeuedCount st' = requeuedCount st ->
      skippedCount st' = S (skippedCount st) -> counted st st'.

(** One turn of [for (const job of failedJobs)]: the [try] body, with
    every throw landing in the [catch] that counts the job as skipped. *)
Definition sweepJob (opts : RequeueOptions) (st : SweepState) (job : Job)
  : SweepState :=
  match evaluate job opts (world st) with
  | (Throw _, w1) => count_skipped st w1
  | (Ok shouldRequeue, w1) =>
      if requeue shouldRequeue then
        let '(now1, w2) := date_now w1 in
        let options := newJobOptions job opts now1 in
        let '(now2, w3) := date_now w2 in
        let jobData := requeueJobData job now2 in
        match queue_add (name job) jobData options w3 with
        | (Throw _, w4) => count_skipped st w4
        | (Ok _, w4) =>
            match job_remove job w4 with
            | (Throw _, w5) => count_skipped st w5
            | (Ok _, w5) => count_requeued st w5
            end
        end
      else count_skipped st w1
  end.

(** [requeueFailedJobs] over an evaluator: a failure of [getFailed] is
    rethrown, everything after it returns the statistics. *)
Definition requeueFailedJobsWith (options : RequeueOptions) (w : World)
  : result Stats * World :=
  let opts := spread_options defaultOptions options in
  match getFailed w with
  | (Throw e, w1) => (Throw e, w1)
  | (Ok failedJobs, w1) =>
      let st :=
        fold_left (sweepJob opts) failedJobs
          {| requeuedCount := 0; skippedCount := 0; world := w1 |} in
      (Ok {| total := length failedJobs;
             requeued := requeuedCount st;
             skipped := skippedCount st |},
       world st)
  end.

End Jobs.

Arguments JobData : clear implicits.
Arguments Job : clear implicits.
Arguments SweepState : clear implicits.
Arguments Build_SweepState {World}.

(** The classifier as an awaited call: it reads the clock and resolves to
    its decision. *)
Definition shouldRequeueJobAsync {Payload World : Type}
    (toLowerCase : string -> string) (date_now : World -> Z * World)
    (job : Job Payload) (options : RequeueOptions) (w : World)
  : result Decision * World :=
  let '(now, w1) := date_now w in
  (Ok (shouldRequeueJob toLowerCase now job options), w1).

(** [requeueFailedJobs]: the sweep with the classifier of the script. *)
Definition requeueFailedJobs {Payload World : Type}
    (toLowerCase : string -> string) (date_now : World -> Z * World)
    (getFailed : World -> result (list (Job Payload)) * World)
    (queue_add :
       string -> JobData Payload -> JobOptions -> World -> result unit * World)
    (job_remove : Job Payload -> World -> result unit * World)
    (options : RequeueOptions) (w : World)
  : result Stats * World :=
  requeueFailedJobsWith date_now getFailed queue_add job_remove
    (shouldRequeueJobAsync toLowerCase date_now) options w.

End Requeue.

(** ** A queue in memory

    A small durable queue with a clock, used to run the sweep on concrete
    jobs: the clock advances by one millisecond per reading, [add] puts
    the job in the waiting list and rejects a job id that is listed in
    [add_faults], [remove] takes the job out of the failed set and
    rejects an id listed in [remove_faults]. *)

Module MemQueue.
Import Requeue.

Record World : Type := {
  clock : Z;
  failedSet : list (Job string);
  waiting : list (string * JobData string * JobOptions);
  add_faults : list string;
  remove_faults : list string
}.

Definition date_now (w : World) : Z * World :=
  (clock w,
   {| clock := clock w + 1; failedSet := failedSet w; waiting := waiting w;
      add_faults := add_faults w; remove_faults := remove_faults w |}).

Definition getFailed (w : World) : result (list (Job string)) * World :=
  (Ok (failedSet w), w).

Definition queue_add (name : string) (data : JobData string)
    (options : JobOptions) (w : World) : result unit * World :=
  if existsb (String.eqb (jobId options)) (add_faults w) then
    (Throw (Error "add rejected"), w)
  else
    (Ok tt,
     {| clock := clock w; failedSet := failedSet w;
        waiting := waiting w ++ [(name, data, options)];
        add_faults := add_faults w; remove_faults := remove_faults w |}).

Definition job_remove (job : Job string) (w : World) : result unit * World :=
  if existsb (String.eqb (id job)) (remove_faults w) then
    (Throw (Error "remove rejected"), w)
  else
    (Ok tt,
     {| clock := clock w;
        failedSet :=
          List.filter (fun j => negb (String.eqb (id j) (id job)))
            (failedSet w);
        waiting := waiting w;
        add_faults := add_faults w; remove_faults := remove_faults w |}).

(** The job a resubmission left in the waiting list, as the failed set
    shows it once it has failed in turn: BullMQ keeps the custom job id,
    the name and the data it was added with. *)
Definition failAgain (entry : string * JobData string * JobOptions)
    (at_time : Z) (why : string) : Job string :=
  let '(name, data, options) := entry in
  {| id := jobId options; name := name; data := data;
     timestamp := at_time; failedReason := Some why |}.

(** One sweep with the default options and the ASCII lower-casing. *)
Definition sweep (w : World) : result Stats * World :=
  requeueFailedJobs ascii_toLowerCase date_now getFailed queue_add job_remove
    {| maxAge := None; maxRetries := None; priorityBoost := None;
       delayBeforeRequeue := None |} w.

End MemQueue.

(** ** The decision order as the specification words it

    An ordered table of rules; the first rule whose condition holds gives
    the verdict, and the last line is the fallback. *)

Module RequeueSpec.
Import Requeue.

Inductive Verdict : Type := Accept | Reject.

Section DecisionTable.

Context {Payload : Type}.
Variable toLowerCase : string -> string.

(** The text contains the pattern, case ignored. *)
Definition containsIgnoringCase (pattern text : string) : bool :=
  includes (toLowerCase pattern) (toLowerCase text).

Definition ageExceeds (now : Z) (options : RequeueOptions)
    (job : Job Payload) : bool :=
  match maxAge options with
  | Some max_age => max_age <? now - timestamp job
  | None => false
  end.

(** The failure-reason text of a job: the reason the queue recorded for
    it, empty when it recorded none. *)
Definition reasonText (job : Job Payload) : string :=
  match failedReason job with
  | Some text => text
  | None => ""%string
  end.

(** The prior resubmission count of a job: the count of its lineage
    block, 0 when it has none. *)
Definition priorCount (job : Job Payload) : Z :=
  match requeue_info (data job) with
  | Some lineage => requeue_count lineage
  | None => 0
  end.

Definition retriesExhausted (options : RequeueOptions)
    (job : Job Payload) : bool :=
  match maxRetries options with
  | Some max_retries => max_retries <=? priorCount job
  | None => false
  end.

(** The temporary and the permanent signals, in the order of the
    policy table. *)
Definition temporarySignals : list string :=
  [ "timeout"; "connection"; "network"; "ECONNREFUSED"; "ENOTFOUND";
    "ETIMEDOUT"; "ComfyUI API Error (5"; "Timeout waiting for ComfyUI";
    "Erro ao consultar histórico" ]%string.

Definition permanentSignals : list string :=
  [ "Workflow não encontrado"; "ComfyUI API Error (4"; "bad anatomy";
    "invalid input"; "malformed" ]%string.

Definition decisionTable (now : Z) (options : RequeueOptions)
  : list ((Job Payload -> bool) * Verdict) :=
  [ (ageExceeds now options, Reject);
    (retriesExhausted options, Reject);
    (fun job =>
       existsb (fun p => containsIgnoringCase p (reasonText job))
         temporarySignals, Accept);
    (fun job =>
       existsb (fun p => containsIgnoringCase p (reasonText job))
         permanentSignals, Reject);
    (fun job => priorCount job =? 0, Accept) ].

Fixpoint firstMatch (rules : list ((Job Payload -> bool) * Verdict))
    (job : Job Payload) : Verdict :=
  match rules with
  | [] => Reject
  | (condition, verdict) :: rest =>
      if condition job then verdict else firstMatch rest job
  end.

Definition accepted (v : Verdict) : bool :=
  match v with Accept => true | Reject => false end.

(** A job added under [name] with the payload [jobData] carries the
    lineage of [job]: it has the name and the payload of [job] and a
    lineage block whose count is the prior count of [job] plus one and
    whose origin is the identifier of [job]. *)
Definition carriesLineage (job : Job Payload) (name : string)
    (jobData : JobData Payload) : Prop :=
  name = Requeue.name job
  /\ payload jobData = payload (data job)
  /\ exists lineage,
       requeue_info jobData = Some lineage
       /\ requeue_count lineage = priorCount job + 1
       /\ original_job_id lineage = id job
       /\ original_failure_reason lineage = failedReason job.

End DecisionTable.

End RequeueSpec.

(** ** A queue that keeps a record of what is added to it

    Any queue and clock, with a record beside it of every call of
    [queue.add], in order, with the arguments of the call and how it
    ended. The other operations leave the record alone. *)

Module Recording.
Import Requeue.

Section Recording.

Context {Payload World : Type}.

Record AddCall : Type := {
  added_name : string;
  added_data : JobData Payload;
  added_options : JobOptions;
  added_outcome : result unit
}.

Definition Recorded : Type := (World * list AddCall)%type.

Definition calls (r : Recorded) : list AddCall := snd r.

Definition beside {A : Type} (operation : World -> A * World) (r : Recorded)
  : A * Recorded :=
  let '(a, w) := operation (fst r) in (a, (w, snd r)).

Definition recording
    (queue_add :
       string -> JobData Payload -> JobOptions -> World -> result unit * World)
    (name : string) (jobData : JobData Payload) (options : JobOptions)
    (r : Recorded) : result unit * Recorded :=
  let '(outcome, w) := queue_add name jobData options (fst r) in
  (outcome,
   (w, snd r ++ [{| added_name := name; added_data := jobData;
                    added_options := options; added_outcome := outcome |}])).

(** One turn of the sweep over the queue with its record. *)
Definition sweepJobRecorded
    (date_now : World -> Z * World)
    (queue_add :
       string -> JobData Payload -> JobOptions -> World -> result unit * World)
    (job_remove : Job Payload -> World -> result unit * World)
    (evaluate :
       Job Payload -> RequeueOptions -> World -> result Decision * World)
    (opts : RequeueOptions) (st : SweepState Recorded) (job : Job Payload)
  : SweepState Recorded :=
  sweepJob (beside date_now) (recording queue_add)
    (fun j => beside (job_remove j))
    (fun j o => beside (evaluate j o))
    opts st job.

End Recording.

Arguments AddCall : clear implicits.
Arguments Recorded : clear implicits.

End Recording.

(** ** Two resubmissions of one job

    A job that failed on a timeout, swept once, failing again under its
    new identity, and swept a second time. *)

Module Scenario.
Import Requeue MemQueue.

Definition job0 : Job string := {|
  id := "comfyui-fashion-sketch-1";
  name := "generate-comfyui-image";
  data := {| payload := "fashion-sketch"; requeue_info := None |};
  timestamp := 0;
  failedReason := Some "ETIMEDOUT while connecting"%string
|}.

Definition world0 : World := {|
  clock := 1000; failedSet := [job0]; waiting := [];
  add_faults := []; remove_faults := []
|}.

(** The same world with a queue that refuses to remove the job. *)
Definition stuckWorld : World := {|
  clock := 1000; failedSet := [job0]; waiting := [];
  add_faults := []; remove_faults := [id job0]
|}.

(** The world after the first sweep. *)
Definition world1 : World := snd (sweep world0).

(** The resubmitted job fails in turn and reaches the failed set. *)
Definition job1 : option (Job string) :=
  (fun entry => failAgain entry 2000 "ETIMEDOUT while connecting")
    <$> head (waiting world1).

Definition world1_failed : World := {|
  clock := 3000; failedSet := from_option (fun j => [j]) [] job1;
  waiting := []; add_faults := []; remove_faults := []
|}.

(** The world after the second sweep. *)
Definition world2 : World := snd (sweep world1_failed).

(** The lineage blocks of the jobs a world has waiting. *)
Definition lineage (w : World) : list (option RequeueInfo) :=
  map (fun entry => requeue_info (snd (fst entry))) (waiting w).

End Scenario.
(** * The worker *)

Module Worker.
Import JS.

(** ** [processComfyUIOutputs] *)

(** [interface GeneratedImage]; the three fields copied from the backend
    are whatever the backend sent. *)
Record GeneratedImage : Type := {
  filename : json;
  subfolder : json;
  type : json;
  node_id : string
}.

Record Metadata : Type := {
  workflow : string;
  user_id : option string;
  generated_at : Z
}.

Record Results : Type := {
  images : list GeneratedImage;
  metadata : Metadata
}.

(** The body of [for (const image of nodeOutputs.images)]: one push. *)
Definition pushImage (nodeId : string) (image : json) : result GeneratedImage :=
  let* filename := get image "filename" in
  let* subfolder := get image "subfolder" in
  let* type := get image "type" in
  Ok {| filename := filename; subfolder := subfolder; type := type;
        node_id := nodeId |}.

Fixpoint pushImages (nodeId : string) (entries : list json)
    (acc : list GeneratedImage) : result (list GeneratedImage) :=
  match entries with
  | [] => Ok acc
  | image :: rest =>
      let* pushed := pushImage nodeId image in
      pushImages nodeId rest (acc ++ [pushed])
  end.

(** The elements a [for ... of] loop visits in an array. *)
Definition elements (v : json) : list json :=
  match v with
  | Node true ps => array_items ps
  | _ => []
  end.

(** The body of [for (const nodeId in outputs)]. *)
Definition collectNode (outputs : json) (acc : list GeneratedImage)
    (nodeId : string) : result (list GeneratedImage) :=
  let* nodeOutputs := get outputs nodeId in
  let* images := get nodeOutputs "images" in
  if truthy images && isArray images
  then pushImages nodeId (elements images) acc
  else Ok acc.

Fixpoint collectNodes (outputs : json) (nodeIds : list string)
    (acc : list GeneratedImage) : result (list GeneratedImage) :=
  match nodeIds with
  | [] => Ok acc
  | nodeId :: rest =>
      let* acc' := collectNode outputs acc nodeId in
      collectNodes outputs rest acc'
  end.

Definition emptyOutput : exn := Error "Nenhum output recebido do ComfyUI".

(** The [catch] of [processComfyUIOutputs]: any error is thrown again
    under the message of the function. *)
Definition rethrowResults {A : Type} (r : result A) : result A :=
  match r with
  | Ok a => Ok a
  | Throw e => Throw (Error ("Falha ao processar resultados: " +:+ message e))
  end.

Definition processComfyUIOutputs (outputs : json) (workflow_name : string)
    (user : option string) (now : Z) : result Results :=
  let* images :=
    rethrowResults
      (if negb (truthy outputs) then Throw emptyOutput
       else collectNodes outputs (keys outputs) []) in
  Ok {| images := images;
        metadata := {| workflow := workflow_name; user_id := user;
                       generated_at := now |} |}.

(** ** [waitForComfyUICompletion] *)

Definition maxAttempts : nat := 120.

(** What one [GET /history/<promptId>] brings back. *)
Inductive response : Type :=
  | FetchRejected (e : exn)
  | NotOk (status : Z)
  | BodyRejected (e : exn)
  | Body (history : json).

(** What the worker does to the outside, in order. *)
Inductive event : Type :=
  | Submitted
  | Fetched
  | ProgressUpdated (progress : float)
  | Slept (milliseconds : Z).

Definition float_of_nat (n : nat) : float :=
  PrimFloat.of_uint63 (Uint63.of_Z (Z.of_nat n)).

(** [Math.min] on two numbers, neither of them NaN. *)
Definition Math_min (a b : float) : float :=
  if PrimFloat.ltb b a then b else a.

(** [50 + (attempts / maxAttempts) * 40], in double precision. *)
Definition pollProgress (attempts : nat) : float :=
  (50 + (float_of_nat attempts / float_of_nat maxAttempts) * 40)%float.

(** How the [try] body of one iteration ends before its sleep. *)
Inductive attempt : Type :=
  | Completed (outputs : json)
  | Raised (e : exn)
  | Pending (reported : option float).

Definition raising {A : Type} (r : result A) (k : A -> attempt) : attempt :=
  match r with
  | Ok a => k a
  | Throw e => Raised e
  end.

(** [a && a.k], as a condition. *)
Definition and_get (a : json) (k : string) : result bool :=
  if truthy a then let* b := get a k in Ok (truthy b) else Ok false.

Definition is_string (v : json) (s : string) : bool :=
  match v with
  | Leaf (PStr s') => String.eqb s' s
  | _ => false
  end.

(** The [try] body of the polling loop, from the answer of the fetch to
    the progress update. *)
Definition checkHistory (promptId : string) (attempts : nat) (r : response)
  : attempt :=
  match r with
  | FetchRejected e => Raised e
  | NotOk status =>
      Raised (Error ("Erro ao consultar histórico: " +:+ pretty status))
  | BodyRejected e => Raised e
  | Body history =>
      raising (get history promptId) (fun jobData =>
      if truthy jobData then
        raising (get jobData "status") (fun status =>
        raising (and_get status "completed") (fun completed =>
        if completed then
          raising (get jobData "outputs") Completed
        else
          raising
            (if truthy status then
               let* status_str := get status "status_str" in
               Ok (is_string status_str "error")
             else Ok false) (fun failed =>
          if failed then
            raising (get status "messages") (fun messages =>
            let first := opt_get (opt_get messages "0") "1" in
            let errorMsg :=
              if truthy first then to_string first
              else "Erro desconhecido no ComfyUI"%string in
            Raised (Error ("ComfyUI Error: " +:+ errorMsg)))
          else
            Pending (Some (Math_min (pollProgress attempts) 89)))))
      else Pending None)
  end.

Definition timeoutError : exn :=
  Error ("Timeout: ComfyUI não completou o processamento em "
         +:+ pretty (Z.of_nat maxAttempts * 5) +:+ " segundos").

(** The two counters of the loop: [attempts] is the variable of the
    source, [queries] counts the fetches made so far. *)
Record PollState : Type := {
  attempts : nat;
  queries : nat
}.

(** What a pending attempt reports before it sleeps. *)
Definition reported_events (reported : option float) : list event :=
  match reported with
  | Some p => [ProgressUpdated p]
  | None => []
  end.

(** The loop [while (attempts < maxAttempts)], returning how it ends and
    what it did, in order. The backend is the sequence of its answers,
    one per query. [fuel] bounds the number of iterations of the model;
    [None] means the bound was hit. *)
Fixpoint pollLoop (fuel : nat) (backend : nat -> response) (promptId : string)
    (st : PollState) : option (result json * list event) :=
  match fuel with
  | O => None
  | S fuel' =>
      if (attempts st <? maxAttempts)%nat then
        match checkHistory promptId (attempts st) (backend (queries st)) with
        | Completed outputs => Some (Ok outputs, [Fetched])
        | Pending reported =>
            match
              pollLoop fuel' backend promptId
                {| attempts := S (attempts st); queries := S (queries st) |}
            with
            | Some (r, later) =>
                Some (r, Fetched :: reported_events reported
                           ++ Slept 5000 :: later)
            | None => None
            end
        | Raised e =>
            let attempts' := S (attempts st) in
            if (maxAttempts <=? attempts')%nat then Some (Throw e, [Fetched])
            else
              match
                pollLoop fuel' backend promptId
                  {| attempts := attempts'; queries := S (queries st) |}
              with
              | Some (r, later) => Some (r, Fetched :: Slept 5000 :: later)
              | None => None
              end
        end
      else Some (Throw timeoutError, [])
  end.

Definition waitForComfyUICompletion (backend : nat -> response)
    (promptId : string) : option (result json * list event) :=
  pollLoop (S maxAttempts) backend promptId {| attempts := 0; queries := 0 |}.

(** ** The worker body *)

(** What [POST /prompt] brings back. *)
Inductive submission : Type :=
  | SubmitRejected (e : exn)
  | SubmitNotOk (status : Z) (errorData : result string)
  | SubmitBodyRejected (e : exn)
  | SubmitBody (result : json).

Record WorkerResult : Type := {
  status : string;
  prompt_id : json;
  results : Results;
  completed_at : Z
}.

Section Body.

(** [job.data.inputs], of type [any]. *)
Context {Inputs : Type}.

(** [interface ImageGenerationJobData], without its unused timestamp. *)
Record ImageGenerationJobData : Type := {
  workflow_name : string;
  inputs : Inputs;
  job_user_id : option string
}.

(** The collaborators of one run: the workflow file, the JSON parser,
    the parameter injection, the backend and the clock. *)
Variable readFile : string -> result string.
Variable JSON_parse : string -> result json.
Variable injectWorkflowParameters : json -> string -> Inputs -> result json.
Variable postPrompt : json -> submission.
Variable history : string -> nat -> response.
Variable now : Z.

(** The steps between the injection and the polling: the submission and
    the check of its answer. *)
Definition submitWorkflow (workflow : json) : result json :=
  let* prompt := get workflow "prompt" in
  match postPrompt (if truthy prompt then prompt else workflow) with
  | SubmitRejected e => Throw e
  | SubmitNotOk status (Throw e) => Throw e
  | SubmitNotOk status (Ok errorData) =>
      Throw (Error ("ComfyUI API Error (" +:+ pretty status +:+ "): "
                    +:+ errorData))
  | SubmitBodyRejected e => Throw e
  | SubmitBody result =>
      let* promptId := get result "prompt_id" in
      if negb (truthy promptId)
      then Throw (Error "ComfyUI não retornou um prompt_id válido")
      else Ok promptId
  end.

(** The callback of the worker: the [try] body, whose [catch] throws the
    error again unchanged. The result comes with the trace of what was
    done. *)
Definition imageGenerationWorker (data : ImageGenerationJobData)
  : option (result WorkerResult * list event) :=
  let t10 := [ProgressUpdated 10] in
  match readFile (workflow_name data) with
  | Throw _ =>
      Some (Throw (Error ("Workflow não encontrado: "
                          +:+ workflow_name data)), t10)
  | Ok workflowJson =>
  match JSON_parse workflowJson with
  | Throw e => Some (Throw e, t10)
  | Ok workflow =>
  let t20 := t10 ++ [ProgressUpdated 20] in
  match injectWorkflowParameters workflow (workflow_name data) (inputs data) with
  | Throw e => Some (Throw e, t20)
  | Ok workflow' =>
  let t30 := t20 ++ [ProgressUpdated 30; Submitted] in
  match submitWorkflow workflow' with
  | Throw e => Some (Throw e, t30)
  | Ok promptId =>
  let t50 := t30 ++ [ProgressUpdated 50] in
  match waitForComfyUICompletion (history (to_string promptId))
          (to_string promptId) with
  | None => None
  | Some (Throw e, polled) => Some (Throw e, t50 ++ polled)
  | Some (Ok outputs, polled) =>
  let t90 := t50 ++ polled ++ [ProgressUpdated 90] in
  match processComfyUIOutputs outputs (workflow_name data)
          (job_user_id data) now with
  | Throw e => Some (Throw e, t90)
  | Ok processedResults =>
      Some (Ok {| status := "completed"; prompt_id := promptId;
                  results := processedResults; completed_at := now |},
            t90 ++ [ProgressUpdated 100])
  end end end end end end.

End Body.

Arguments ImageGenerationJobData : clear implicits.

(** The progress values a trace reports, in order. *)
Definition progressValues (events : list event) : list float :=
  flat_map (fun e => match e with ProgressUpdated p => [p] | _ => [] end) events.

(** A list of numbers that never goes down. *)
Fixpoint nondecreasing (values : list float) : Prop :=
  match values with
  | [] => True
  | a :: rest =>
      match rest with
      | [] => True
      | b :: _ => PrimFloat.leb a b = true
      end /\ nondecreasing rest
  end.

(** The number of status queries in a trace. *)
Fixpoint queriesMade (events : list event) : nat :=
  match events with
  | [] => 0
  | Fetched :: rest => S (queriesMade rest)
  | _ :: rest => queriesMade rest
  end.

(** A trace is paced when every status query is followed by a sleep of
    five seconds before the next query, and nothing else sleeps. *)
Fixpoint pacedFrom (afterFetch : bool) (events : list event) : bool :=
  match events with
  | [] => true
  | Fetched :: rest => negb afterFetch && pacedFrom true rest
  | Slept ms :: rest => afterFetch && (ms =? 5000) && pacedFrom false rest
  | _ :: rest => pacedFrom afterFetch rest
  end.

Definition paced (events : list event) : bool := pacedFrom false events.

(** The progress value of a polling attempt, as reported. *)
Definition clampedProgress (attempt : nat) : float :=
  Math_min (pollProgress attempt) 89.

(** Indices in increasing order, all below [maxAttempts]. *)
Fixpoint increasingFrom (i : nat) (indices : list nat) : Prop :=
  match indices with
  | [] => True
  | a :: rest => (i <= a < maxAttempts)%nat /\ increasingFrom (S a) rest
  end.

(** An answer of the backend, as a history document. *)
Definition historyOf (promptId : string) (jobData : json) : response :=
  Body (obj [(promptId, jobData)]).

Definition stillRunning : json :=
  obj [("status", obj [("status_str", Leaf (PStr "running"));
                       ("completed", Leaf (PBool false))])].

Definition completedWith (outputs : json) : json :=
  obj [("status", obj [("status_str", Leaf (PStr "success"));
                       ("completed", Leaf (PBool true))]);
       ("outputs", outputs)].

Definition failedWith (text : string) : json :=
  obj [("status",
        obj [("status_str", Leaf (PStr "error"));
             ("completed", Leaf (PBool false));
             ("messages",
              arr [arr [Leaf (PStr "execution_error"); Leaf (PStr text)]])])].

End Worker.

(** ** The completion poller as the specification words it *)

Module PollerSpec.
Import JS Worker.

(** The answer reports the prompt completed, with these outputs: its
    body holds an entry for the prompt whose status has [completed]
    set. *)
Definition reportsCompleted (promptId : string) (answer : response)
    (outputs : json) : Prop :=
  exists history entry status completed,
    answer = Body history
    /\ get history promptId = Ok entry /\ truthy entry = true
    /\ get entry "status" = Ok status /\ truthy status = true
    /\ get status "completed" = Ok completed /\ truthy completed = true
    /\ get entry "outputs" = Ok outputs.

(** The answer says the prompt is still running: its body holds an
    entry for the prompt with no status, or with a status that is not
    completed and is not "error". *)
Definition reportsRunning (promptId : string) (answer : response) : Prop :=
  exists history entry status,
    answer = Body history
    /\ get history promptId = Ok entry /\ truthy entry = true
    /\ get entry "status" = Ok status
    /\ (truthy status = false
        \/ exists completed status_str,
             get status "completed" = Ok completed
             /\ truthy completed = false
             /\ get status "status_str" = Ok status_str
             /\ status_str <> Leaf (PStr "error")).

(** The answer has no entry for the prompt yet. *)
Definition reportsNothing (promptId : string) (answer : response) : Prop :=
  exists history entry,
    answer = Body history
    /\ get history promptId = Ok entry /\ truthy entry = false.

(** The error of a poller that gave up. *)
Definition timeoutMessage : string :=
  "Timeout: ComfyUI não completou o processamento em 600 segundos".

(** The progress of a polling attempt: 50 + (attempt / 120) * 40 in
    double precision, cut at 89. *)
Definition interpolatedProgress (attempt : nat) : float :=
  let progress :=
    (50 + (PrimFloat.of_uint63 (Uint63.of_Z (Z.of_nat attempt)) / 120) * 40)%float
  in
  if PrimFloat.ltb 89 progress then 89%float else progress.

(** The progress reports of a trace, each with the attempt it was made
    in: the attempts are numbered from 0, one for each status query. *)
Fixpoint reportsFrom (queries : nat) (events : list event)
  : list (nat * float) :=
  match events with
  | [] => []
  | Fetched :: rest => reportsFrom (S queries) rest
  | ProgressUpdated p :: rest =>
      (Nat.pred queries, p) :: reportsFrom queries rest
  | _ :: rest => reportsFrom queries rest
  end.

Definition pollingReports (events : list event) : list (nat * float) :=
  reportsFrom 0 events.

End PollerSpec.

(** ** The result extractor as the specification words it *)

Module ExtractorSpec.
Import JS Worker.

(** The artifact of one image entry of the group [nodeId]. *)
Definition artifact (nodeId : string) (image : json) : GeneratedImage :=
  {| filename := opt_get image "filename";
     subfolder := opt_get image "subfolder";
     type := opt_get image "type";
     node_id := nodeId |}.

(** The image list of a node group: its [images] member when that is an
    array, and no entry otherwise. *)
Definition imageEntries (group : json) : list json :=
  let images := opt_get group "images" in
  if isArray images then elements images else [].

(** Every image entry of every group, in order, tagged with its group. *)
Definition flatten (outputs : json) : list GeneratedImage :=
  flat_map
    (fun nodeId => map (artifact nodeId) (imageEntries (opt_get outputs nodeId)))
    (keys outputs).

(** No group and no image entry is [null] or [undefined]. *)
Definition wellFormed (outputs : json) : bool :=
  forallb
    (fun nodeId =>
       let group := opt_get outputs nodeId in
       negb (is_nullish group)
       && forallb (fun image => negb (is_nullish image)) (imageEntries group))
    (keys outputs).

(** The empty-output error as the caller sees it. *)
Definition emptyOutputError : exn :=
  Error "Falha ao processar resultados: Nenhum output recebido do ComfyUI".

(** The error of the language on a read from [null] or [undefined]. *)
Definition unreadableRaw (e : exn) : Prop :=
  exists what, e = TypeError ("Cannot read properties of " +:+ what).

(** The failure on a [null] or [undefined] group or entry. *)
Definition unreadable (e : exn) : Prop :=
  exists what,
    e = Error ("Falha ao processar resultados: Cannot read properties of "
               +:+ what).

(** Two node groups, one with two images and one with none. *)
Definition twoGroups : json :=
  obj [ ("9", obj [("images",
                    arr [ obj [("filename", Leaf (PStr "a.png"));
                               ("subfolder", Leaf (PStr ""));
                               ("type", Leaf (PStr "output"))];
                          obj [("filename", Leaf (PStr "b.png"));
                               ("subfolder", Leaf (PStr ""));
                               ("type", Leaf (PStr "output"))] ])]);
        ("12", obj [("text", arr [Leaf (PStr "a caption")])]) ].

End ExtractorSpec.

(** * The parameter injector

    [injectWorkflowParameters] copies the workflow and then assigns into
    the copy. Whether the caller's workflow object is left alone is a
    question about object identity, so here objects live in a store and
    values point into it. *)

Module Injector.
Import JS.

(** ** The store *)

Definition loc : Type := nat.

(** A value held in a variable or in a property: a primitive, or a
    reference to an object or array of the store. *)
Inductive value : Type :=
  | VPrim (p : prim)
  | VRef (l : loc).

(** An object or array of the store, with its properties in enumeration
    order. *)
Record cell : Type := {
  isArrayCell : bool;
  props : list (string * value)
}.

Abbreviation heap := (list cell).

Definition undefined : value := VPrim PUndefined.
Definition str (s : string) : value := VPrim (PStr s).

Definition value_truthy (v : value) : bool :=
  match v with
  | VPrim p => prim_truthy p
  | VRef _ => true
  end.

(** [v[k]] *)
Definition heap_get (h : heap) (v : value) (k : string) : result value :=
  match v with
  | VPrim p => let* p' := prim_get p k in Ok (VPrim p')
  | VRef l =>
      match h !! l with
      | Some c =>
          Ok (props_get undefined (fun n => VPrim (PNum (Z.of_nat n)))
                (isArrayCell c) (props c) k)
      | None => Ok undefined
      end
  end.

(** [v[k] = x], in strict mode: assigning into a primitive throws. *)
Definition heap_set (h : heap) (v : value) (k : string) (x : value)
  : result heap :=
  match v with
  | VPrim PUndefined =>
      Throw (TypeError ("Cannot set properties of undefined (setting '"
                        +:+ k +:+ "')"))
  | VPrim PNull =>
      Throw (TypeError ("Cannot set properties of null (setting '"
                        +:+ k +:+ "')"))
  | VPrim p =>
      Throw (TypeError ("Cannot create property '" +:+ k +:+ "' on "
                        +:+ prim_to_string p))
  | VRef l =>
      match h !! l with
      | Some c =>
          Ok (<[l := {| isArrayCell := isArrayCell c;
                        props := assign_prop k x (props c) |}]> h)
      | None => Ok h
      end
  end.

(** [k in v] *)
Definition heap_in (h : heap) (k : string) (v : value) : result bool :=
  match v with
  | VPrim p =>
      Throw (TypeError ("Cannot use 'in' operator to search for '" +:+ k
                        +:+ "' in " +:+ prim_to_string p))
  | VRef l =>
      match h !! l with
      | Some c =>
          Ok (has_prop k (props c)
              || (isArrayCell c && String.eqb k "length"))
      | None => Ok false
      end
  end.

(** [Object.keys(v)] for a value that is not [null] or [undefined]. *)
Definition heap_keys (h : heap) (v : value) : list string :=
  match v with
  | VPrim (PStr s) => string_keys s
  | VPrim _ => []
  | VRef l =>
      match h !! l with
      | Some c => map fst (props c)
      | None => []
      end
  end.

(** ToString. The nesting of arrays is followed to the depth [fuel]; a
    store of JSON data has no deeper nesting than it has cells. *)
Fixpoint heap_to_string (fuel : nat) (h : heap) (v : value) : string :=
  match v with
  | VPrim p => prim_to_string p
  | VRef l =>
      match h !! l with
      | Some c =>
          if isArrayCell c then
            match fuel with
            | O => ""
            | S fuel' =>
                join ","
                  (map (fun e =>
                          match e with
                          | VPrim PUndefined | VPrim PNull => ""%string
                          | _ => heap_to_string fuel' h e
                          end)
                       (array_items (props c)))
            end
          else "[object Object]"
      | None => "[object Object]"
      end
  end.

Definition to_string (h : heap) (v : value) : string :=
  heap_to_string (length h) h v.

(** ** [parseInt] *)

(** White space that [parseInt] skips (the ASCII part of it). *)
Definition is_white (c : ascii) : bool :=
  let n := nat_of_ascii c in
  ((9 <=? n) && (n <=? 13) || (n =? 32))%nat.

Fixpoint skip_white (s : string) : string :=
  match s with
  | String c s' => if is_white c then skip_white s' else s
  | EmptyString => s
  end.

(** The value of a digit in the given radix, if it is one. *)
Definition digit_value (radix : N) (c : ascii) : option N :=
  let n := N_of_ascii c in
  let d :=
    if ((48 <=? n) && (n <=? 57))%N then Some (n - 48)%N
    else if ((97 <=? n) && (n <=? 122))%N then Some (n - 87)%N
    else if ((65 <=? n) && (n <=? 90))%N then Some (n - 55)%N
    else None in
  match d with
  | Some d => if (d <? radix)%N then Some d else None
  | None => None
  end.

(** The number the longest prefix of digits denotes, continuing from
    [acc]; [None] when [s] starts with no digit and [seen] is false. *)
Fixpoint scan_digits (radix : N) (seen : bool) (acc : N) (s : string)
  : option N :=
  match s with
  | String c s' =>
      match digit_value radix c with
      | Some d => scan_digits radix true (acc * radix + d)%N s'
      | None => if seen then Some acc else None
      end
  | EmptyString => if seen then Some acc else None
  end.

Definition strip_hex_prefix (s : string) : option string :=
  match s with
  | String "0" (String c s') =>
      if (Ascii.eqb c "x" || Ascii.eqb c "X")%bool then Some s' else None
  | _ => None
  end.

(** [parseInt(s)] on a string, with no radix given. *)
Definition parseInt_string (s : string) : prim :=
  let s1 := skip_white s in
  let '(negative, s2) :=
    match s1 with
    | String "-" s' => (true, s')
    | String "+" s' => (false, s')
    | _ => (false, s1)
    end in
  let scanned :=
    match strip_hex_prefix s2 with
    | Some s3 => scan_digits 16 false 0 s3
    | None => scan_digits 10 false 0 s2
    end in
  match scanned with
  | Some n => PNum (if negative then - Z.of_N n else Z.of_N n)
  | None => PNaN
  end.

(** [parseInt(v)]: the value is converted to a string first. *)
Definition parseInt (h : heap) (v : value) : value :=
  VPrim (parseInt_string (to_string h v)).

(** ** [JSON.parse(JSON.stringify(v))] *)

(** [JSON.stringify]: the JSON document of a value, or [None] where
    [stringify] gives [undefined]. An [undefined] property of an object
    is left out, an [undefined] element of an array and NaN become
    [null], the extra properties of an array are left out, and a chain
    of references longer than [fuel] is a circular structure. *)
Fixpoint stringify (fuel : nat) (h : heap) (v : value) : result (option json) :=
  match v with
  | VPrim PUndefined => Ok None
  | VPrim PNaN => Ok (Some (Leaf PNull))
  | VPrim p => Ok (Some (Leaf p))
  | VRef l =>
      match fuel with
      | O => Throw (TypeError "Converting circular structure to JSON")
      | S fuel' =>
          match h !! l with
          | None => Ok None
          | Some c =>
              if isArrayCell c then
                let* elements :=
                  (fix each (vs : list value) : result (list json) :=
                     match vs with
                     | [] => Ok []
                     | e :: vs' =>
                         let* j := stringify fuel' h e in
                         let* rest := each vs' in
                         Ok (match j with Some j => j | None => Leaf PNull end
                             :: rest)
                     end) (array_items (props c)) in
                Ok (Some (arr elements))
              else
                let* members :=
                  (fix each (ps : list (string * value))
                     : result (list (string * json)) :=
                     match ps with
                     | [] => Ok []
                     | (k, e) :: ps' =>
                         let* j := stringify fuel' h e in
                         let* rest := each ps' in
                         Ok (match j with
                             | Some j => (k, j) :: rest
                             | None => rest
                             end)
                     end) (props c) in
                Ok (Some (obj members))
          end
      end
  end.

(** [JSON.parse] of a document: every object and array of it is a new
    cell of the store, the members before the object that holds them.
    The document is the one [JSON.stringify] printed from an object of
    the store, so its members are in the order in which the engine
    enumerates them and no name is repeated; they are kept as they
    come. *)
Fixpoint parse (j : json) (h : heap) : value * heap :=
  match j with
  | Leaf p => (VPrim p, h)
  | Node a members =>
      let '(ps, h') :=
        (fix each (members : list (string * json)) (h : heap)
           : list (string * value) * heap :=
           match members with
           | [] => ([], h)
           | (k, m) :: members' =>
               let '(v, h1) := parse m h in
               let '(ps, h2) := each members' h1 in
               ((k, v) :: ps, h2)
           end) members h in
      (VRef (length h'), h' ++ [{| isArrayCell := a; props := ps |}])
  end.

(** The deep copy of the first line of the function. *)
Definition deepCopy (h : heap) (v : value) : result (value * heap) :=
  let* document := stringify (S (length h)) h v in
  match document with
  | Some j => Ok (parse j h)
  | None => Throw (SyntaxError "undefined is not valid JSON")
  end.

(** ** Computations on the store *)

(** A step of the function body: it runs on a store and ends with a
    value or a throw, and with the store it left. *)
Definition H (A : Type) : Type := heap -> result A * heap.

Definition pure {A : Type} (a : A) : H A := fun h => (Ok a, h).

Definition andThen {A B : Type} (m : H A) (k : A -> H B) : H B :=
  fun h =>
    match m h with
    | (Ok a, h') => k a h'
    | (Throw e, h') => (Throw e, h')
    end.

(** A step that only reads the store. *)
Definition read {A : Type} (f : heap -> result A) : H A :=
  fun h => (f h, h).

(** A step that replaces the store. *)
Definition write (f : heap -> result heap) : H unit :=
  fun h =>
    match f h with
    | Ok h' => (Ok tt, h')
    | Throw e => (Throw e, h)
    end.

Notation "'do' x '<-' m ';' k" := (andThen m (fun x => k))
  (at level 10, x name, m at level 200, k at level 200).

Definition get (v : value) (k : string) : H value :=
  read (fun h => heap_get h v k).

Definition set (v : value) (k : string) (x : value) : H unit :=
  write (fun h => heap_set h v k x).

(** [a || b] on values, [b] evaluated only when [a] is falsy. *)
Definition orElse (a b : heap -> result value) (h : heap) : result value :=
  let* x := a h in
  if value_truthy x then Ok x else b h.

Definition field (inputs : value) (k : string) (h : heap) : result value :=
  heap_get h inputs k.

Definition constant (s : string) (h : heap) : result value := Ok (str s).

(** ** [injectWorkflowParameters] *)

(** [processedWorkflow.prompt && processedWorkflow.prompt[nodeId]], as a
    condition. *)
Definition hasNode (processedWorkflow : value) (nodeId : string) : H bool :=
  do prompt <- get processedWorkflow "prompt";
  if value_truthy prompt then
    do node <- get prompt nodeId;
    pure (value_truthy node)
  else pure false.

(** [processedWorkflow.prompt[nodeId].inputs.text = rhs]: the object is
    evaluated, then the right-hand side, then the property is set. *)
Definition assignText (processedWorkflow : value) (nodeId : string)
    (rhs : heap -> result value) : H unit :=
  do prompt <- get processedWorkflow "prompt";
  do node <- get prompt nodeId;
  do base <- get node "inputs";
  do x <- read rhs;
  set base "text" x.

(** [if (processedWorkflow.prompt && processedWorkflow.prompt[nodeId])
      { processedWorkflow.prompt[nodeId].inputs.text = rhs }] *)
Definition injectText (processedWorkflow : value) (nodeId : string)
    (rhs : heap -> result value) : H unit :=
  do present <- hasNode processedWorkflow nodeId;
  if present then assignText processedWorkflow nodeId rhs else pure tt.

(** The prompt of the pattern workflow, a template literal. *)
Definition patternPrompt (inputs : value) (h : heap) : result value :=
  let* pattern_type := orElse (field inputs "pattern_type") (constant "floral") h in
  let* colors := orElse (field inputs "colors") (constant "colorful") h in
  Ok (str (to_string h pattern_type +:+ " pattern, " +:+ to_string h colors
           +:+ ", seamless, high quality")).

(** The prompt of the model workflow, a template literal. *)
Definition modelPrompt (inputs : value) (h : heap) : result value :=
  let* model_type := orElse (field inputs "model_type") (constant "female") h in
  let* garment :=
    orElse (field inputs "garment_description")
      (constant "fashionable clothing") h in
  Ok (str (to_string h model_type +:+ " model wearing " +:+ to_string h garment
           +:+ ", professional photography")).

Definition knownWorkflows : list string :=
  ["fashion-sketch"; "pattern-generation"; "model-visualization"]%string.

Definition isKnown (workflowName : string) : bool :=
  existsb (String.eqb workflowName) knownWorkflows.

(** The [switch (workflowName)]. *)
Definition injectByName (processedWorkflow : value) (workflowName : string)
    (inputs : value) : H unit :=
  if String.eqb workflowName "fashion-sketch" then
    do _ <- injectText processedWorkflow "6"
              (orElse (field inputs "prompt_text")
                 (orElse (field inputs "prompt") (constant "fashion sketch")));
    injectText processedWorkflow "7"
      (orElse (field inputs "negative_prompt")
         (constant "bad anatomy, low quality"))
  else if String.eqb workflowName "pattern-generation" then
    do present <- hasNode processedWorkflow "6";
    if present then
      do patternPrompt <- read (patternPrompt inputs);
      assignText processedWorkflow "6" (fun _ => Ok patternPrompt)
    else pure tt
  else if String.eqb workflowName "model-visualization" then
    do present <- hasNode processedWorkflow "6";
    if present then
      do modelPrompt <- read (modelPrompt inputs);
      assignText processedWorkflow "6" (fun _ => Ok modelPrompt)
    else pure tt
  else
    do prompt_text <- get inputs "prompt_text";
    if value_truthy prompt_text then
      do present <- hasNode processedWorkflow "6";
      if present
      then assignText processedWorkflow "6" (field inputs "prompt_text")
      else pure tt
    else pure tt.

Definition is_str (v : value) (s : string) : bool :=
  match v with
  | VPrim (PStr s') => String.eqb s' s
  | _ => false
  end.

(** The callback of [Object.keys(processedWorkflow.prompt).forEach]. *)
Definition seedNode (processedWorkflow inputs : value) (nodeId : string)
  : H unit :=
  do prompt <- get processedWorkflow "prompt";
  do node <- get prompt nodeId;
  do class_type <- get node "class_type";
  if is_str class_type "KSampler" then
    do nodeInputs <- get node "inputs";
    if value_truthy nodeInputs then
      do hasSeed <- read (fun h => heap_in h "seed" nodeInputs);
      if hasSeed then
        do base <- get node "inputs";
        do seed <- get inputs "seed";
        do parsed <- read (fun h => Ok (parseInt h seed));
        set base "seed" parsed
      else pure tt
    else pure tt
  else pure tt.

Fixpoint forEach (callback : string -> H unit) (keys : list string) : H unit :=
  match keys with
  | [] => pure tt
  | k :: rest => do _ <- callback k; forEach callback rest
  end.

(** [if (inputs.seed && processedWorkflow.prompt) { ... }] *)
Definition injectSeed (processedWorkflow inputs : value) : H unit :=
  do seed <- get inputs "seed";
  if value_truthy seed then
    do prompt <- get processedWorkflow "prompt";
    if value_truthy prompt then
      do prompt' <- get processedWorkflow "prompt";
      do keys <- read (fun h => Ok (heap_keys h prompt'));
      forEach (seedNode processedWorkflow inputs) keys
    else pure tt
  else pure tt.

(** What the function writes to the console. *)
Inductive logEntry : Type :=
  | Warned (text : string)
  | ErrorLogged (text : string) (error : exn).

Record state : Type := {
  store : heap;
  console : list logEntry
}.

Definition unknownWorkflowWarning (workflowName : string) : logEntry :=
  Warned ("⚠️ Workflow desconhecido: " +:+ workflowName
          +:+ ". Usando inputs genéricos.").

Definition processingError (e : exn) : exn :=
  Error ("Falha ao processar parâmetros do workflow: " +:+ message e).

(** The function: the copy, then the [try] with its [catch]. A failure
    of the copy is outside the [try] and is thrown as it is. *)
Definition injectWorkflowParameters (workflow : value) (workflowName : string)
    (inputs : value) (st : state) : result value * state :=
  match deepCopy (store st) workflow with
  | Throw e => (Throw e, st)
  | Ok (processedWorkflow, copied) =>
      let warned :=
        if isKnown workflowName then console st
        else console st ++ [unknownWorkflowWarning workflowName] in
      match
        (do _ <- injectByName processedWorkflow workflowName inputs;
         injectSeed processedWorkflow inputs) copied
      with
      | (Ok _, h) => (Ok processedWorkflow, {| store := h; console := warned |})
      | (Throw e, h) =>
          (Throw (processingError e),
           {| store := h;
              console :=
                warned
                ++ [ErrorLogged "Erro ao injetar parâmetros no workflow:" e] |})
      end
  end.

(** [v[k1][k2]...] *)
Fixpoint path_get (h : heap) (v : value) (path : list string) : result value :=
  match path with
  | [] => Ok v
  | k :: rest => let* v' := heap_get h v k in path_get h v' rest
  end.

End Injector.

(** ** The copy as a tree

    The objects of the copy form a tree in the store: every object of it
    is held by exactly one property. The assignments of the function are
    followed on that tree. A leaf of the tree is any value, so that a
    property may hold a reference to an object of the caller. *)

Module CopyTree.
Import JS Injector.

Definition vtree : Type := tree value.

(** A JSON document as a tree of values. *)
Fixpoint embed (j : json) : vtree :=
  match j with
  | Leaf p => Leaf (VPrim p)
  | Node a members =>
      Node a
        ((fix each (members : list (string * json)) : list (string * vtree) :=
            match members with
            | [] => []
            | (k, m) :: members' => (k, embed m) :: each members'
            end) members)
  end.

(** [own h t v lo hi]: in the store [h] the value [v] is the root of the
    tree [t], whose objects are cells in the range from [lo] to below
    [hi], each subtree in a range of its own, before the cell of the
    object that holds it. *)
Inductive own (h : heap) : vtree -> value -> nat -> nat -> Prop :=
  | own_leaf x lo hi :
      (lo <= hi)%nat -> own h (Leaf x) x lo hi
  | own_node a ts cs l lo hi :
      (l < hi)%nat ->
      h !! l = Some {| isArrayCell := a; props := cs |} ->
      owns h ts cs lo l ->
      own h (Node a ts) (VRef l) lo hi
with owns (h : heap)
  : list (string * vtree) -> list (string * value) -> nat -> nat -> Prop :=
  | owns_nil lo hi :
      (lo <= hi)%nat -> owns h [] [] lo hi
  | owns_cons k t v ts cs lo mid hi :
      own h t v lo mid -> owns h ts cs mid hi ->
      owns h ((k, t) :: ts) ((k, v) :: cs) lo hi.

Scheme own_mut := Induction for own Sort Prop
  with owns_mut := Induction for owns Sort Prop.

(** No reference to an object of the caller down to the depth [d]: the
    leaves above that depth are primitives. *)
Fixpoint pure_to (d : nat) (t : vtree) : Prop :=
  match d with
  | O => True
  | S d' =>
      match t with
      | Leaf (VPrim _) => True
      | Leaf (VRef _) => False
      | Node _ ts =>
          (fix all (ts : list (string * vtree)) : Prop :=
             match ts with
             | [] => True
             | (_, t') :: ts' => pure_to d' t' /\ all ts'
             end) ts
      end
  end.

(** [t[k]] on a tree. *)
Definition child (t : vtree) (k : string) : result vtree :=
  match t with
  | Leaf v => let* v' := heap_get [] v k in Ok (Leaf v')
  | Node a ts =>
      Ok (props_get (Leaf undefined) (fun n => Leaf (VPrim (PNum (Z.of_nat n))))
            a ts k)
  end.

Definition truthyT (t : vtree) : bool :=
  match t with
  | Leaf v => value_truthy v
  | Node _ _ => true
  end.

(** The tree with its member [k] replaced. *)
Definition put (t : vtree) (k : string) (member : vtree) : vtree :=
  match t with
  | Node a ts => Node a (assign_prop k member ts)
  | Leaf _ => t
  end.

(** [t[k] = x] at the root of a tree. *)
Definition assignLeaf (t : vtree) (k : string) (x : value) : result vtree :=
  match t with
  | Node a ts => Ok (Node a (assign_prop k (Leaf x) ts))
  | Leaf v =>
      match heap_set [] v k x with
      | Throw e => Throw e
      | Ok _ => Throw (TypeError "not an object of the copy")
      end
  end.

(** [t[k1][k2]...] on a tree. *)
Fixpoint descend (t : vtree) (path : list string) : result vtree :=
  match path with
  | [] => Ok t
  | k :: rest => let* c := child t k in descend c rest
  end.

(** The tree with the subtree at [path] replaced. *)
Fixpoint graft (t : vtree) (path : list string) (sub : vtree) : vtree :=
  match path with
  | [] => sub
  | k :: rest =>
      match child t k with
      | Ok c => put t k (graft c rest sub)
      | Throw _ => t
      end
  end.

(** A step on the tree: a value or a throw, and the tree it left. *)
Definition T (A : Type) : Type := vtree -> result A * vtree.

(** [t.prompt && t.prompt[nodeId]] *)
Definition hasNodeT (nodeId : string) (t : vtree) : result bool :=
  let* prompt := child t "prompt" in
  if truthyT prompt then
    let* node := child prompt nodeId in
    Ok (truthyT node)
  else Ok false.

(** [t.prompt[nodeId].inputs[key] = x], the right-hand side given as
    evaluated. *)
Definition assignAtT (nodeId key : string) (rhs : result value) : T unit :=
  fun t =>
    match
      (let* prompt := child t "prompt" in
       let* node := child prompt nodeId in
       let* base := child node "inputs" in
       let* x := rhs in
       let* base' := assignLeaf base key x in
       Ok (put t "prompt" (put prompt nodeId (put node "inputs" base'))))
    with
    | Ok t' => (Ok tt, t')
    | Throw e => (Throw e, t)
    end.

Definition injectTextT (nodeId : string) (rhs : result value) : T unit :=
  fun t =>
    match hasNodeT nodeId t with
    | Ok true => assignAtT nodeId "text" rhs t
    | Ok false => (Ok tt, t)
    | Throw e => (Throw e, t)
    end.

Definition is_strT (t : vtree) (s : string) : bool :=
  match t with
  | Leaf v => is_str v s
  | Node _ _ => false
  end.

(** ['seed' in t] *)
Definition inT (k : string) (t : vtree) : result bool :=
  match t with
  | Leaf v => heap_in [] k v
  | Node a ts => Ok (has_prop k ts || (a && String.eqb k "length"))
  end.

(** Whether the callback of the seed loop assigns at [nodeId]. *)
Definition wantsSeedT (nodeId : string) (t : vtree) : result bool :=
  let* prompt := child t "prompt" in
  let* node := child prompt nodeId in
  let* class_type := child node "class_type" in
  if is_strT class_type "KSampler" then
    let* nodeInputs := child node "inputs" in
    if truthyT nodeInputs then inT "seed" nodeInputs else Ok false
  else Ok false.

(** The callback of the seed loop; [parsed] is the value of
    [parseInt(inputs.seed)]. *)
Definition seedNodeT (parsed : result value) (nodeId : string) : T unit :=
  fun t =>
    match wantsSeedT nodeId t with
    | Ok true => assignAtT nodeId "seed" parsed t
    | Ok false => (Ok tt, t)
    | Throw e => (Throw e, t)
    end.

Fixpoint forEachT (callback : string -> T unit) (keys : list string) : T unit :=
  fun t =>
    match keys with
    | [] => (Ok tt, t)
    | k :: rest =>
        match callback k t with
        | (Ok _, t') => forEachT callback rest t'
        | (Throw e, t') => (Throw e, t')
        end
    end.

Definition keysT (t : vtree) : list string :=
  match t with
  | Leaf v => heap_keys [] v
  | Node _ ts => map fst ts
  end.

(** The seed broadcast; [seed] is the value of [inputs.seed]. *)
Definition injectSeedT (seed parsed : result value) : T unit :=
  fun t =>
    match seed with
    | Throw e => (Throw e, t)
    | Ok seed =>
        if value_truthy seed then
          match child t "prompt" with
          | Throw e => (Throw e, t)
          | Ok prompt =>
              if truthyT prompt
              then forEachT (seedNodeT parsed) (keysT prompt) t
              else (Ok tt, t)
          end
        else (Ok tt, t)
    end.

(** The generic path of the [switch] followed by the seed broadcast, on
    the tree; [prompt_text] and [seed] are the values of the two inputs
    and [parsed] the value of [parseInt(inputs.seed)]. *)
Definition genericT (prompt_text seed parsed : result value) : T unit :=
  fun t =>
    match prompt_text with
    | Throw e => (Throw e, t)
    | Ok text =>
        if value_truthy text then
          match injectTextT "6" (Ok text) t with
          | (Ok _, t1) => injectSeedT seed parsed t1
          | (Throw e, t1) => (Throw e, t1)
          end
        else injectSeedT seed parsed t
    end.

(** The tree after some assignments of a [text] input, each made as
    [t.prompt[nodeId].inputs.text = x]. *)
Inductive textSteps : vtree -> vtree -> Prop :=
  | text_done t : textSteps t t
  | text_step nodeId x t t1 t2 :
      assignAtT nodeId "text" (Ok x) t = (Ok tt, t1) ->
      textSteps t1 t2 ->
      textSteps t t2.

(** The seed of the node [nodeId]: [t.prompt[nodeId].inputs.seed]. *)
Definition seedAt (nodeId : string) (t : vtree) : result vtree :=
  descend t ["prompt"; nodeId; "inputs"; "seed"].

(** A node that is an object with an [inputs] object. *)
Definition hasInputsObject {A : Type} (node : tree A) : bool :=
  match node with
  | Node _ members =>
      match lookup_prop "inputs" members with
      | Some (Node _ _) => true
      | _ => false
      end
  | Leaf _ => false
  end.

(** A template that is an object and whose [prompt], when it has one,
    is an object of such nodes. *)
Definition wellFormedTemplate {A : Type} (t : tree A) : bool :=
  match t with
  | Node _ members =>
      match lookup_prop "prompt" members with
      | Some (Node _ nodes) => forallb (fun kn => hasInputsObject kn.2) nodes
      | Some (Leaf _) => false
      | None => true
      end
  | Leaf _ => false
  end.

(** A value that was given: neither [null] nor [undefined]. *)
Definition is_given (v : value) : bool :=
  match v with
  | VPrim p => negb (nullish p)
  | VRef _ => true
  end.

(** A value that lives in the store [h]: a primitive, or a reference to
    one of its cells. *)
Definition in_store (h : heap) (v : value) : bool :=
  match v with
  | VPrim _ => true
  | VRef l => (l <? length h)%nat
  end.

(** [inputs.seed] is not an object. *)
Definition seedIsPrimitive (h : heap) (inputs : value) : bool :=
  match heap_get h inputs "seed" with
  | Ok (VRef _) => false
  | _ => true
  end.

(** The state of the copy during the [try]: the value [r] owns the tree
    [t] in the cells that [JSON.parse] appended to the store [h0], the
    store has kept its length [n1] since, the cells of [h0] are as they
    were, and the tree holds no reference down to the objects that the
    function assigns into. *)
Record copy_inv (h0 : heap) (n1 : nat) (r : value) (h : heap) (t : vtree)
  : Prop := {
  inv_own : own h t r (length h0) n1;
  inv_pure : pure_to 4 t;
  inv_length : length h = n1;
  inv_old : forall l : loc, (l < length h0)%nat -> h !! l = h0 !! l
}.

(** Whether the callback of the seed loop assigns at [nodeId], read from
    the store. *)
Definition wantsSeed (h : heap) (r : value) (nodeId : string) : result bool :=
  let* prompt := heap_get h r "prompt" in
  let* node := heap_get h prompt nodeId in
  let* class_type := heap_get h node "class_type" in
  if is_str class_type "KSampler" then
    let* nodeInputs := heap_get h node "inputs" in
    if value_truthy nodeInputs then heap_in h "seed" nodeInputs else Ok false
  else Ok false.

(** [r.prompt[nodeId].inputs[key] = rhs] on the store. *)
Definition assignAt (r : value) (nodeId key : string)
    (rhs : heap -> result value) : H unit :=
  do prompt <- get r "prompt";
  do node <- get prompt nodeId;
  do base <- get node "inputs";
  do x <- read rhs;
  set base key x.

(** [parseInt(inputs.seed)], read from the store. *)
Definition parsedSeed (inputs : value) (h : heap) : result value :=
  let* seed := heap_get h inputs "seed" in
  Ok (parseInt h seed).

End CopyTree.

(** ** A template, a request *)

Module InjectorScenario.
Import JS Injector.

Definition node (class_type : string) (inputs : list (string * json)) : json :=
  obj [("class_type", Leaf (PStr class_type)); ("inputs", obj inputs)].

Definition nodes : list (string * json) :=
  [("3", node "KSampler" [("seed", Leaf (PNum 1)); ("steps", Leaf (PNum 20))]);
   ("6", node "CLIPTextEncode" [("text", Leaf (PStr "positive"))]);
   ("7", node "CLIPTextEncode" [("text", Leaf (PStr "negative"))])].

(** A template with its nodes under [prompt], the same nodes with no
    [prompt] around them, as the backend's own format has them, and a
    template whose node "6" has no [inputs]. *)
Definition template : json := obj [("prompt", obj nodes)].

Definition flatTemplate : json := obj nodes.

Definition brokenTemplate : json :=
  obj [("prompt",
        obj [("6", obj [("class_type", Leaf (PStr "CLIPTextEncode"))])])].

Definition request : json :=
  obj [("prompt_text", Leaf (PStr "a red dress")); ("seed", Leaf (PNum 42))].

(** The store with a template and the request in it. *)
Definition loaded (template : json) : value * value * heap :=
  let '(workflow, h1) := parse template [] in
  let '(inputs, h2) := parse request h1 in
  (workflow, inputs, h2).

Definition workflowOf (template : json) : value := (loaded template).1.1.
Definition inputsOf (template : json) : value := (loaded template).1.2.
Definition storeOf (template : json) : heap := (loaded template).2.

Definition inject (template : json) (workflowName : string)
  : result value * state :=
  injectWorkflowParameters (workflowOf template) workflowName
    (inputsOf template) {| store := storeOf template; console := [] |}.

End InjectorScenario.

(** * The queue producer *)

Module Producer.

(** The options object handed to [queue.add]. *)
Module Options.
Record t : Type := {
  jobId : string;
  priority : Z
}.
End Options.

Section Producer.

(** [data.inputs] is of type [any]; the queue and the clock are
    collaborators, and [queue.add] resolves to a job handle or rejects. *)
Context {Inputs World Handle : Type}.

(** [interface ImageGenerationJobData] of the producer. *)
Record ImageGenerationJobData : Type := {
  workflow_name : string;
  inputs : Inputs;
  user_id : option string;
  timestamp : string;
  priority : option Z
}.

Variable date_now : World -> Z * World.
Variable queue_add :
  string -> ImageGenerationJobData -> Options.t -> World
  -> result Handle * World.

(** [`comfyui-${data.workflow_name}-${Date.now()}`] *)
Definition jobIdOf (workflow_name : string) (now : Z) : string :=
  "comfyui-" +:+ workflow_name +:+ "-" +:+ pretty now.

(** [addImageGenerationJob]; the two lines it logs are left out. *)
Definition addImageGenerationJob (data : ImageGenerationJobData) (w : World)
  : result Handle * World :=
  let '(now, w1) := date_now w in
  let jobOptions :=
    {| Options.jobId := jobIdOf (workflow_name data) now;
       Options.priority := Requeue.or_zero (priority data) |} in
  queue_add "generate-comfyui-image" data jobOptions w1.

(** [addHighPriorityJob]: [{ ...data, priority: 1 }]. *)
Definition addHighPriorityJob (data : ImageGenerationJobData) (w : World)
  : result Handle * World :=
  addImageGenerationJob
    {| workflow_name := workflow_name data; inputs := inputs data;
       user_id := user_id data; timestamp := timestamp data;
       priority := Some 1 |} w.

End Producer.

Arguments ImageGenerationJobData : clear implicits.

End Producer.

(** * The statistics of the failed set *)

Module RequeueStats.
Import JS Requeue.

(** [stats.byAge] *)
Record AgeStats : Type := {
  last_hour : nat;
  last_day : nat;
  last_week : nat;
  older : nat
}.

(** The object [getFailedJobsStats] returns. A [Record<string, number>]
    is the list of its properties. *)
Record FailedStats : Type := {
  total : nat;
  byReason : list (string * nat);
  byAge : AgeStats;
  byRequeueCount : list (string * nat)
}.

Definition oneHour : Z := 60 * 60 * 1000.
Definition oneDay : Z := 24 * oneHour.
Definition oneWeek : Z := 7 * oneDay.

(** [record[key] = (record[key] || 0) + 1] *)
Definition increment (key : string) (record : list (string * nat))
  : list (string * nat) :=
  assign_prop key
    (match lookup_prop key record with
     | Some n => n
     | None => 0%nat
     end + 1)%nat
    record.

(** The [if ... else if ...] on the age of a job. *)
Definition countAge (age : Z) (s : AgeStats) : AgeStats :=
  if age <? oneHour then
    {| last_hour := S (last_hour s); last_day := last_day s;
       last_week := last_week s; older := older s |}
  else if age <? oneDay then
    {| last_hour := last_hour s; last_day := S (last_day s);
       last_week := last_week s; older := older s |}
  else if age <? oneWeek then
    {| last_hour := last_hour s; last_day := last_day s;
       last_week := S (last_week s); older := older s |}
  else
    {| last_hour := last_hour s; last_day := last_day s;
       last_week := last_week s; older := S (older s) |}.

(** The names every object inherits: a read of one of them on an empty
    record does not give [undefined]. The record of reasons is used as
    the source uses it only for keys other than these. *)
Definition inheritedKeys : list string :=
  [ "constructor"; "__proto__"; "hasOwnProperty"; "isPrototypeOf";
    "propertyIsEnumerable"; "toLocaleString"; "toString"; "valueOf";
    "__defineGetter__"; "__defineSetter__"; "__lookupGetter__";
    "__lookupSetter__" ]%string.

Section Stats.

Context {Payload World : Type}.

(** [reason.substring(0, 50)], a builtin of the engine. *)
Variable substring50 : string -> string.

Variable date_now : World -> Z * World.
Variable getFailed : World -> result (list (Job Payload)) * World.

(** [job.failedReason || 'unknown'] *)
Definition reasonOf (job : Job Payload) : string :=
  match failedReason job with
  | Some r => if String.eqb r "" then "unknown"%string else r
  | None => "unknown"%string
  end.

Definition reasonKeyOf (job : Job Payload) : string :=
  substring50 (reasonOf job).

(** [requeueCount.toString()] *)
Definition requeueKeyOf (job : Job Payload) : string :=
  pretty (requeueCountOf job).

(** The body of [for (const job of failedJobs)]. *)
Definition countJob (now : Z) (stats : FailedStats) (job : Job Payload)
  : FailedStats :=
  {| total := total stats;
     byReason := increment (reasonKeyOf job) (byReason stats);
     byAge := countAge (now - Requeue.timestamp job) (byAge stats);
     byRequeueCount := increment (requeueKeyOf job) (byRequeueCount stats) |}.

Definition emptyStats (failedJobs : list (Job Payload)) : FailedStats :=
  {| total := length failedJobs;
     byReason := [];
     byAge := {| last_hour := 0; last_day := 0; last_week := 0; older := 0 |};
     byRequeueCount := [] |}.

(** [getFailedJobsStats]: [None] is the [null] of the [catch]. *)
Definition getFailedJobsStats (w : World) : option FailedStats * World :=
  match getFailed w with
  | (Throw _, w1) => (None, w1)
  | (Ok failedJobs, w1) =>
      let '(now, w2) := date_now w1 in
      (Some (fold_left (countJob now) failedJobs (emptyStats failedJobs)), w2)
  end.

(** The age of a job at [now], and the four ranges of it. *)
Definition ageOf (now : Z) (job : Job Payload) : Z :=
  now - Requeue.timestamp job.

Definition inLastHour (now : Z) (job : Job Payload) : bool :=
  ageOf now job <? oneHour.

Definition inLastDay (now : Z) (job : Job Payload) : bool :=
  (oneHour <=? ageOf now job) && (ageOf now job <? oneDay).

Definition inLastWeek (now : Z) (job : Job Payload) : bool :=
  (oneDay <=? ageOf now job) && (ageOf now job <? oneWeek).

Definition isOlder (now : Z) (job : Job Payload) : bool :=
  oneWeek <=? ageOf now job.

Definition countWhere (p : Job Payload -> bool) (jobs : list (Job Payload))
  : nat :=
  length (List.filter p jobs).

End Stats.

(** The sum of the counts of a record. *)
Definition sumOf (record : list (string * nat)) : nat :=
  fold_right (fun entry acc => (snd entry + acc)%nat) 0%nat record.

End RequeueStats.

(** ** Failed jobs to count *)

Module StatsScenario.
Import Requeue RequeueStats.

(** [reason.substring(0, 50)] for a reason in ASCII. *)
Definition ascii_substring50 (reason : string) : string :=
  String.substring 0 50 reason.

Definition hour : Z := 3600000.

Definition failedAt (id : string) (at_time : Z) (why : option string)
    (info : option RequeueInfo) : Job string :=
  {| id := id; name := "generate-comfyui-image";
     data := {| payload := "fashion-sketch"; requeue_info := info |};
     timestamp := at_time; failedReason := why |}.

(** Three failed jobs seen at the hour 200: one failed half an hour
    ago, one five hours ago after a resubmission, one ten days ago for
    no reason given. *)
Definition world : MemQueue.World := {|
  MemQueue.clock := 200 * hour;
  MemQueue.failedSet :=
    [ failedAt "a" (200 * hour - 1800000) (Some "ETIMEDOUT"%string) None;
      failedAt "requeue-b-1" (195 * hour) (Some "ETIMEDOUT"%string)
        (Some {| original_job_id := "b"; requeue_count := 1;
                 requeue_timestamp := 190 * hour;
                 original_failure_reason := Some "ETIMEDOUT"%string |});
      failedAt "c" (-40 * hour) None None ];
  MemQueue.waiting := [];
  MemQueue.add_faults := [];
  MemQueue.remove_faults := []
|}.

Definition run : option FailedStats * MemQueue.World :=
  getFailedJobsStats ascii_substring50 MemQueue.date_now MemQueue.getFailed
    world.

Definition stats : FailedStats :=
  match fst run with
  | Some stats => stats
  | None => emptyStats (Payload := string) []
  end.

End StatsScenario.

(** ** Failures of the worker, as the failed set shows them *)

Module RetryScenario.
Import JS Requeue Worker.

(** A job that failed an hour after it was added, never resubmitted,
    with the message of the error the worker threw. *)
Definition failedWith (e : exn) : Job string :=
  StatsScenario.failedAt "comfyui-fashion-sketch-0" 0 (Some (message e)) None.

Definition anHourLater : Z := 3600000.

(** A backend that refuses every workflow with the given status and
    body. *)
Definition refusing (status : Z) (body : string) (prompt : json) : submission :=
  SubmitNotOk status (Ok body).

(** A workflow with no [prompt] around its nodes. *)
Definition flatWorkflow : json := obj [("3", obj [])].

(** The data of a job for the workflow of the given name. *)
Definition jobFor (workflow_name : string) : ImageGenerationJobData unit :=
  {| workflow_name := workflow_name; inputs := tt; job_user_id := None |}.

(** A disk with no workflow file. *)
Definition noFile (path : string) : result string :=
  Throw (Error "ENOENT: no such file or directory").

End RetryScenario.

(** ** Documents and inputs of nodes *)

Module Documents.
Import JS Injector CopyTree.

(** The members of an array or object of a document that JSON text can
    hold: those of an array are its elements, under "0", "1", ... *)
Fixpoint isDocument (j : json) : bool :=
  match j with
  | Leaf PUndefined | Leaf PNaN => false
  | Leaf _ => true
  | Node a members =>
      (fix each (i : nat) (members : list (string * json)) : bool :=
         match members with
         | [] => true
         | (k, m) :: members' =>
             (if a then String.eqb k (pretty i) else true)
             && isDocument m && each (S i) members'
         end) 0%nat members
  end.

(** [t.prompt[nodeId].inputs[key]] on a tree. *)
Definition inputAt (nodeId key : string) (t : vtree) : result vtree :=
  descend t ["prompt"; nodeId; "inputs"; key].

(** [t.prompt[nodeId][field]] on a tree. *)
Definition fieldAt (nodeId field : string) (t : vtree) : result vtree :=
  descend t ["prompt"; nodeId; field].

(** The tree after some assignments into the inputs of nodes, each made
    as [t.prompt[nodeId].inputs[key] = x] with a key that is allowed. *)
Inductive assignSteps (allowed : string -> bool) : vtree -> vtree -> Prop :=
  | steps_done t : assignSteps allowed t t
  | steps_assign nodeId key x t t1 t2 :
      allowed key = true ->
      assignAtT nodeId key (Ok x) t = (Ok tt, t1) ->
      assignSteps allowed t1 t2 ->
      assignSteps allowed t t2.

(** The keys the function assigns. *)
Definition isText (key : string) : bool := String.eqb key "text".
Definition isSeed (key : string) : bool := String.eqb key "seed".
Definition isTextOrSeed (key : string) : bool := isText key || isSeed key.

(** An input that is not an object, in the store [h]. *)
Definition inputIsPrimitive (h : heap) (inputs : value) (k : string) : bool :=
  match heap_get h inputs k with
  | Ok (VRef _) => false
  | _ => true
  end.

End Documents.

(** ** Requests *)

Module SlotScenario.
Import JS Injector.

(** A request with a pattern and no seed. *)
Definition patternRequest : json :=
  obj [("pattern_type", Leaf (PStr "paisley")); ("seed", Leaf (PNum 0))].

(** The store with a template and a request in it. *)
Definition loaded (template request : json) : value * value * heap :=
  let '(workflow, h1) := parse template [] in
  let '(inputs, h2) := parse request h1 in
  (workflow, inputs, h2).

Definition workflowOf (template request : json) : value :=
  (loaded template request).1.1.
Definition inputsOf (template request : json) : value :=
  (loaded template request).1.2.
Definition storeOf (template request : json) : heap :=
  (loaded template request).2.

Definition inject (template request : json) (workflowName : string)
  : result value * state :=
  injectWorkflowParameters (workflowOf template request) workflowName
    (inputsOf template request)
    {| store := storeOf template request; console := [] |}.

End SlotScenario.
(** ** The order of what the worker does to the backend *)

Module WorkerTrace.
Import JS Worker.

(** A trace is orderly when it submits at most once and queries the
    status only after it has submitted. *)
Fixpoint orderlyFrom (submitted : bool) (events : list event) : bool :=
  match events with
  | [] => true
  | Submitted :: rest => negb submitted && orderlyFrom true rest
  | Fetched :: rest => submitted && orderlyFrom submitted rest
  | _ :: rest => orderlyFrom submitted rest
  end.

Definition orderly (events : list event) : bool := orderlyFrom false events.

(** The number of submissions in a trace. *)
Fixpoint submissions (events : list event) : nat :=
  match events with
  | [] => 0
  | Submitted :: rest => S (submissions rest)
  | _ :: rest => submissions rest
  end.

End WorkerTrace.

(** * Properties *)

(** ** The requeue classifier *)

Module RequeueFacts.
Import Requeue RequeueSpec.

Lemma or_zero_id (x : option Z) : or_zero x = from_option (fun n => n) 0 x.
Proof.
  destruct x as [n|]; simpl; [|reflexivity].
  destruct (Z.eqb_spec n 0); congruence.
Qed.

Lemma requeueCountOf_absent {Payload : Type} (job : Job Payload) :
  requeueCountOf job
  = match requeue_info (data job) with
    | Some info => requeue_count info
    | None => 0
    end.
Proof.
  unfold requeueCountOf. rewrite or_zero_id.
  destruct (requeue_info (data job)); reflexivity.
Qed.

Lemma failureReasonOf_text {Payload : Type} (job : Job Payload) :
  failureReasonOf job = reasonText job.
Proof.
  unfold failureReasonOf, reasonText.
  destruct (failedReason job) as [text|]; [|reflexivity].
  by destruct (String.eqb_spec text "").
Qed.

(** C1. The decision of [shouldRequeueJob] is the first matching line of
    the ordered table: too old, reject; retry budget used up, reject; a
    temporary pattern in the reason (case ignored), accept; a permanent
    pattern, reject; otherwise accept exactly when the job was never
    resubmitted. In particular a job older than [maxAge] is rejected
    whatever its reason text says. *)
Theorem shouldRequeueJob_decision_order :
  forall (Payload : Type) (toLowerCase : string -> string) (now : Z)
         (job : Job Payload) (options : RequeueOptions),
    requeue (shouldRequeueJob toLowerCase now job options)
    = accepted (firstMatch (decisionTable toLowerCase now options) job)
    /\ (ageExceeds now options job = true ->
        requeue (shouldRequeueJob toLowerCase now job options) = false).
Proof.
  intros Payload lower now job options.
  assert (Hreason : failureReasonOf job = reasonText job)
    by apply failureReasonOf_text.
  assert (Hcount : requeueCountOf job = priorCount job)
    by apply requeueCountOf_absent.
  unfold shouldRequeueJob, decisionTable, firstMatch, ageExceeds,
    retriesExhausted, gt_opt, ge_opt, matchesAny, containsIgnoringCase.
  rewrite Hreason, Hcount.
  change temporarySignals with temporaryErrors.
  change permanentSignals with permanentErrors.
  split.
  - destruct (maxAge options) as [m|];
      [destruct (m <? now - timestamp job); [reflexivity|]|];
      (destruct (maxRetries options) as [r|];
       [destruct (r <=? priorCount job); [reflexivity|]|]);
      (destruct (existsb _ temporaryErrors); [reflexivity|]);
      (destruct (existsb _ permanentErrors); [reflexivity|]);
      destruct (priorCount job =? 0); reflexivity.
  - destruct (maxAge options) as [m|]; [|discriminate].
    intros ->. reflexivity.
Qed.

(** The examples of the specification, under the default options: a
    timeout after one hour is accepted as a temporary error, ... *)
Example timeout_after_one_hour_is_requeued :
  shouldRequeueJob ascii_toLowerCase 3600000
    {| id := "j"; name := "generate-comfyui-image";
       data := {| payload := tt; requeue_info := None |};
       timestamp := 0;
       failedReason := Some "ETIMEDOUT while connecting"%string |}
    defaultOptions
  = {| requeue := true;
       reason := TemporaryError "ETIMEDOUT while connecting" |}.
Proof. vm_compute. reflexivity. Qed.

(** ... the same job is rejected once it is 25 hours old, ... *)
Example timeout_after_25_hours_is_rejected :
  shouldRequeueJob ascii_toLowerCase (25 * 3600000)
    {| id := "j"; name := "generate-comfyui-image";
       data := {| payload := tt; requeue_info := None |};
       timestamp := 0;
       failedReason := Some "ETIMEDOUT while connecting"%string |}
    defaultOptions
  = {| requeue := false; reason := TooOld 90000000 |}.
Proof. vm_compute. reflexivity. Qed.

(** ... and a missing workflow is a permanent error. *)
Example missing_workflow_is_rejected :
  shouldRequeueJob ascii_toLowerCase 3600000
    {| id := "j"; name := "generate-comfyui-image";
       data := {| payload := tt; requeue_info := None |};
       timestamp := 0;
       failedReason := Some "Workflow não encontrado: x"%string |}
    defaultOptions
  = {| requeue := false;
       reason := PermanentError "Workflow não encontrado: x" |}.
Proof. vm_compute. reflexivity. Qed.

Lemma decision_order_witness :
  ageExceeds (25 * 3600000) defaultOptions Scenario.job0 = true
  /\ requeue
       (shouldRequeueJob ascii_toLowerCase (25 * 3600000) Scenario.job0
          defaultOptions) = false.
Proof.
  split; [reflexivity|].
  apply (shouldRequeueJob_decision_order string ascii_toLowerCase
           (25 * 3600000) Scenario.job0 defaultOptions).
  reflexivity.
Defined.

(** *** The sweep *)

Section SweepFacts.

Context {Payload World : Type}.
Variable date_now : World -> Z * World.
Variable getFailed : World -> result (list (Job Payload)) * World.
Variable queue_add :
  string -> JobData Payload -> JobOptions -> World -> result unit * World.
Variable job_remove : Job Payload -> World -> result unit * World.
Variable evaluate :
  Job Payload -> RequeueOptions -> World -> result Decision * World.

Local Abbreviation sweepJob :=
  (sweepJob date_now queue_add job_remove evaluate).

Lemma sweepJob_counted opts st job : counted st (sweepJob opts st job).
Proof.
  unfold Requeue.sweepJob.
  destruct (evaluate job opts (world st)) as [[d|e] w1];
    [|by apply counted_skipped].
  destruct (requeue d); [|by apply counted_skipped].
  destruct (date_now w1) as [now1 w2], (date_now w2) as [now2 w3].
  destruct (queue_add _ _ _ w3) as [[[]|e] w4]; [|by apply counted_skipped].
  destruct (job_remove job w4) as [[[]|e] w5];
    [by apply counted_requeued | by apply counted_skipped].
Qed.

Lemma sweepJob_sum opts st job :
  (requeuedCount (sweepJob opts st job) + skippedCount (sweepJob opts st job)
   = S (requeuedCount st + skippedCount st))%nat.
Proof. destruct (sweepJob_counted opts st job) as [-> ->| -> ->]; lia. Qed.

Lemma sweep_fold_sum opts jobs st :
  let st' := fold_left (sweepJob opts) jobs st in
  (requeuedCount st' + skippedCount st'
   = length jobs + (requeuedCount st + skippedCount st))%nat.
Proof.
  revert st. induction jobs as [|job jobs IH]; intros st; simpl; [lia|].
  specialize (IH (sweepJob opts st job)). simpl in IH. rewrite IH.
  rewrite sweepJob_sum. lia.
Qed.

(** A turn counts the job as requeued only when the evaluation resolved
    to "requeue", the add succeeded and the removal succeeded; the
    payload that was added is the one [requeueJobData] builds. *)
Lemma sweepJob_requeued_inv opts st job :
  requeuedCount (sweepJob opts st job) = S (requeuedCount st) ->
  exists d w1 now1 w2 now2 w3 w4 w5,
    evaluate job opts (world st) = (Ok d, w1) /\ requeue d = true
    /\ date_now w1 = (now1, w2) /\ date_now w2 = (now2, w3)
    /\ queue_add (name job) (requeueJobData job now2)
         (newJobOptions job opts now1) w3 = (Ok tt, w4)
    /\ job_remove job w4 = (Ok tt, w5).
Proof.
  unfold Requeue.sweepJob.
  destruct (evaluate job opts (world st)) as [[d|e] w1] eqn:He;
    [|simpl; lia].
  destruct (requeue d) eqn:Hd; [|simpl; lia].
  destruct (date_now w1) as [now1 w2] eqn:H1.
  destruct (date_now w2) as [now2 w3] eqn:H2.
  destruct (queue_add _ _ _ w3) as [[[]|e] w4] eqn:Ha; [|simpl; lia].
  destruct (job_remove job w4) as [[[]|e] w5] eqn:Hr; [|simpl; lia].
  intros _. by exists d, w1, now1, w2, now2, w3, w4, w5.
Qed.

(** C10. Every job of the failed set is counted exactly once, as
    requeued or as skipped; a turn in which the evaluation, the add or
    the removal throws counts the job as skipped and the loop goes on;
    so when [getFailed] answers, the sweep returns statistics with
    [requeued + skipped = total], the number of failed jobs. *)
Theorem sweep_counts_each_job_once :
  forall (options : RequeueOptions) (w w1 : World)
         (failedJobs : list (Job Payload)),
    getFailed w = (Ok failedJobs, w1) ->
    (forall opts st job, counted st (sweepJob opts st job))
    /\ (forall opts st job,
          requeuedCount (sweepJob opts st job) = S (requeuedCount st) ->
          exists d w2 w3 w4 jobData jobOptions,
            evaluate job opts (world st) = (Ok d, w2) /\ requeue d = true
            /\ queue_add (name job) jobData jobOptions w3 = (Ok tt, w4)
            /\ fst (job_remove job w4) = Ok tt)
    /\ exists stats w',
         requeueFailedJobsWith date_now getFailed queue_add job_remove
           evaluate options w = (Ok stats, w')
         /\ total stats = length failedJobs
         /\ (requeued stats + skipped stats = total stats)%nat.
Proof.
  intros options w w1 failedJobs Hget. split; [|split].
  - apply sweepJob_counted.
  - intros opts st job H.
    destruct (sweepJob_requeued_inv opts st job H)
      as (d & v1 & now1 & v2 & now2 & v3 & v4 & v5 & He & Hd & _ & _ & Ha & Hr).
    exists d, v1, v3, v4, (requeueJobData job now2),
      (newJobOptions job opts now1).
    by rewrite Hr.
  - unfold requeueFailedJobsWith. rewrite Hget.
    eexists _, _. split; [reflexivity|]. simpl. split; [reflexivity|].
    rewrite sweep_fold_sum. simpl. lia.
Qed.

Local Abbreviation sweepJobRecorded :=
  (Recording.sweepJobRecorded date_now queue_add job_remove evaluate).

(** C3 (as amended). Each time the sweep resubmits a job, that is each
    time it calls [queue.add], the job it adds has the name and the
    payload of the failed job and a lineage block whose count is the
    prior count (0 when absent) plus one and whose origin identifier is
    the identifier of the failed job being resubmitted. A turn of the
    sweep makes at most one such call, makes one whenever the classifier
    accepts the job, whether or not the add and the removal that follow
    succeed, and counts the job as requeued only when the add
    succeeded. *)
Theorem resubmission_lineage :
  forall (opts : RequeueOptions)
         (st : SweepState (Recording.Recorded Payload World))
         (job : Job Payload),
  exists made : list (Recording.AddCall Payload),
    Recording.calls (world (sweepJobRecorded opts st job))
    = Recording.calls (world st) ++ made
    /\ (length made <= 1)%nat
    /\ (forall call, In call made ->
          carriesLineage job (Recording.added_name call)
            (Recording.added_data call)
          /\ exists w,
               Recording.added_outcome call
               = fst (queue_add (Recording.added_name call)
                        (Recording.added_data call)
                        (Recording.added_options call) w))
    /\ (forall d w1,
          evaluate job opts (fst (world st)) = (Ok d, w1) ->
          requeue d = true -> length made = 1%nat)
    /\ (requeuedCount (sweepJobRecorded opts st job) = S (requeuedCount st) ->
        exists call,
          made = [call] /\ Recording.added_outcome call = Ok tt).
Proof.
  intros opts st job.
  unfold Recording.sweepJobRecorded, Requeue.sweepJob, Recording.beside,
    Recording.recording, Recording.calls.
  destruct (evaluate job opts (fst (world st))) as [[d|e] w1] eqn:He.
  2:{ exists []. cbn. rewrite app_nil_r.
      repeat split; try done; try lia. }
  destruct (requeue d) eqn:Hd.
  2:{ exists []. cbn. rewrite app_nil_r.
      repeat split; try done; try lia. intros d' w' [= <- _]. congruence. }
  cbn [fst snd].
  destruct (date_now w1) as [now1 w2]. cbn [fst snd].
  destruct (date_now w2) as [now2 w3]. cbn [fst snd].
  destruct (queue_add (name job) (requeueJobData job now2)
              (newJobOptions job opts now1) w3) as [outcome w4] eqn:Ha.
  exists [{| Recording.added_name := name job;
             Recording.added_data := requeueJobData job now2;
             Recording.added_options := newJobOptions job opts now1;
             Recording.added_outcome := outcome |}].
  assert (Hlineage :
    carriesLineage job (name job) (requeueJobData job now2)).
  { split; [done|]. split; [done|]. eexists. split; [reflexivity|].
    cbn. by rewrite requeueCountOf_absent. }
  split.
  { destruct outcome as [[]|e]; cbn [fst snd world count_skipped];
      [|done].
    destruct (job_remove job w4) as [[[]|e] w5]; done. }
  split; [done|]. split.
  { intros call [<-|[]]. cbn. split; [done|]. exists w3. by rewrite Ha. }
  split; [done|].
  destruct outcome as [[]|e]; cbn [requeuedCount count_skipped]; [|lia].
  intros _. by eexists.
Qed.

End SweepFacts.

Lemma sweep_counts_witness :
  exists stats w',
    MemQueue.sweep Scenario.world0 = (Ok stats, w')
    /\ total stats = 1%nat
    /\ (requeued stats + skipped stats = total stats)%nat.
Proof.
  exact (proj2 (proj2
    (sweep_counts_each_job_once MemQueue.date_now MemQueue.getFailed
       MemQueue.queue_add MemQueue.job_remove
       (shouldRequeueJobAsync ascii_toLowerCase MemQueue.date_now)
       {| maxAge := None; maxRetries := None; priorityBoost := None;
          delayBeforeRequeue := None |}
       Scenario.world0 Scenario.world0 [Scenario.job0] eq_refl))).
Defined.

(** A sweep over three jobs in which one add and one removal are
    rejected: the two jobs are skipped, the sweep still returns. *)
Example sweep_survives_rejections :
  fst (MemQueue.sweep
         {| MemQueue.clock := 1000;
            MemQueue.failedSet :=
              [ Scenario.job0;
                {| id := "b"; name := "generate-comfyui-image";
                   data := {| payload := "x"%string; requeue_info := None |};
                   timestamp := 0; failedReason := Some "network down"%string |};
                {| id := "c"; name := "generate-comfyui-image";
                   data := {| payload := "y"%string; requeue_info := None |};
                   timestamp := 0; failedReason := Some "timeout"%string |} ];
            MemQueue.waiting := [];
            MemQueue.add_faults := ["requeue-b-1004"%string];
            MemQueue.remove_faults := ["c"%string] |})
  = Ok {| total := 3; requeued := 1; skipped := 2 |}.
Proof. vm_compute. reflexivity. Qed.

(** The queue refuses to remove the job of the scenario: the turn counts
    it as skipped, and the copy it has added carries the lineage. *)
Lemma resubmission_lineage_witness :
  exists call,
    Recording.calls
      (world
         (Recording.sweepJobRecorded MemQueue.date_now MemQueue.queue_add
            MemQueue.job_remove
            (shouldRequeueJobAsync ascii_toLowerCase MemQueue.date_now)
            defaultOptions
            {| requeuedCount := 0; skippedCount := 0;
               world := (Scenario.stuckWorld, []) |}
            Scenario.job0))
    = [call]
    /\ carriesLineage Scenario.job0 (Recording.added_name call)
         (Recording.added_data call)
    /\ requeuedCount
         (Recording.sweepJobRecorded MemQueue.date_now MemQueue.queue_add
            MemQueue.job_remove
            (shouldRequeueJobAsync ascii_toLowerCase MemQueue.date_now)
            defaultOptions
            {| requeuedCount := 0; skippedCount := 0;
               world := (Scenario.stuckWorld, []) |}
            Scenario.job0)
       = 0%nat.
Proof.
  destruct (resubmission_lineage MemQueue.date_now MemQueue.queue_add
              MemQueue.job_remove
              (shouldRequeueJobAsync ascii_toLowerCase MemQueue.date_now)
              defaultOptions
              {| requeuedCount := 0; skippedCount := 0;
                 world := (Scenario.stuckWorld, []) |}
              Scenario.job0)
    as (made & Hcalls & _ & Hlineage & Hmade & _).
  specialize (Hmade _ _ eq_refl eq_refl).
  destruct made as [|call [|another rest]]; [discriminate| |discriminate].
  exists call. split; [exact Hcalls|].
  split; [apply Hlineage; by left|reflexivity].
Defined.

(** C3 (counterexample). The job of the scenario is resubmitted twice.
    The first lineage block names the original job; the second names the
    first resubmission, not the original job: the origin identifier is
    set anew at every hop, while the count goes from 1 to 2. *)
Lemma origin_id_reset_on_second_hop :
  Scenario.lineage Scenario.world1
  = [ Some {| original_job_id := id Scenario.job0;
              requeue_count := 1;
              requeue_timestamp := 1002;
              original_failure_reason := failedReason Scenario.job0 |} ]
  /\ Scenario.lineage Scenario.world2
     = [ Some {| original_job_id := "requeue-comfyui-fashion-sketch-1-1001";
                 requeue_count := 2;
                 requeue_timestamp := 3002;
                 original_failure_reason := failedReason Scenario.job0 |} ]
  /\ ~ (forall info,
          In (Some info) (Scenario.lineage Scenario.world2) ->
          original_job_id info = id Scenario.job0).
Proof.
  split; [vm_compute; reflexivity|]. split; [vm_compute; reflexivity|].
  intros H.
  specialize (H {| original_job_id := "requeue-comfyui-fashion-sketch-1-1001";
                   requeue_count := 2;
                   requeue_timestamp := 3002;
                   original_failure_reason := failedReason Scenario.job0 |}).
  assert (Hin : In (Some {| original_job_id := "requeue-comfyui-fashion-sketch-1-1001";
                   requeue_count := 2;
                   requeue_timestamp := 3002;
                   original_failure_reason := failedReason Scenario.job0 |})
                   (Scenario.lineage Scenario.world2))
    by (vm_compute; left; reflexivity).
  specialize (H Hin). vm_compute in H. discriminate H.
Qed.

End RequeueFacts.

(** ** The completion poller *)

Module PollerFacts.
Import JS Worker PollerSpec.

(** The state of the loop after [i] iterations. *)
Local Abbreviation after i := {| attempts := i; queries := i |}.

Section Polling.

Variable backend : nat -> response.
Variable promptId : string.

Local Abbreviation check i := (checkHistory promptId i (backend i)).

(** Induction along the iterations of the loop: a property of the
    outcome and the trace that holds for each way an iteration can end
    holds for every run with enough fuel, and such a run returns. *)
Lemma pollLoop_run (P : nat -> result json -> list event -> Prop) :
  (forall i, (maxAttempts <= i)%nat -> P i (Throw timeoutError) []) ->
  (forall i outputs, (i < maxAttempts)%nat -> check i = Completed outputs ->
     P i (Ok outputs) [Fetched]) ->
  (forall i reported r later, (i < maxAttempts)%nat ->
     check i = Pending reported -> P (S i) r later ->
     P i r (Fetched :: reported_events reported ++ Slept 5000 :: later)) ->
  (forall i e, (i < maxAttempts)%nat -> check i = Raised e ->
     (maxAttempts <= S i)%nat -> P i (Throw e) [Fetched]) ->
  (forall i e r later, (i < maxAttempts)%nat -> check i = Raised e ->
     (S i < maxAttempts)%nat -> P (S i) r later ->
     P i r (Fetched :: Slept 5000 :: later)) ->
  forall fuel i, (maxAttempts - i < fuel)%nat ->
    exists r events,
      pollLoop fuel backend promptId (after i) = Some (r, events)
      /\ P i r events.
Proof.
  intros Htimeout Hdone Hpending Hlast Hretry.
  induction fuel as [|fuel IH]; intros i Hfuel; [lia|].
  cbn [pollLoop attempts queries].
  destruct (Nat.ltb_spec i maxAttempts) as [Hlt|Hge].
  - destruct (check i) as [outputs|e|reported] eqn:Hcheck.
    + eexists _, _. split; [reflexivity|]. by apply Hdone.
    + destruct (Nat.leb_spec maxAttempts (S i)) as [Hend|Hmore].
      * eexists _, _. split; [reflexivity|]. by apply Hlast.
      * destruct (IH (S i)) as (r & later & -> & HP); [lia|].
        eexists _, _. split; [reflexivity|]. by eapply Hretry.
    + destruct (IH (S i)) as (r & later & -> & HP); [lia|].
      eexists _, _. split; [reflexivity|]. by eapply Hpending.
  - eexists _, _. split; [reflexivity|]. by apply Htimeout.
Qed.

Lemma queriesMade_reported reported later :
  queriesMade (reported_events reported ++ Slept 5000 :: later)
  = queriesMade later.
Proof. by destruct reported. Qed.

Lemma pacedFrom_reported reported later :
  pacedFrom true (reported_events reported ++ Slept 5000 :: later)
  = pacedFrom false later.
Proof. by destruct reported. Qed.

Lemma increasingFrom_weaken i j indices :
  (i <= j)%nat -> increasingFrom j indices -> increasingFrom i indices.
Proof. destruct indices as [|a rest]; simpl; [done|]. intros ? [? ?]. split; [lia|done]. Qed.

Lemma pollLoop_total fuel i :
  (maxAttempts - i < fuel)%nat ->
  exists r events, pollLoop fuel backend promptId (after i) = Some (r, events).
Proof.
  intros Hfuel.
  destruct (pollLoop_run (fun _ _ _ => True)) with (fuel := fuel) (i := i)
    as (r & events & H & _); eauto.
Qed.

(** The same induction, for a run that is given. *)
Lemma pollLoop_given (P : nat -> result json -> list event -> Prop) :
  (forall i, (maxAttempts <= i)%nat -> P i (Throw timeoutError) []) ->
  (forall i outputs, (i < maxAttempts)%nat -> check i = Completed outputs ->
     P i (Ok outputs) [Fetched]) ->
  (forall i reported r later, (i < maxAttempts)%nat ->
     check i = Pending reported -> P (S i) r later ->
     P i r (Fetched :: reported_events reported ++ Slept 5000 :: later)) ->
  (forall i e, (i < maxAttempts)%nat -> check i = Raised e ->
     (maxAttempts <= S i)%nat -> P i (Throw e) [Fetched]) ->
  (forall i e r later, (i < maxAttempts)%nat -> check i = Raised e ->
     (S i < maxAttempts)%nat -> P (S i) r later ->
     P i r (Fetched :: Slept 5000 :: later)) ->
  forall fuel i r events, (maxAttempts - i < fuel)%nat ->
    pollLoop fuel backend promptId (after i) = Some (r, events) ->
    P i r events.
Proof.
  intros H1 H2 H3 H4 H5 fuel i r events Hfuel Hrun.
  destruct (pollLoop_run P H1 H2 H3 H4 H5 fuel i Hfuel) as (r' & ev' & Hrun' & HP).
  congruence.
Qed.

Lemma pollLoop_queries fuel i r events :
  (maxAttempts - i < fuel)%nat ->
  pollLoop fuel backend promptId (after i) = Some (r, events) ->
  (queriesMade events <= maxAttempts - i)%nat
  /\ ((i < maxAttempts)%nat -> (1 <= queriesMade events)%nat).
Proof.
  revert fuel i r events.
  apply (pollLoop_given (fun i _ events =>
    (queriesMade events <= maxAttempts - i)%nat
    /\ ((i < maxAttempts)%nat -> (1 <= queriesMade events)%nat))).
  - intros i Hi. simpl. lia.
  - intros i o Hi _. simpl. lia.
  - intros i rep r later Hi _ [IH _]. cbn [queriesMade].
    rewrite queriesMade_reported. lia.
  - intros i e Hi _ _. simpl. lia.
  - intros i e r later Hi _ _ [IH _]. simpl. lia.
Qed.

Lemma pollLoop_paced fuel i r events :
  (maxAttempts - i < fuel)%nat ->
  pollLoop fuel backend promptId (after i) = Some (r, events) ->
  paced events = true.
Proof.
  revert fuel i r events. unfold paced.
  apply (pollLoop_given (fun _ _ events => pacedFrom false events = true)).
  - reflexivity.
  - reflexivity.
  - intros i rep r later _ _ IH. cbn [pacedFrom negb andb].
    by rewrite pacedFrom_reported.
  - reflexivity.
  - intros i e r later _ _ _ IH. exact IH.
Qed.

(** The first answer that reports completion ends the run with its
    outputs. *)
Lemma pollLoop_completed fuel i r events :
  (maxAttempts - i < fuel)%nat ->
  pollLoop fuel backend promptId (after i) = Some (r, events) ->
  forall k outputs,
    (i <= k < maxAttempts)%nat ->
    check k = Completed outputs ->
    (forall j, (i <= j < k)%nat -> forall o, check j <> Completed o) ->
    r = Ok outputs /\ queriesMade events = S (k - i).
Proof.
  revert fuel i r events.
  apply (pollLoop_given (fun i r events =>
    forall k outputs,
      (i <= k < maxAttempts)%nat ->
      check k = Completed outputs ->
      (forall j, (i <= j < k)%nat -> forall o, check j <> Completed o) ->
      r = Ok outputs /\ queriesMade events = S (k - i))).
  - intros i Hi k o Hk. lia.
  - intros i o Hi Hc k o' Hk Hko Hbefore.
    destruct (decide (k = i)) as [->|Hne].
    + rewrite Hc in Hko. injection Hko as ->. split; [done|]. simpl. lia.
    + exfalso. apply (Hbefore i ltac:(lia) o). exact Hc.
  - intros i rep r later Hi Hc IH k o Hk Hko Hbefore.
    destruct (decide (k = i)) as [->|Hne]; [congruence|].
    destruct (IH k o) as [-> Hq]; [lia|done| |].
    + intros j Hj. apply Hbefore. lia.
    + split; [done|]. cbn [queriesMade]. rewrite queriesMade_reported. lia.
  - intros i e Hi Hc Hend k o Hk Hko _.
    assert (k = i) as -> by lia. congruence.
  - intros i e r later Hi Hc Hmore IH k o Hk Hko Hbefore.
    destruct (decide (k = i)) as [->|Hne]; [congruence|].
    destruct (IH k o) as [-> Hq]; [lia|done| |].
    + intros j Hj. apply Hbefore. lia.
    + split; [done|]. simpl. lia.
Qed.

(** A run in which every answer is "still running" or "no entry yet"
    ends in the timeout, after all its queries. *)
Lemma pollLoop_timeout fuel i r events :
  (maxAttempts - i < fuel)%nat ->
  pollLoop fuel backend promptId (after i) = Some (r, events) ->
  (forall j, (i <= j < maxAttempts)%nat ->
     exists reported, check j = Pending reported) ->
  r = Throw timeoutError /\ queriesMade events = (maxAttempts - i)%nat.
Proof.
  revert fuel i r events.
  apply (pollLoop_given (fun i r events =>
    (forall j, (i <= j < maxAttempts)%nat ->
       exists reported, check j = Pending reported) ->
    r = Throw timeoutError /\ queriesMade events = (maxAttempts - i)%nat)).
  - intros i Hi _. split; [done|]. simpl. lia.
  - intros i o Hi Hc Hall. destruct (Hall i ltac:(lia)) as [rep Hrep]. congruence.
  - intros i rep r later Hi Hc IH Hall.
    destruct IH as [-> Hq]; [intros j Hj; apply Hall; lia|].
    split; [done|]. cbn [queriesMade]. rewrite queriesMade_reported. lia.
  - intros i e Hi Hc _ Hall. destruct (Hall i ltac:(lia)) as [rep Hrep]. congruence.
  - intros i e r later Hi Hc _ _ Hall.
    destruct (Hall i ltac:(lia)) as [rep Hrep]. congruence.
Qed.

Lemma checkHistory_reported i r p :
  checkHistory promptId i r = Pending (Some p) -> p = clampedProgress i.
Proof.
  unfold checkHistory, raising, clampedProgress.
  repeat (match goal with
          | |- context [match ?x with _ => _ end] => destruct x
          end; try discriminate); congruence.
Qed.

(** *** The answers, as the specification words them *)

Lemma is_string_other (v : json) (s : string) :
  v <> Leaf (PStr s) -> is_string v s = false.
Proof.
  destruct v as [[| | | | |s']|]; try done. simpl.
  destruct (String.eqb_spec s' s) as [->|]; done.
Qed.

Lemma checkHistory_completed i r outputs :
  checkHistory promptId i r = Completed outputs
  <-> reportsCompleted promptId r outputs.
Proof.
  split.
  - unfold checkHistory, raising, and_get.
    destruct r as [e|status|e|history]; try discriminate.
    destruct (get history promptId) as [entry|e] eqn:Hentry;
      [|discriminate].
    destruct (truthy entry) eqn:Htruthy; [|discriminate].
    destruct (get entry "status") as [status|e] eqn:Hstatus; [|discriminate].
    destruct (truthy status) eqn:Hstatus_truthy; cbn [bind].
    + destruct (get status "completed") as [completed|e] eqn:Hcompleted;
        cbn [bind]; [|discriminate].
      destruct (truthy completed) eqn:Hcompleted_truthy.
      * destruct (get entry "outputs") as [o|e] eqn:Houtputs;
          [|discriminate].
        intros [= <-]. by exists history, entry, status, completed.
      * destruct (get status "status_str") as [status_str|e]; cbn [bind];
          [|discriminate].
        destruct (is_string status_str "error"); [|discriminate].
        destruct (get status "messages"); discriminate.
    + discriminate.
  - intros (history & entry & status & completed & -> & Hentry & Htruthy
            & Hstatus & Hstatus_truthy & Hcompleted & Hcompleted_truthy
            & Houtputs).
    unfold checkHistory, raising, and_get.
    rewrite Hentry, Htruthy, Hstatus, Hstatus_truthy, Hcompleted.
    cbn [bind]. by rewrite Hcompleted_truthy, Houtputs.
Qed.

Lemma checkHistory_running i r :
  reportsRunning promptId r ->
  checkHistory promptId i r = Pending (Some (interpolatedProgress i)).
Proof.
  intros (history & entry & status & -> & Hentry & Htruthy & Hstatus & Hrest).
  unfold checkHistory, raising, and_get.
  rewrite Hentry, Htruthy, Hstatus.
  destruct Hrest as [Hfalsy|(completed & status_str & Hcompleted & Hnot
                             & Hstr & Hother)].
  - by rewrite Hfalsy.
  - destruct (truthy status); [|done].
    rewrite Hcompleted, Hstr. cbn [bind]. rewrite Hnot.
    by rewrite (is_string_other _ _ Hother).
Qed.

Lemma checkHistory_nothing i r :
  reportsNothing promptId r -> checkHistory promptId i r = Pending None.
Proof.
  intros (history & entry & -> & Hentry & Hfalsy).
  unfold checkHistory, raising. by rewrite Hentry, Hfalsy.
Qed.

Lemma reportsFrom_reported i reported later :
  reportsFrom (S i) (reported_events reported ++ Slept 5000 :: later)
  = match reported with
    | Some p => (i, p) :: reportsFrom (S i) later
    | None => reportsFrom (S i) later
    end.
Proof. by destruct reported. Qed.

(** Every report of a run is the interpolated progress of the attempt it
    was made in, and an attempt reached over answers that all say
    "still running" makes its report. *)
Lemma pollLoop_reports fuel i r events :
  (maxAttempts - i < fuel)%nat ->
  pollLoop fuel backend promptId (after i) = Some (r, events) ->
  (forall attempt p, In (attempt, p) (reportsFrom i events) ->
     (i <= attempt < maxAttempts)%nat /\ p = interpolatedProgress attempt)
  /\ (forall k, (i <= k < maxAttempts)%nat ->
        (forall j, (i <= j <= k)%nat -> reportsRunning promptId (backend j)) ->
        In (k, interpolatedProgress k) (reportsFrom i events)).
Proof.
  revert fuel i r events.
  apply (pollLoop_given (fun i _ events =>
    (forall attempt p, In (attempt, p) (reportsFrom i events) ->
       (i <= attempt < maxAttempts)%nat /\ p = interpolatedProgress attempt)
    /\ (forall k, (i <= k < maxAttempts)%nat ->
          (forall j, (i <= j <= k)%nat ->
             reportsRunning promptId (backend j)) ->
          In (k, interpolatedProgress k) (reportsFrom i events)))).
  - intros i Hi. split; [done|]. intros k Hk. lia.
  - intros i outputs Hi Hc. split; [done|]. intros k Hk Hall.
    rewrite (checkHistory_running i _ (Hall i ltac:(lia))) in Hc. done.
  - intros i reported r later Hi Hc [IH1 IH2].
    cbn [reportsFrom]. rewrite reportsFrom_reported. split.
    + intros attempt p Hin.
      destruct reported as [q|].
      * destruct Hin as [[= <- <-]|Hin].
        -- split; [lia|]. by apply checkHistory_reported in Hc.
        -- destruct (IH1 _ _ Hin). split; [lia|done].
      * destruct (IH1 _ _ Hin). split; [lia|done].
    + intros k Hk Hall.
      destruct (decide (k = i)) as [->|Hne].
      * rewrite (checkHistory_running i _ (Hall i ltac:(lia))) in Hc.
        injection Hc as <-. by left.
      * assert (Hin : In (k, interpolatedProgress k) (reportsFrom (S i) later)).
        { apply IH2; [lia|]. intros j Hj. apply Hall. lia. }
        destruct reported; [by right|done].
  - intros i e Hi Hc Hend. split; [done|]. intros k Hk Hall.
    rewrite (checkHistory_running i _ (Hall i ltac:(lia))) in Hc. done.
  - intros i e r later Hi Hc Hmore [IH1 IH2]. cbn [reportsFrom]. split.
    + intros attempt p Hin. destruct (IH1 _ _ Hin). split; [lia|done].
    + intros k Hk Hall.
      rewrite (checkHistory_running i _ (Hall i ltac:(lia))) in Hc. done.
Qed.

(** The progress values of a run are those of increasing attempts. *)
Lemma pollLoop_progress fuel i r events :
  (maxAttempts - i < fuel)%nat ->
  pollLoop fuel backend promptId (after i) = Some (r, events) ->
  exists indices,
    increasingFrom i indices
    /\ progressValues events = map clampedProgress indices.
Proof.
  revert fuel i r events.
  apply (pollLoop_given (fun i _ events =>
    exists indices,
      increasingFrom i indices
      /\ progressValues events = map clampedProgress indices)).
  - intros i Hi. by exists [].
  - intros i o Hi Hc. by exists [].
  - intros i rep r later Hi Hc (idx & Hidx & Hprog).
    destruct rep as [p|]; simpl.
    + apply checkHistory_reported in Hc as ->.
      exists (i :: idx). simpl. split; [split; [lia|done]|].
      by rewrite Hprog.
    + exists idx. split; [|done].
      eapply increasingFrom_weaken; [|exact Hidx]. lia.
  - intros i e Hi Hc Hend. by exists [].
  - intros i e r later Hi Hc Hmore (idx & Hidx & Hprog).
    exists idx. split; [|done].
    eapply increasingFrom_weaken; [|exact Hidx]. lia.
Qed.

(** *** The progress values, computed *)

(** The 120 progress values of a polling loop, in double precision, lie
    between 50 and 89 and never go down. Both facts are checked by
    computing the values. *)
Lemma clampedProgress_bounds_checked :
  forallb
    (fun a =>
       PrimFloat.leb 50 (clampedProgress a)
       && PrimFloat.leb (clampedProgress a) 89
       && PrimFloat.ltb (clampedProgress a) 90
       && PrimFloat.leb (clampedProgress a) 90)
    (seq 0 maxAttempts) = true.
Proof. vm_compute. reflexivity. Qed.

Lemma clampedProgress_monotone_checked :
  forallb
    (fun a =>
       forallb
         (fun b => PrimFloat.leb (clampedProgress a) (clampedProgress b))
         (seq a (maxAttempts - a)))
    (seq 0 maxAttempts) = true.
Proof. vm_compute. reflexivity. Qed.

Lemma clampedProgress_bounds a :
  (a < maxAttempts)%nat ->
  PrimFloat.leb 50 (clampedProgress a) = true
  /\ PrimFloat.leb (clampedProgress a) 89 = true
  /\ PrimFloat.ltb (clampedProgress a) 90 = true
  /\ PrimFloat.leb (clampedProgress a) 90 = true.
Proof.
  intros Ha.
  assert (Hin : In a (seq 0 maxAttempts)) by (apply in_seq; lia).
  pose proof (proj1 (forallb_forall _ _) clampedProgress_bounds_checked a Hin)
    as H.
  cbv beta in H. rewrite !andb_true_iff in H.
  destruct H as [[[H1 H2] H3] H4]. done.
Qed.

Lemma clampedProgress_monotone a b :
  (a <= b < maxAttempts)%nat ->
  PrimFloat.leb (clampedProgress a) (clampedProgress b) = true.
Proof.
  intros Hab.
  assert (Hin : In a (seq 0 maxAttempts)) by (apply in_seq; lia).
  pose proof (proj1 (forallb_forall _ _) clampedProgress_monotone_checked a Hin)
    as H.
  cbv beta in H.
  apply (proj1 (forallb_forall _ _) H b). apply in_seq. lia.
Qed.

(** A list that starts at [x], goes through the progress values of
    increasing attempts and ends with the values the worker reports
    after the polling never goes down, when [x] is below them all. *)
Lemma nondecreasing_through_polling (after_polling : list float) :
  after_polling = [] \/ after_polling = [90%float]
  \/ after_polling = [90%float; 100%float] ->
  forall indices i x,
    increasingFrom i indices ->
    (forall a, (i <= a < maxAttempts)%nat ->
       PrimFloat.leb x (clampedProgress a) = true) ->
    PrimFloat.leb x 90 = true ->
    nondecreasing (x :: map clampedProgress indices ++ after_polling).
Proof.
  intros Hafter. induction indices as [|a rest IH]; intros i x Hinc Hx Hx90.
  - destruct Hafter as [->|[->| ->]]; simpl; repeat split; done.
  - destruct Hinc as [Ha Hrest]. cbn [map app nondecreasing].
    split; [by apply Hx|]. apply (IH (S a)); [done| |].
    + intros b Hb. apply clampedProgress_monotone. lia.
    + apply clampedProgress_bounds. lia.
Qed.

Lemma progressValues_app e1 e2 :
  progressValues (e1 ++ e2) = progressValues e1 ++ progressValues e2.
Proof. unfold progressValues. apply flat_map_app. Qed.

End Polling.

(** C4. The poller makes at most 120 status queries, five seconds
    apart, and always comes to an end: the first answer that reports
    the prompt completed, at the 120th query at the latest, makes it
    return the outputs of that answer; when each of the 120 answers
    says that the prompt is still running, or has no entry for it, the
    poller throws the timeout error. *)
Theorem poller_bounded_and_terminating :
  forall (backend : nat -> response) (promptId : string),
  exists r events,
    waitForComfyUICompletion backend promptId = Some (r, events)
    /\ (queriesMade events <= 120)%nat
    /\ paced events = true
    /\ (forall k outputs, (k < 120)%nat ->
          reportsCompleted promptId (backend k) outputs ->
          (forall j, (j < k)%nat ->
             forall o, ~ reportsCompleted promptId (backend j) o) ->
          r = Ok outputs /\ queriesMade events = S k)
    /\ ((forall j, (j < 120)%nat ->
           reportsRunning promptId (backend j)
           \/ reportsNothing promptId (backend j)) ->
        r = Throw (Error timeoutMessage) /\ queriesMade events = 120%nat).
Proof.
  intros backend promptId. unfold waitForComfyUICompletion.
  assert (Hfuel : (maxAttempts - 0 < S maxAttempts)%nat) by (unfold maxAttempts; lia).
  destruct (pollLoop_total backend promptId _ _ Hfuel) as (r & events & Hrun).
  exists r, events. split; [exact Hrun|].
  split; [|split; [|split]].
  - apply (pollLoop_queries _ _ _ _ _ _ Hfuel Hrun).
  - apply (pollLoop_paced _ _ _ _ _ _ Hfuel Hrun).
  - intros k outputs Hk Hdone Hbefore.
    destruct (pollLoop_completed _ _ _ _ _ _ Hfuel Hrun k outputs)
      as [-> ->]; [unfold maxAttempts; lia| | |].
    + by apply checkHistory_completed.
    + intros j Hj o Hc. apply (Hbefore j ltac:(lia) o).
      by apply (checkHistory_completed promptId j).
    + split; [done|]. f_equal. lia.
  - intros Hall.
    apply (pollLoop_timeout _ _ _ _ _ _ Hfuel Hrun).
    intros j Hj.
    destruct (Hall j ltac:(unfold maxAttempts in Hj; lia)) as [Hr|Hn].
    + eexists. by apply checkHistory_running.
    + eexists. by apply checkHistory_nothing.
Qed.

(** Still running for 119 queries and completed at the 120th: the
    poller returns the outputs after exactly 120 queries. *)
Lemma poller_returns_at_the_last_query :
  exists events,
    waitForComfyUICompletion
      (fun i => historyOf "p1"
                  (if (i <? 119)%nat then stillRunning
                   else completedWith (obj [("9", obj [])])))
      "p1"
    = Some (Ok (obj [("9", obj [])]), events)
    /\ queriesMade events = 120%nat.
Proof.
  destruct (poller_bounded_and_terminating
              (fun i => historyOf "p1"
                          (if (i <? 119)%nat then stillRunning
                           else completedWith (obj [("9", obj [])])))
              "p1")
    as (r & events & Hrun & _ & _ & Hcompleted & _).
  destruct (Hcompleted 119%nat (obj [("9", obj [])])) as [-> Hqueries].
  - lia.
  - eexists _, _, _, _. repeat split; reflexivity.
  - intros j Hj o (history & entry & status & completed & Hbody & Hentry & _
                   & Hstatus & _ & Hcompleted' & Htruthy & _).
    apply Nat.ltb_lt in Hj. rewrite Hj in Hbody.
    injection Hbody as <-. vm_compute in Hentry. injection Hentry as <-.
    vm_compute in Hstatus. injection Hstatus as <-.
    vm_compute in Hcompleted'. injection Hcompleted' as <-.
    discriminate Htruthy.
  - exists events. split; [exact Hrun|exact Hqueries].
Defined.

(** Still running for 119 queries, completed at the 120th: the outputs
    come back after exactly 120 queries. *)
Example completed_at_the_last_query :
  let backend i :=
    historyOf "p1"
      (if (i <? 119)%nat then stillRunning
       else completedWith (obj [("9", obj [])])) in
  exists events,
    waitForComfyUICompletion backend "p1"
    = Some (Ok (obj [("9", obj [])]), events)
    /\ queriesMade events = 120%nat.
Proof. eexists. split; [vm_compute; reflexivity|]. vm_compute. reflexivity. Qed.

(** Never completed: the timeout, after exactly 120 queries. *)
Example never_completed_times_out :
  exists events,
    waitForComfyUICompletion (fun _ => historyOf "p1" stillRunning) "p1"
    = Some (Throw timeoutError, events)
    /\ queriesMade events = 120%nat.
Proof. eexists. split; [vm_compute; reflexivity|]. vm_compute. reflexivity. Qed.

(** C2 (the code at the failing input). The backend reports an explicit
    error status at every query. The error raised for it is caught by
    the [catch] of the loop, which counts the attempt and polls again:
    the job only fails after all 120 queries. *)
Lemma error_status_is_polled_again :
  exists events,
    waitForComfyUICompletion (fun _ => historyOf "p1" (failedWith "boom")) "p1"
    = Some (Throw (Error "ComfyUI Error: boom"), events)
    /\ queriesMade events = 120%nat.
Proof. eexists. split; [vm_compute; reflexivity|]. vm_compute. reflexivity. Qed.

(** An error status at the first query and completion at the second:
    the job does not fail at all. *)
Lemma error_status_then_completed_returns :
  waitForComfyUICompletion
    (fun i => historyOf "p1"
                (if (i <? 1)%nat then failedWith "boom"
                 else completedWith (obj [])))
    "p1"
  = Some (Ok (obj []), [Fetched; Slept 5000; Fetched]).
Proof. vm_compute. reflexivity. Qed.

Lemma waitForComfyUICompletion_progress backend promptId :
  exists r events indices,
    waitForComfyUICompletion backend promptId = Some (r, events)
    /\ increasingFrom 0 indices
    /\ progressValues events = map clampedProgress indices.
Proof.
  unfold waitForComfyUICompletion.
  assert (Hfuel : (maxAttempts - 0 < S maxAttempts)%nat) by (unfold maxAttempts; lia).
  destruct (pollLoop_total backend promptId _ _ Hfuel) as (r & events & Hrun).
  destruct (pollLoop_progress _ _ _ _ _ _ Hfuel Hrun) as (idx & Hidx & Hprog).
  by exists r, events, idx.
Qed.

Lemma increasingFrom_In i indices a :
  increasingFrom i indices -> In a indices -> (i <= a < maxAttempts)%nat.
Proof.
  revert i. induction indices as [|b rest IH]; intros i; simpl; [done|].
  intros [Hb Hrest] [->|Hin]; [lia|].
  specialize (IH _ Hrest Hin). lia.
Qed.

Lemma reports_of_values (events : list event) (queries : nat) (p : float) :
  In p (progressValues events) ->
  exists attempt, In (attempt, p) (reportsFrom queries events).
Proof.
  revert queries. induction events as [|e events IH]; intros queries; [done|].
  destruct e as [| |q|ms]; cbn [progressValues flat_map reportsFrom app].
  - apply IH.
  - apply IH.
  - intros [<-|Hin]; [eexists; by left|].
    destruct (IH queries Hin) as [attempt Hattempt].
    exists attempt. by right.
  - apply IH.
Qed.

(** C6. The worker always ends; the progress values it reports never go
    down, and end at 100 when it succeeds. Every value reported while
    polling is [50 + (attempt / maxAttempts) * 40] cut at 89, for an
    attempt below 120, and lies in the interval from 50 to below 90. *)
Theorem progress_never_goes_down :
  (forall (Inputs : Type)
          (readFile : string -> result string)
          (JSON_parse : string -> result json)
          (injectWorkflowParameters : json -> string -> Inputs -> result json)
          (postPrompt : json -> submission)
          (history : string -> nat -> response) (now : Z)
          (data : ImageGenerationJobData Inputs),
     exists r events,
       imageGenerationWorker readFile JSON_parse injectWorkflowParameters
         postPrompt history now data = Some (r, events)
       /\ nondecreasing (progressValues events)
       /\ (forall done, r = Ok done ->
           last (progressValues events) = Some 100%float))
  /\ (forall (backend : nat -> response) (promptId : string),
      exists r events,
        waitForComfyUICompletion backend promptId = Some (r, events)
        /\ (forall attempt p, In (attempt, p) (pollingReports events) ->
              (attempt < 120)%nat
              /\ p = interpolatedProgress attempt
              /\ PrimFloat.leb 50 p = true
              /\ PrimFloat.ltb p 90 = true)
        /\ (forall p, In p (progressValues events) ->
              exists attempt, In (attempt, p) (pollingReports events))
        /\ (forall k, (k < 120)%nat ->
              (forall j, (j <= k)%nat ->
                 reportsRunning promptId (backend j)) ->
              In (k, interpolatedProgress k) (pollingReports events))).
Proof.
  split.
  - intros Inputs readFile JSON_parse inject postPrompt history now data.
    unfold imageGenerationWorker.
    destruct (readFile _) as [text|e];
      [|eexists _, _; split; [reflexivity|]; simpl; split; [done|discriminate]].
    destruct (JSON_parse _) as [workflow|e];
      [|eexists _, _; split; [reflexivity|]; simpl; split; [done|discriminate]].
    destruct (inject _ _ _) as [workflow'|e];
      [|eexists _, _; split; [reflexivity|]; simpl; split; [done|discriminate]].
    destruct (submitWorkflow _ _) as [promptId|e];
      [|eexists _, _; split; [reflexivity|]; simpl; split; [done|discriminate]].
    destruct (waitForComfyUICompletion_progress
                (history (to_string promptId)) (to_string promptId))
      as (r & polled & idx & -> & Hidx & Hprog).
    assert (Hsorted : forall after_polling,
              after_polling = [] \/ after_polling = [90%float]
              \/ after_polling = [90%float; 100%float] ->
              nondecreasing
                (10%float :: 20%float :: 30%float :: 50%float
                   :: map clampedProgress idx ++ after_polling)).
    { intros tail Htail. cbn [nondecreasing]. repeat (split; [reflexivity|]).
      apply (nondecreasing_through_polling tail Htail idx 0%nat); [done| |done].
      intros a Ha. apply clampedProgress_bounds. lia. }
    destruct r as [outputs|e].
    + destruct (processComfyUIOutputs _ _ _ _) as [processed|e].
      * eexists _, _. split; [reflexivity|].
        rewrite !progressValues_app, Hprog. split.
        -- cbn [progressValues flat_map app].
           rewrite <- app_assoc. apply Hsorted. auto.
        -- intros _ _. apply last_snoc.
      * eexists _, _. split; [reflexivity|].
        rewrite !progressValues_app, Hprog. cbn [progressValues flat_map app].
        split; [|discriminate]. apply Hsorted. auto.
    + eexists _, _. split; [reflexivity|].
      rewrite !progressValues_app, Hprog. cbn [progressValues flat_map app].
      split; [|discriminate].
      specialize (Hsorted [] ltac:(auto)). by rewrite app_nil_r in Hsorted.
  - intros backend promptId. unfold waitForComfyUICompletion, pollingReports.
    assert (Hfuel : (maxAttempts - 0 < S maxAttempts)%nat)
      by (unfold maxAttempts; lia).
    destruct (pollLoop_total backend promptId _ _ Hfuel)
      as (r & events & Hrun).
    destruct (pollLoop_reports _ _ _ _ _ _ Hfuel Hrun) as [Hall Hmade].
    exists r, events. split; [exact Hrun|]. split; [|split].
    + intros attempt p Hin. destruct (Hall _ _ Hin) as [Hattempt ->].
      split; [unfold maxAttempts in Hattempt; lia|]. split; [done|].
      destruct (clampedProgress_bounds attempt) as (H1 & _ & H3 & _);
        [lia|done].
    + intros p Hp. by apply reports_of_values with (queries := 0%nat).
    + intros k Hk Hrunning. apply Hmade; [unfold maxAttempts; lia|].
      intros j Hj. apply Hrunning. lia.
Qed.

(** A backend that always says "still running": the attempt 60 reports
    the progress 70. *)
Lemma progress_at_the_attempt_sixty :
  exists r events,
    waitForComfyUICompletion (fun _ => historyOf "p1" stillRunning) "p1"
    = Some (r, events)
    /\ In (60%nat, 70%float) (pollingReports events).
Proof.
  destruct (proj2 progress_never_goes_down
              (fun _ => historyOf "p1" stillRunning) "p1")
    as (r & events & Hrun & _ & _ & Hmade).
  exists r, events. split; [exact Hrun|].
  apply (Hmade 60%nat); [lia|].
  intros j _. eexists _, _, _. repeat split; try reflexivity.
  right. eexists _, _. repeat split; try reflexivity. discriminate.
Defined.

End PollerFacts.

(** ** The result extractor *)

Module ExtractorFacts.
Import JS Worker ExtractorSpec.

Lemma prim_get_ok p k :
  nullish p = false -> exists p', prim_get p k = Ok p'.
Proof.
  destruct p; try discriminate; intros _; simpl; eauto.
  destruct (String.eqb k "length"); eauto.
  destruct (index_of_key k (String.length s)); eauto.
  destruct (String.get n s); eauto.
Qed.

Lemma get_present v k : is_nullish v = false -> get v k = Ok (opt_get v k).
Proof.
  destruct v as [p|a ps]; simpl; [|done].
  intros Hp. destruct (prim_get_ok p k Hp) as [p' ->]. done.
Qed.

Lemma get_nullish v k :
  is_nullish v = true -> exists e, get v k = Throw e /\ unreadableRaw e.
Proof.
  destruct v as [p|a ps]; simpl; [|done].
  destruct p; try discriminate; intros _; simpl.
  - eexists. split; [reflexivity|].
    by exists ("undefined (reading '" +:+ k +:+ "')").
  - eexists. split; [reflexivity|].
    by exists ("null (reading '" +:+ k +:+ "')").
Qed.

Lemma truthy_not_nullish v : truthy v = true -> is_nullish v = false.
Proof. destruct v as [[]|]; simpl; congruence. Qed.

Lemma pushImage_present nodeId image :
  is_nullish image = false -> pushImage nodeId image = Ok (artifact nodeId image).
Proof.
  intros H. unfold pushImage. rewrite !get_present by done. reflexivity.
Qed.

Lemma pushImage_nullish nodeId image :
  is_nullish image = true ->
  exists e, pushImage nodeId image = Throw e /\ unreadableRaw e.
Proof.
  intros H. unfold pushImage.
  destruct (get_nullish image "filename" H) as (e & -> & He). by exists e.
Qed.

Lemma pushImages_spec nodeId entries acc :
  if forallb (fun image => negb (is_nullish image)) entries
  then pushImages nodeId entries acc = Ok (acc ++ map (artifact nodeId) entries)
  else exists e, pushImages nodeId entries acc = Throw e /\ unreadableRaw e.
Proof.
  revert acc. induction entries as [|image rest IH]; intros acc; simpl.
  - by rewrite app_nil_r.
  - destruct (is_nullish image) eqn:Hn; simpl.
    + destruct (pushImage_nullish nodeId image Hn) as (e & -> & He). by exists e.
    + rewrite pushImage_present by done. simpl.
      specialize (IH (acc ++ [artifact nodeId image])).
      destruct (forallb _ rest); [|exact IH].
      by rewrite IH, <- app_assoc.
Qed.

Lemma collectNode_spec outputs acc nodeId :
  truthy outputs = true ->
  let group := opt_get outputs nodeId in
  if negb (is_nullish group)
     && forallb (fun image => negb (is_nullish image)) (imageEntries group)
  then collectNode outputs acc nodeId
       = Ok (acc ++ map (artifact nodeId) (imageEntries group))
  else exists e, collectNode outputs acc nodeId = Throw e /\ unreadableRaw e.
Proof.
  intros Ht group. unfold collectNode.
  rewrite (get_present outputs nodeId) by (by apply truthy_not_nullish).
  fold group. simpl.
  destruct (is_nullish group) eqn:Hn; simpl.
  - destruct (get_nullish group "images" Hn) as (e & -> & He). by exists e.
  - rewrite get_present by done. simpl. unfold imageEntries.
    destruct (opt_get group "images") as [p|[] ps] eqn:Himages; simpl.
    + rewrite andb_false_r. by rewrite app_nil_r.
    + apply pushImages_spec.
    + by rewrite app_nil_r.
Qed.

Lemma collectNodes_spec outputs nodeIds acc :
  truthy outputs = true ->
  if forallb
       (fun nodeId =>
          let group := opt_get outputs nodeId in
          negb (is_nullish group)
          && forallb (fun image => negb (is_nullish image)) (imageEntries group))
       nodeIds
  then collectNodes outputs nodeIds acc
       = Ok (acc ++ flat_map
                     (fun nodeId =>
                        map (artifact nodeId)
                          (imageEntries (opt_get outputs nodeId)))
                     nodeIds)
  else exists e, collectNodes outputs nodeIds acc = Throw e /\ unreadableRaw e.
Proof.
  intros Ht. revert acc.
  induction nodeIds as [|nodeId rest IH]; intros acc; simpl.
  - by rewrite app_nil_r.
  - pose proof (collectNode_spec outputs acc nodeId Ht) as Hnode.
    cbv zeta in Hnode.
    destruct (negb _ && forallb _ (imageEntries _)) eqn:Hok; simpl.
    + rewrite Hnode. simpl.
      specialize (IH (acc ++ map (artifact nodeId)
                            (imageEntries (opt_get outputs nodeId)))).
      destruct (forallb _ rest); [|exact IH].
      by rewrite IH, <- app_assoc.
    + destruct Hnode as (e & -> & He). by exists e.
Qed.

(** C7 (as amended). The extractor fails with the empty-output error
    exactly when [outputs] is falsy ([undefined], [null], [false], 0,
    NaN or the empty string). For truthy outputs whose groups and image
    entries are neither [null] nor [undefined] it returns every image
    entry of every group, tagged with its group; a group without an
    array of images adds nothing and is no failure. When a group or an
    entry is [null] or [undefined], the extractor fails on reading it. *)
Theorem extractor_flattens_images :
  forall (outputs : json) (workflow_name : string) (user : option string)
         (now : Z),
    (processComfyUIOutputs outputs workflow_name user now
     = Throw emptyOutputError <-> truthy outputs = false)
    /\ (truthy outputs = true -> wellFormed outputs = true ->
        processComfyUIOutputs outputs workflow_name user now
        = Ok {| images := flatten outputs;
                metadata := {| workflow := workflow_name; user_id := user;
                               generated_at := now |} |})
    /\ (truthy outputs = true -> wellFormed outputs = false ->
        exists e,
          processComfyUIOutputs outputs workflow_name user now = Throw e
          /\ unreadable e).
Proof.
  intros outputs wn user now. unfold processComfyUIOutputs.
  destruct (truthy outputs) eqn:Ht; simpl.
  - pose proof (collectNodes_spec outputs (keys outputs) [] Ht) as Hspec.
    unfold wellFormed, flatten. cbv zeta in Hspec |- *.
    destruct (forallb _ (keys outputs)).
    + simpl in Hspec. rewrite Hspec. simpl.
      split; [split; discriminate|]. split; [done|discriminate].
    + destruct Hspec as (e & -> & what & ->). simpl.
      split; [split; [|discriminate]|].
      * unfold emptyOutputError. intros H. simpl in H. discriminate H.
      * split; [discriminate|]. intros _ _. eexists. split; [reflexivity|].
        by exists what.
  - split; [done|]. split; discriminate.
Qed.

(** C7 (counterexample). An [outputs] value that is [false], 0 or the
    empty string is neither absent nor [null], yet the extractor fails
    with the empty-output error. *)
Lemma falsy_outputs_are_empty_output :
  is_nullish (Leaf (PBool false)) = false
  /\ processComfyUIOutputs (Leaf (PBool false)) "fashion-sketch" None 0
     = Throw emptyOutputError
  /\ processComfyUIOutputs (Leaf (PNum 0)) "fashion-sketch" None 0
     = Throw emptyOutputError
  /\ processComfyUIOutputs (Leaf (PStr "")) "fashion-sketch" None 0
     = Throw emptyOutputError.
Proof. repeat split; vm_compute; reflexivity. Qed.

(** The example of the specification: two groups, two artifacts. *)
Lemma two_groups_two_artifacts :
  processComfyUIOutputs twoGroups "fashion-sketch" None 0
  = Ok {| images :=
            [ {| filename := Leaf (PStr "a.png"); subfolder := Leaf (PStr "");
                 type := Leaf (PStr "output"); node_id := "9" |};
              {| filename := Leaf (PStr "b.png"); subfolder := Leaf (PStr "");
                 type := Leaf (PStr "output"); node_id := "9" |} ];
          metadata := {| workflow := "fashion-sketch"; user_id := None;
                         generated_at := 0 |} |}.
Proof.
  exact (proj1 (proj2 (extractor_flattens_images twoGroups "fashion-sketch"
                         None 0)) eq_refl eq_refl).
Defined.

(** A group that is [null] makes the extractor fail. *)
Example null_group_is_a_failure :
  exists what,
    processComfyUIOutputs (obj [("9", Leaf PNull)]) "fashion-sketch" None 0
    = Throw (Error ("Falha ao processar resultados: Cannot read properties of "
                    +:+ what)).
Proof. eexists. vm_compute. reflexivity. Qed.

End ExtractorFacts.

(** ** The assignments on the tree *)

Module TreeFacts.
Import JS Injector CopyTree.

Section Assoc.

Context {V : Type}.
Implicit Types (ps : list (string * V)) (k : string).

Lemma lookup_assign_eq k (c : V) ps :
  lookup_prop k (assign_prop k c ps) = Some c.
Proof.
  induction ps as [|[k1 c1] ps IH]; simpl.
  - by rewrite String.eqb_refl.
  - destruct (String.eqb k k1) eqn:E; simpl; rewrite ?E, ?String.eqb_refl; done.
Qed.

Lemma lookup_assign_ne k k' (c : V) ps :
  k <> k' -> lookup_prop k' (assign_prop k c ps) = lookup_prop k' ps.
Proof.
  intros Hne. induction ps as [|[k1 c1] ps IH]; simpl.
  - destruct (String.eqb_spec k' k); [congruence|done].
  - destruct (String.eqb_spec k k1) as [->|Hk]; simpl.
    + destruct (String.eqb_spec k' k1); [congruence|done].
    + by rewrite IH.
Qed.

Lemma keys_assign_present k (c c0 : V) ps :
  lookup_prop k ps = Some c0 ->
  map fst (assign_prop k c ps) = map fst ps.
Proof.
  induction ps as [|[k1 c1] ps IH]; simpl; [done|].
  destruct (String.eqb_spec k k1) as [->|Hk]; simpl; [done|].
  intros H. by rewrite IH.
Qed.

Lemma lookup_In k (c : V) ps : lookup_prop k ps = Some c -> In (k, c) ps.
Proof.
  induction ps as [|[k1 c1] ps IH]; simpl; [done|].
  destruct (String.eqb_spec k k1) as [->|Hk].
  - intros [= ->]. by left.
  - intros H. right. by apply IH.
Qed.

Lemma In_keys_lookup k ps :
  In k (map fst ps) -> exists c, lookup_prop k ps = Some c.
Proof.
  induction ps as [|[k1 c1] ps IH]; simpl; [done|].
  destruct (String.eqb_spec k k1) as [->|Hk]; [by eexists|].
  intros [H|H]; [congruence|by apply IH].
Qed.

Lemma forallb_assign (f : string * V -> bool) k (c : V) ps :
  forallb f ps = true -> f (k, c) = true ->
  forallb f (assign_prop k c ps) = true.
Proof.
  intros Hps Hc. induction ps as [|[k1 c1] ps IH]; simpl in *.
  - by rewrite Hc.
  - apply andb_prop in Hps as [H1 H2].
    destruct (String.eqb k k1); simpl; [by rewrite Hc|].
    rewrite H1. by apply IH.
Qed.

Lemma items_from_keys {W : Type} ps (qs : list (string * W)) : forall i,
  map fst ps = map fst qs ->
  length (items_from i ps) = length (items_from i qs).
Proof.
  revert qs. induction ps as [|[k v] ps IH]; intros [|[k' w] qs] i; simpl;
    try done.
  intros [= -> Hkeys]. destruct (String.eqb k' (pretty i)); simpl; [|done].
  f_equal. by apply IH.
Qed.

(** Replacing a property that is there changes no other read. *)
Lemma props_get_assign_ne (u : V) f a k k' (c c0 : V) ps :
  k <> k' -> lookup_prop k ps = Some c0 ->
  props_get u f a (assign_prop k c ps) k' = props_get u f a ps k'.
Proof.
  intros Hne Hlook. unfold props_get, array_items.
  rewrite (lookup_assign_ne _ _ _ _ Hne).
  by rewrite (items_from_keys _ ps 0 (keys_assign_present _ _ _ _ Hlook)).
Qed.

Lemma props_get_assign_eq (u : V) f a k (c : V) ps :
  props_get u f a (assign_prop k c ps) k = c.
Proof. unfold props_get. by rewrite lookup_assign_eq. Qed.

Lemma props_get_lookup (u : V) f a k (c : V) ps :
  lookup_prop k ps = Some c -> props_get u f a ps k = c.
Proof. unfold props_get. by intros ->. Qed.

End Assoc.

(** *** The shape of a tree at an assignment *)

Lemma child_leaf v k c : child (Leaf v) k = Ok c -> exists p, c = Leaf (VPrim p).
Proof.
  destruct v as [p|l]; simpl.
  - destruct (prim_get p k) as [p'|e]; simpl; [|done]. intros [= <-]. by eexists.
  - intros [= <-]. by eexists.
Qed.

Lemma child_node_inv t k a ts :
  child t k = Ok (Node a ts) ->
  exists a0 ts0, t = Node a0 ts0 /\ lookup_prop k ts0 = Some (Node a ts).
Proof.
  destruct t as [v|a0 ts0].
  - intros H. by destruct (child_leaf _ _ _ H).
  - simpl. unfold props_get. destruct (lookup_prop k ts0) as [c|] eqn:Hlook.
    + intros [= ->]. by exists a0, ts0.
    + destruct (a0 && String.eqb k "length"); discriminate.
Qed.

(** The objects on the way to an object three reads down, and the tree
    with that object replaced. *)
Lemma descend3_shape t k1 k2 k3 a ts :
  descend t [k1; k2; k3] = Ok (Node a ts) ->
  exists a0 ts0 a1 ts1 a2 ts2,
    t = Node a0 ts0
    /\ lookup_prop k1 ts0 = Some (Node a1 ts1)
    /\ lookup_prop k2 ts1 = Some (Node a2 ts2)
    /\ lookup_prop k3 ts2 = Some (Node a ts)
    /\ forall sub,
         graft t [k1; k2; k3] sub
         = Node a0
             (assign_prop k1
                (Node a1
                   (assign_prop k2 (Node a2 (assign_prop k3 sub ts2)) ts1))
                ts0).
Proof.
  cbn [descend]. intros H.
  destruct (child t k1) as [c1|e] eqn:H1; [|done]. simpl in H.
  destruct (child c1 k2) as [c2|e] eqn:H2; [|done]. simpl in H.
  destruct (child c2 k3) as [c3|e] eqn:H3; [|done]. simpl in H.
  injection H as ->.
  destruct (child_node_inv _ _ _ _ H3) as (a2 & ts2 & -> & L3).
  destruct (child_node_inv _ _ _ _ H2) as (a1 & ts1 & -> & L2).
  destruct (child_node_inv _ _ _ _ H1) as (a0 & ts0 & -> & L1).
  exists a0, ts0, a1, ts1, a2, ts2. repeat split; try done.
  intros sub. cbn [graft child]. rewrite (props_get_lookup _ _ _ _ _ _ L1).
  cbn [graft child]. rewrite (props_get_lookup _ _ _ _ _ _ L2).
  reflexivity.
Qed.

Lemma assignLeaf_ok base key x base' :
  assignLeaf base key x = Ok base' ->
  exists a ts,
    base = Node a ts /\ base' = Node a (assign_prop key (Leaf x) ts).
Proof.
  destruct base as [v|a ts]; simpl.
  - by destruct (heap_set [] v key x).
  - intros [= <-]. by exists a, ts.
Qed.

Lemma assignAtT_unfold nodeId key rhs t :
  assignAtT nodeId key rhs t
  = match descend t ["prompt"; nodeId; "inputs"] with
    | Throw e => (Throw e, t)
    | Ok base =>
        match rhs with
        | Throw e => (Throw e, t)
        | Ok x =>
            match assignLeaf base key x with
            | Throw e => (Throw e, t)
            | Ok base' => (Ok tt, graft t ["prompt"; nodeId; "inputs"] base')
            end
        end
    end.
Proof.
  unfold assignAtT. cbn [descend graft].
  destruct (child t "prompt") as [tp|e]; [|done]. simpl.
  destruct (child tp nodeId) as [tn|e]; [|done]. simpl.
  destruct (child tn "inputs") as [tb|e]; [|done]. simpl.
  destruct rhs as [x|e]; [|done]. simpl.
  destruct (assignLeaf tb key x) as [tb'|e]; done.
Qed.

(** An assignment that succeeded was made into an object. *)
Lemma assignAtT_ok nodeId key rhs t u t' :
  assignAtT nodeId key rhs t = (Ok u, t') ->
  exists x a ts,
    rhs = Ok x
    /\ descend t ["prompt"; nodeId; "inputs"] = Ok (Node a ts)
    /\ t' = graft t ["prompt"; nodeId; "inputs"]
              (Node a (assign_prop key (Leaf x) ts)).
Proof.
  rewrite assignAtT_unfold.
  destruct (descend t _) as [base|e]; [|done].
  destruct rhs as [x|e]; [|done].
  destruct (assignLeaf base key x) as [base'|e] eqn:Hbase; [|done].
  intros [= _ <-].
  destruct (assignLeaf_ok _ _ _ _ Hbase) as (a & ts & -> & ->).
  by exists x, a, ts.
Qed.

Lemma assignAtT_throw nodeId key rhs t e t' :
  assignAtT nodeId key rhs t = (Throw e, t') -> t' = t.
Proof.
  rewrite assignAtT_unfold.
  destruct (descend t _) as [base|e1]; [|by intros [= _ <-]].
  destruct rhs as [x|e1]; [|by intros [= _ <-]].
  destruct (assignLeaf base key x) as [base'|e1]; [done|by intros [= _ <-]].
Qed.

(** *** What an assignment leaves as it was *)

Section Assigned.

Variables (nodeId key : string) (x : value).
Variables (a0 a1 a2 a3 : bool) (ts0 ts1 ts2 ts3 : list (string * tree value)).
Hypothesis L1 : lookup_prop "prompt" ts0 = Some (Node a1 ts1).
Hypothesis L2 : lookup_prop nodeId ts1 = Some (Node a2 ts2).
Hypothesis L3 : lookup_prop "inputs" ts2 = Some (Node a3 ts3).

Local Abbreviation tree0 := (Node a0 ts0).
Local Abbreviation inputs1 := (Node a3 (assign_prop key (Leaf x) ts3)).
Local Abbreviation node1 := (Node a2 (assign_prop "inputs" inputs1 ts2)).
Local Abbreviation prompt1 := (Node a1 (assign_prop nodeId node1 ts1)).
Local Abbreviation tree1 := (Node a0 (assign_prop "prompt" prompt1 ts0)).

Lemma child_prompt_before : child tree0 "prompt" = Ok (Node a1 ts1).
Proof. cbn [child]. by rewrite (props_get_lookup _ _ _ _ _ _ L1). Qed.

Lemma child_prompt_after : child tree1 "prompt" = Ok prompt1.
Proof. cbn [child]. by rewrite props_get_assign_eq. Qed.

Lemma child_node_after k :
  child prompt1 k = if String.eqb nodeId k then Ok node1 else child (Node a1 ts1) k.
Proof.
  cbn [child]. destruct (String.eqb_spec nodeId k) as [<-|Hne].
  - by rewrite props_get_assign_eq.
  - by rewrite (props_get_assign_ne _ _ _ _ _ _ _ _ Hne L2).
Qed.

Lemma keys_assigned : keysT prompt1 = keysT (Node a1 ts1).
Proof. cbn [keysT]. by apply (keys_assign_present _ _ _ _ L2). Qed.

Lemma wants_assigned k :
  key <> "seed" \/ has_prop "seed" ts3 = true ->
  wantsSeedT k tree1 = wantsSeedT k tree0.
Proof.
  intros Hkey. unfold wantsSeedT.
  rewrite child_prompt_before, child_prompt_after. cbn [bind].
  rewrite child_node_after.
  destruct (String.eqb_spec nodeId k) as [<-|Hne]; [|done].
  cbn [child]. rewrite (props_get_lookup _ _ _ _ _ _ L2). cbn [bind child].
  rewrite (props_get_assign_ne _ _ _ "inputs" "class_type" _ _ _ ltac:(done) L3).
  destruct (is_strT _ "KSampler"); [|done].
  rewrite props_get_assign_eq, (props_get_lookup _ _ _ _ _ _ L3).
  cbn [truthyT inT]. do 2 f_equal. unfold has_prop.
  destruct (String.eqb_spec key "seed") as [Heq|Hne].
  - rewrite Heq, lookup_assign_eq. destruct Hkey as [Hkey|Hkey]; [done|].
    unfold has_prop in Hkey. revert Hkey.
    by destruct (lookup_prop "seed" _).
  - by rewrite (lookup_assign_ne _ _ _ _ Hne).
Qed.

Lemma wants_before :
  wantsSeedT nodeId tree0 = Ok true -> has_prop "seed" ts3 = true.
Proof.
  unfold wantsSeedT. rewrite child_prompt_before. cbn [bind child].
  rewrite (props_get_lookup _ _ _ _ _ _ L2). cbn [bind child].
  destruct (is_strT _ "KSampler"); [|done].
  rewrite (props_get_lookup _ _ _ _ _ _ L3). cbn [truthyT inT].
  intros [= H]. by rewrite andb_false_r, orb_false_r in H.
Qed.

Lemma seed_assigned_same : key = "seed" -> seedAt nodeId tree1 = Ok (Leaf x).
Proof.
  intros Heq. unfold seedAt. cbn [descend].
  rewrite child_prompt_after. cbn [bind]. rewrite child_node_after.
  rewrite String.eqb_refl. cbn [bind child].
  rewrite props_get_assign_eq. cbn [child bind].
  by rewrite Heq, props_get_assign_eq.
Qed.

Lemma seed_assigned_other k :
  k <> nodeId -> seedAt k tree1 = seedAt k tree0.
Proof.
  intros Hne. unfold seedAt. cbn [descend].
  rewrite child_prompt_before, child_prompt_after. cbn [bind].
  rewrite child_node_after.
  by destruct (String.eqb_spec nodeId k) as [<-|_].
Qed.

Lemma wf_assigned :
  wellFormedTemplate tree0 = true -> wellFormedTemplate tree1 = true.
Proof.
  cbn [wellFormedTemplate]. rewrite L1, lookup_assign_eq. intros Hwf.
  apply forallb_assign; [done|].
  cbn [snd hasInputsObject]. by rewrite lookup_assign_eq.
Qed.

End Assigned.

(** What an assignment that succeeded leaves as it was. *)
Lemma assignAtT_frame nodeId key rhs t u t' :
  assignAtT nodeId key rhs t = (Ok u, t') ->
  key <> "seed" \/ wantsSeedT nodeId t = Ok true ->
  (forall k, wantsSeedT k t' = wantsSeedT k t)
  /\ (exists P P',
        child t "prompt" = Ok P /\ child t' "prompt" = Ok P'
        /\ keysT P' = keysT P /\ truthyT P' = true)
  /\ (wellFormedTemplate t = true -> wellFormedTemplate t' = true)
  /\ (forall k, k <> nodeId -> seedAt k t' = seedAt k t)
  /\ (key = "seed" -> forall x, rhs = Ok x -> seedAt nodeId t' = Ok (Leaf x)).
Proof.
  intros Hstep Hkey.
  destruct (assignAtT_ok _ _ _ _ _ _ Hstep) as (x & a3 & ts3 & -> & Hdesc & ->).
  destruct (descend3_shape _ _ _ _ _ _ Hdesc)
    as (a0 & ts0 & a1 & ts1 & a2 & ts2 & -> & L1 & L2 & L3 & Hgraft).
  rewrite Hgraft.
  assert (Hkey' : key <> "seed" \/ has_prop "seed" ts3 = true).
  { destruct Hkey as [|Hw]; [by left|right]. by eapply wants_before. }
  split; [|split; [|split; [|split]]].
  - intros k. by eapply wants_assigned.
  - eexists _, _. split; [by apply child_prompt_before|].
    split; [by apply child_prompt_after|].
    split; [by eapply keys_assigned|done].
  - by apply wf_assigned.
  - intros k Hk. by eapply seed_assigned_other.
  - intros Hs x' [= <-]. by eapply seed_assigned_same.
Qed.

(** A node that the seed loop assigns at is a key of the prompt. *)
Lemma wantsSeed_shape k t :
  wantsSeedT k t = Ok true ->
  exists a1 ts1, child t "prompt" = Ok (Node a1 ts1) /\ In k (map fst ts1).
Proof.
  unfold wantsSeedT.
  destruct (child t "prompt") as [P|e] eqn:H1; [|done]. cbn [bind].
  destruct (child P k) as [N|e] eqn:H2; [|done]. cbn [bind].
  destruct (child N "class_type") as [tc|e]; [|done]. cbn [bind].
  destruct (is_strT tc "KSampler"); [|done].
  destruct (child N "inputs") as [B|e] eqn:H4; [|done]. cbn [bind].
  destruct (truthyT B); [|done].
  destruct B as [[p|l]|a3 ts3]; [done|done|]. intros _.
  destruct (child_node_inv _ _ _ _ H4) as (a2 & ts2 & -> & _).
  destruct (child_node_inv _ _ _ _ H2) as (a1 & ts1 & -> & L2).
  exists a1, ts1. split; [done|].
  apply lookup_In in L2. by apply (in_map fst) in L2.
Qed.

(** *** The text assignments *)

Lemma textSteps_trans t1 t2 t3 :
  textSteps t1 t2 -> textSteps t2 t3 -> textSteps t1 t3.
Proof.
  induction 1 as [|nodeId x t t1 t2 Hstep _ IH]; [done|].
  intros H. eapply text_step; [exact Hstep|by apply IH].
Qed.

Lemma textSteps_frame t t' :
  textSteps t t' ->
  (forall k, wantsSeedT k t' = wantsSeedT k t)
  /\ (wellFormedTemplate t = true -> wellFormedTemplate t' = true).
Proof.
  induction 1 as [|nodeId x t t1 t2 Hstep _ [IH1 IH2]]; [done|].
  destruct (assignAtT_frame _ _ _ _ _ _ Hstep) as (Hw & _ & Hwf & _);
    [by left|].
  split.
  - intros k. by rewrite IH1.
  - intros H. by apply IH2, Hwf.
Qed.

Lemma assignAtT_textSteps nodeId rhs t :
  textSteps t (snd (assignAtT nodeId "text" rhs t)).
Proof.
  destruct (assignAtT nodeId "text" rhs t) as [[[]|e] t'] eqn:Hstep; simpl.
  - destruct (assignAtT_ok _ _ _ _ _ _ Hstep) as (x & _ & _ & -> & _).
    eapply text_step; [exact Hstep|constructor].
  - rewrite (assignAtT_throw _ _ _ _ _ _ Hstep). constructor.
Qed.

Lemma injectTextT_textSteps nodeId rhs t :
  textSteps t (snd (injectTextT nodeId rhs t)).
Proof.
  unfold injectTextT.
  destruct (hasNodeT nodeId t) as [[]|e]; simpl; try constructor.
  apply assignAtT_textSteps.
Qed.

(** *** The seed loop *)

Lemma seedNodeT_frame x k0 t u t' :
  seedNodeT (Ok x) k0 t = (Ok u, t') ->
  (forall k, wantsSeedT k t' = wantsSeedT k t)
  /\ (forall k, k <> k0 -> seedAt k t' = seedAt k t)
  /\ (wantsSeedT k0 t = Ok true -> seedAt k0 t' = Ok (Leaf x)).
Proof.
  unfold seedNodeT.
  destruct (wantsSeedT k0 t) as [[]|e] eqn:Hw; [| |done].
  - intros Hstep.
    destruct (assignAtT_frame _ _ _ _ _ _ Hstep) as (H1 & _ & _ & H2 & H3);
      [by right|].
    split; [done|]. split; [done|]. intros _. by apply H3.
  - by intros [= _ <-].
Qed.

(** After the loop every node it was to assign at, of the keys it went
    through, has the seed. *)
Lemma forEachT_seeds x keys : forall t u t',
  forEachT (seedNodeT (Ok x)) keys t = (Ok u, t') ->
  (forall k, wantsSeedT k t' = wantsSeedT k t)
  /\ (forall k,
        wantsSeedT k t = Ok true ->
        In k keys \/ seedAt k t = Ok (Leaf x) ->
        seedAt k t' = Ok (Leaf x)).
Proof.
  induction keys as [|k0 rest IH]; intros t u t'; cbn [forEachT].
  - intros [= _ <-]. split; [done|]. by intros k _ [[]|H].
  - destruct (seedNodeT (Ok x) k0 t) as [[[]|e] t1] eqn:Hstep; [|done].
    intros Hrest.
    destruct (seedNodeT_frame _ _ _ _ _ Hstep) as (Hw1 & Hother & Hsame).
    destruct (IH _ _ _ Hrest) as (Hw2 & Hseeds).
    split; [intros k; by rewrite Hw2|].
    intros k Hk Hin. apply Hseeds; [by rewrite Hw1|].
    destruct (decide (k = k0)) as [->|Hne].
    + right. by apply Hsame.
    + destruct Hin as [[Heq|Hin]|Hseed]; [congruence|by left|].
      right. by rewrite Hother.
Qed.

(** *** Well-formed templates *)

Lemma wf_shape t :
  wellFormedTemplate t = true ->
  exists a0 ts0,
    t = Node a0 ts0
    /\ (lookup_prop "prompt" ts0 = None
        \/ exists a1 (ts1 : list (string * tree value)),
             lookup_prop "prompt" ts0 = Some (Node a1 ts1)
             /\ forallb (fun kn => hasInputsObject kn.2) ts1 = true).
Proof.
  destruct t as [v|a0 ts0]; [done|]. cbn [wellFormedTemplate].
  destruct (lookup_prop "prompt" ts0) as [[v|a1 ts1]|] eqn:L1; [done| |].
  - intros H. exists a0, ts0. split; [done|]. right. by exists a1, ts1.
  - intros _. exists a0, ts0. split; [done|]. by left.
Qed.

Lemma wf_no_prompt a0 (ts0 : list (string * tree value)) :
  lookup_prop "prompt" ts0 = None ->
  child (Node a0 ts0) "prompt" = Ok (Leaf undefined).
Proof.
  intros L1. cbn [child]. unfold props_get. rewrite L1.
  by rewrite andb_false_r.
Qed.

Lemma hasInputsObject_shape (N : tree value) :
  hasInputsObject N = true ->
  exists a2 ts2 a3 ts3,
    N = Node a2 ts2 /\ lookup_prop "inputs" ts2 = Some (Node a3 ts3).
Proof.
  destruct N as [v|a2 ts2]; [done|]. cbn [hasInputsObject].
  destruct (lookup_prop "inputs" ts2) as [[v|a3 ts3]|] eqn:L3; try done.
  intros _. by exists a2, ts2, a3, ts3.
Qed.

Lemma wf_node (ts1 : list (string * tree value)) k N :
  forallb (fun kn => hasInputsObject kn.2) ts1 = true ->
  lookup_prop k ts1 = Some N ->
  hasInputsObject N = true.
Proof.
  intros Hall L2. apply lookup_In in L2.
  rewrite forallb_forall in Hall. exact (Hall _ L2).
Qed.

(** In a well-formed template an assignment at a node that is there
    succeeds. *)
Lemma assignAtT_wf a0 ts0 a1 (ts1 : list (string * tree value)) nodeId N key x :
  lookup_prop "prompt" ts0 = Some (Node a1 ts1) ->
  forallb (fun kn => hasInputsObject kn.2) ts1 = true ->
  lookup_prop nodeId ts1 = Some N ->
  exists t', assignAtT nodeId key (Ok x) (Node a0 ts0) = (Ok tt, t').
Proof.
  intros L1 Hall L2.
  destruct (hasInputsObject_shape _ (wf_node _ _ _ Hall L2))
    as (a2 & ts2 & a3 & ts3 & -> & L3).
  rewrite assignAtT_unfold. cbn [descend child].
  rewrite (props_get_lookup _ _ _ _ _ _ L1). cbn [bind child].
  rewrite (props_get_lookup _ _ _ _ _ _ L2). cbn [bind child].
  rewrite (props_get_lookup _ _ _ _ _ _ L3). cbn [bind assignLeaf].
  by eexists.
Qed.

Lemma injectTextT_wf nodeId x t :
  wellFormedTemplate t = true -> nodeId <> "length" ->
  exists t',
    injectTextT nodeId (Ok x) t = (Ok tt, t')
    /\ wellFormedTemplate t' = true.
Proof.
  intros Hwf Hid.
  destruct (wf_shape _ Hwf) as (a0 & ts0 & -> & [L1|(a1 & ts1 & L1 & Hall)]).
  { unfold injectTextT, hasNodeT. rewrite (wf_no_prompt _ _ L1). simpl.
    by exists (Node a0 ts0). }
  unfold injectTextT, hasNodeT. cbn [child].
  rewrite (props_get_lookup _ _ _ _ _ _ L1). cbn [bind truthyT child].
  unfold props_get at 1.
  destruct (lookup_prop nodeId ts1) as [N|] eqn:L2.
  - destruct (hasInputsObject_shape _ (wf_node _ _ _ Hall L2))
      as (a2 & ts2 & a3 & ts3 & HN & L3).
    rewrite HN. cbn [truthyT].
    destruct (assignAtT_wf a0 _ _ _ _ _ "text" x L1 Hall L2) as (t' & Hstep).
    exists t'. split; [done|].
    destruct (assignAtT_frame _ _ _ _ _ _ Hstep) as (_ & _ & Hwf' & _);
      [by left|].
    by apply Hwf'.
  - destruct (String.eqb_spec nodeId "length") as [|_]; [done|].
    rewrite andb_false_r. simpl. by exists (Node a0 ts0).
Qed.

Lemma seedNodeT_wf x k t a1 ts1 :
  wellFormedTemplate t = true ->
  child t "prompt" = Ok (Node a1 ts1) ->
  In k (map fst ts1) ->
  exists t' a1' ts1',
    seedNodeT (Ok x) k t = (Ok tt, t')
    /\ wellFormedTemplate t' = true
    /\ child t' "prompt" = Ok (Node a1' ts1')
    /\ map fst ts1' = map fst ts1.
Proof.
  intros Hwf Hprompt Hin.
  destruct (wf_shape _ Hwf) as (a0 & ts0 & -> & [L1|(a1' & ts1' & L1 & Hall)]).
  { by rewrite (wf_no_prompt _ _ L1) in Hprompt. }
  cbn [child] in Hprompt. rewrite (props_get_lookup _ _ _ _ _ _ L1) in Hprompt.
  injection Hprompt as -> ->.
  destruct (In_keys_lookup _ _ Hin) as (N & L2).
  assert (Hwants : exists b, wantsSeedT k (Node a0 ts0) = Ok b).
  { destruct (hasInputsObject_shape _ (wf_node _ _ _ Hall L2))
      as (a2 & ts2 & a3 & ts3 & -> & L3).
    unfold wantsSeedT. cbn [child].
    rewrite (props_get_lookup _ _ _ _ _ _ L1). cbn [bind child].
    rewrite (props_get_lookup _ _ _ _ _ _ L2). cbn [bind child].
    destruct (is_strT _ "KSampler"); [|by eexists].
    rewrite (props_get_lookup _ _ _ _ _ _ L3). cbn [truthyT inT]. by eexists. }
  destruct Hwants as ([] & Hw); unfold seedNodeT; rewrite Hw.
  - destruct (assignAtT_wf a0 _ _ _ _ _ "seed" x L1 Hall L2) as (t' & Hstep).
    destruct (assignAtT_frame _ _ _ _ _ _ Hstep)
      as (_ & (P & P' & HP & HP' & Hkeys & _) & Hwf' & _); [by right|].
    cbn [child] in HP. rewrite (props_get_lookup _ _ _ _ _ _ L1) in HP.
    injection HP as <-.
    destruct (wantsSeed_shape k t') as (a1' & ts1' & HP1 & _).
    { destruct (assignAtT_frame _ _ _ _ _ _ Hstep) as (Hsame & _);
        [by right|]. by rewrite Hsame. }
    rewrite HP' in HP1. injection HP1 as ->.
    exists t', a1', ts1'. by repeat split; auto.
  - exists (Node a0 ts0), a1, ts1. repeat split; try done.
    cbn [child]. by rewrite (props_get_lookup _ _ _ _ _ _ L1).
Qed.

Lemma forEachT_wf x keys : forall t a1 ts1,
  wellFormedTemplate t = true ->
  child t "prompt" = Ok (Node a1 ts1) ->
  (forall k, In k keys -> In k (map fst ts1)) ->
  exists t',
    forEachT (seedNodeT (Ok x)) keys t = (Ok tt, t')
    /\ wellFormedTemplate t' = true.
Proof.
  induction keys as [|k0 rest IH]; intros t a1 ts1 Hwf Hprompt Hkeys;
    cbn [forEachT].
  - by exists t.
  - destruct (seedNodeT_wf x k0 t a1 ts1 Hwf Hprompt)
      as (t1 & a1' & ts1' & -> & Hwf1 & Hprompt1 & Hsame).
    { apply Hkeys. by left. }
    apply (IH t1 a1' ts1' Hwf1 Hprompt1).
    intros k Hk. rewrite Hsame. apply Hkeys. by right.
Qed.

Lemma injectSeedT_wf seed x t :
  wellFormedTemplate t = true ->
  exists t',
    injectSeedT (Ok seed) (Ok x) t = (Ok tt, t')
    /\ wellFormedTemplate t' = true.
Proof.
  intros Hwf. unfold injectSeedT.
  destruct (value_truthy seed); [|by exists t].
  destruct (wf_shape _ Hwf) as (a0 & ts0 & -> & [L1|(a1 & ts1 & L1 & Hall)]).
  { rewrite (wf_no_prompt _ _ L1). simpl. by exists (Node a0 ts0). }
  cbn [child]. rewrite (props_get_lookup _ _ _ _ _ _ L1). cbn [truthyT keysT].
  apply (forEachT_wf x _ _ a1 ts1 Hwf); [|done].
  cbn [child]. by rewrite (props_get_lookup _ _ _ _ _ _ L1).
Qed.

Lemma injectSeedT_seeds seed x t u t' :
  value_truthy seed = true ->
  injectSeedT (Ok seed) (Ok x) t = (Ok u, t') ->
  forall k, wantsSeedT k t = Ok true -> seedAt k t' = Ok (Leaf x).
Proof.
  intros Hseed Hrun k Hk. unfold injectSeedT in Hrun. rewrite Hseed in Hrun.
  destruct (wantsSeed_shape _ _ Hk) as (a1 & ts1 & Hprompt & Hin).
  rewrite Hprompt in Hrun. cbn [truthyT keysT] in Hrun.
  destruct (forEachT_seeds _ _ _ _ _ Hrun) as (_ & Hseeds).
  apply Hseeds; [done|by left].
Qed.

End TreeFacts.

(** ** The parameter injector *)

Module InjectorFacts.
Import JS Injector CopyTree.

(** *** Trees in the store *)

Lemma json_induction (P : json -> Prop) :
  (forall p, P (Leaf p)) ->
  (forall a members, Forall (fun km => P (snd km)) members -> P (Node a members)) ->
  forall j, P j.
Proof.
  intros Hleaf Hnode. fix IH 1. intros [p|a members]; [apply Hleaf|].
  apply Hnode. induction members as [|[k m] rest IHrest]; constructor.
  - apply IH.
  - exact IHrest.
Qed.

Lemma own_range h t v lo hi : own h t v lo hi -> (lo <= hi)%nat.
Proof.
  revert t v lo hi.
  apply (own_mut h (fun t v lo hi _ => (lo <= hi)%nat)
                   (fun ts cs lo hi _ => (lo <= hi)%nat)); intros; lia.
Qed.

Lemma owns_range h ts cs lo hi : owns h ts cs lo hi -> (lo <= hi)%nat.
Proof.
  induction 1 as [|k t v ts cs lo mid hi Hown Howns IH]; [lia|].
  apply own_range in Hown. lia.
Qed.

(** A tree only depends on the cells of its range. *)
Lemma own_frame h h' t v lo hi :
  own h t v lo hi ->
  (forall l, (lo <= l < hi)%nat -> h' !! l = h !! l) ->
  own h' t v lo hi.
Proof.
  revert t v lo hi.
  apply (own_mut h
           (fun t v lo hi _ =>
              (forall l, (lo <= l < hi)%nat -> h' !! l = h !! l) ->
              own h' t v lo hi)
           (fun ts cs lo hi _ =>
              (forall l, (lo <= l < hi)%nat -> h' !! l = h !! l) ->
              owns h' ts cs lo hi)).
  - intros x lo hi Hle _. by constructor.
  - intros a ts cs l lo hi Hl Hcell Howns IH Hsame.
    pose proof (owns_range _ _ _ _ _ Howns).
    econstructor; [done| |].
    + rewrite Hsame by lia. exact Hcell.
    + apply IH. intros l' Hl'. apply Hsame. lia.
  - intros lo hi Hle _. by constructor.
  - intros k t v ts cs lo mid hi Hown IHown Howns IHowns Hsame.
    pose proof (own_range _ _ _ _ _ Hown).
    pose proof (owns_range _ _ _ _ _ Howns).
    econstructor.
    + apply IHown. intros l Hl. apply Hsame. lia.
    + apply IHowns. intros l Hl. apply Hsame. lia.
Qed.

Lemma owns_frame h h' ts cs lo hi :
  owns h ts cs lo hi ->
  (forall l, (lo <= l < hi)%nat -> h' !! l = h !! l) ->
  owns h' ts cs lo hi.
Proof.
  induction 1 as [|k t v ts cs lo mid hi Hown Howns IH]; intros Hsame.
  - by constructor.
  - pose proof (own_range _ _ _ _ _ Hown).
    pose proof (owns_range _ _ _ _ _ Howns).
    econstructor.
    + eapply own_frame; [exact Hown|]. intros l Hl. apply Hsame. lia.
    + apply IH. intros l Hl. apply Hsame. lia.
Qed.

Lemma own_truthy h t v lo hi : own h t v lo hi -> truthyT t = value_truthy v.
Proof. by destruct 1. Qed.

(** [JSON.parse] appends the cells of the document, and its value owns
    the document in them. *)
Lemma parse_own j :
  forall h, exists cells,
    snd (parse j h) = h ++ cells
    /\ own (snd (parse j h)) (embed j) (fst (parse j h))
         (length h) (length (snd (parse j h))).
Proof.
  induction j as [p|a members IH] using json_induction; intros h.
  - exists []. simpl. rewrite app_nil_r. split; [done|]. by constructor.
  - cbn [parse embed].
    set (each := fix each (members : list (string * json)) (h : heap)
                   : list (string * value) * heap :=
           match members with
           | [] => ([], h)
           | (k, m) :: members' =>
               let '(v, h1) := parse m h in
               let '(ps, h2) := each members' h1 in
               ((k, v) :: ps, h2)
           end).
    set (emb := fix each (members : list (string * json))
                  : list (string * vtree) :=
           match members with
           | [] => []
           | (k, m) :: members' => (k, embed m) :: each members'
           end).
    assert (Heach : forall h, exists cells,
               snd (each members h) = h ++ cells
               /\ owns (snd (each members h)) (emb members)
                    (fst (each members h)) (length h)
                    (length (snd (each members h)))).
    { clear h. induction IH as [|[k m] rest Hm _ IHrest]; intros h.
      - exists []. simpl. rewrite app_nil_r. split; [done|]. by constructor.
      - cbn [each emb]. simpl in Hm. destruct (Hm h) as (c1 & Hc1 & Hown1).
        destruct (parse m h) as [v h1] eqn:Hparse. simpl in Hc1, Hown1.
        destruct (IHrest h1) as (c2 & Hc2 & Hown2).
        destruct (each rest h1) as [ps h2] eqn:Heach. simpl in Hc2, Hown2.
        simpl. exists (c1 ++ c2). subst h1 h2.
        split; [by rewrite app_assoc|].
        econstructor; [|exact Hown2].
        eapply own_frame; [exact Hown1|].
        intros l Hl. rewrite lookup_app_l; [done|]. lia. }
    destruct (Heach h) as (cells & Hcells & Howns).
    destruct (each members h) as [ps h'] eqn:Hrun. simpl in Hcells, Howns.
    simpl. exists (cells ++ [{| isArrayCell := a; props := ps |}]).
    subst h'. split; [by rewrite app_assoc|].
    econstructor.
    + rewrite !length_app. simpl. lia.
    + rewrite lookup_app_r by lia. rewrite Nat.sub_diag. reflexivity.
    + eapply owns_frame; [exact Howns|].
      intros l Hl. rewrite lookup_app_l; [done|]. lia.
Qed.

(** *** Reading through a tree *)

Lemma owns_keys h ts cs lo hi : owns h ts cs lo hi -> map fst ts = map fst cs.
Proof. induction 1; simpl; congruence. Qed.

Lemma items_from_length {V W : Type} (ps : list (string * V))
    (qs : list (string * W)) i :
  map fst ps = map fst qs ->
  length (items_from i ps) = length (items_from i qs).
Proof.
  revert qs i. induction ps as [|[k v] ps IH]; intros [|[k' w] qs] i Hkeys;
    try discriminate; [done|].
  simpl in *. injection Hkeys as -> Hkeys.
  destruct (String.eqb k' (pretty i)); simpl; [|done]. f_equal. by apply IH.
Qed.

Lemma lookup_prop_none_keys {V W : Type} (ps : list (string * V))
    (qs : list (string * W)) k :
  map fst ps = map fst qs -> lookup_prop k ps = None -> lookup_prop k qs = None.
Proof.
  revert qs. induction ps as [|[k1 v] ps IH]; intros [|[k2 w] qs] Hkeys;
    try discriminate; [done|].
  simpl in *. injection Hkeys as -> Hkeys.
  destruct (String.eqb k k2); [discriminate|]. by apply IH.
Qed.

(** A member of an owned object is owned in a range inside the range of
    the object, and the object is owned again once the member is
    replaced by a tree owned in that range. *)
Lemma owns_lookup h ts cs lo hi k c :
  owns h ts cs lo hi ->
  lookup_prop k ts = Some c ->
  exists vc lo' hi',
    lookup_prop k cs = Some vc
    /\ (lo <= lo')%nat /\ (hi' <= hi)%nat
    /\ own h c vc lo' hi'
    /\ forall h' c',
         (forall l, ~ (lo' <= l < hi')%nat -> h' !! l = h !! l) ->
         own h' c' vc lo' hi' ->
         owns h' (assign_prop k c' ts) cs lo hi.
Proof.
  induction 1 as [|k1 t v ts cs lo mid hi Hown Howns IH]; simpl; [discriminate|].
  pose proof (own_range _ _ _ _ _ Hown) as Hr1.
  pose proof (owns_range _ _ _ _ _ Howns) as Hr2.
  destruct (String.eqb k k1) eqn:Hk.
  - intros [= <-]. exists v, lo, mid. split; [done|].
    split; [lia|]. split; [done|]. split; [done|].
    intros h' c' Hsame Hc'. apply String.eqb_eq in Hk as ->.
    econstructor; [exact Hc'|].
    eapply owns_frame; [exact Howns|]. intros l Hl. apply Hsame. lia.
  - intros Hc. destruct (IH Hc) as (vc & lo' & hi' & Hvc & Hlo & Hhi & Hownc & Hput).
    exists vc, lo', hi'. split; [done|]. split; [lia|]. split; [done|].
    split; [done|].
    intros h' c' Hsame Hc'. econstructor.
    + eapply own_frame; [exact Hown|]. intros l Hl. apply Hsame. lia.
    + by apply Hput.
Qed.

Lemma own_pure_leaf h t v lo hi :
  own h t v lo hi -> pure_to 1 t ->
  (exists p, t = Leaf (VPrim p) /\ v = VPrim p)
  \/ (exists a ts cs l,
        t = Node a ts /\ v = VRef l /\ (l < hi)%nat
        /\ h !! l = Some {| isArrayCell := a; props := cs |}
        /\ owns h ts cs lo l).
Proof.
  destruct 1 as [x lo hi Hle|a ts cs l lo hi Hl Hcell Howns]; simpl.
  - destruct x as [p|l]; [|done]. intros _. left. by exists p.
  - intros _. right. by exists a, ts, cs, l.
Qed.

Lemma pure_to_leaf_prim d p : pure_to d (Leaf (VPrim p)).
Proof. by destruct d. Qed.

Lemma pure_to_lookup d a ts k c :
  pure_to (S d) (Node a ts) -> lookup_prop k ts = Some c -> pure_to d c.
Proof.
  simpl. induction ts as [|[k1 t] ts IH]; simpl; [discriminate|].
  intros [Ht Hts]. destruct (String.eqb k k1); [by intros [= <-]|]. by apply IH.
Qed.

Lemma pure_to_child d t k c :
  pure_to (S d) t -> child t k = Ok c -> pure_to d c.
Proof.
  destruct t as [[p|l]|a ts]; [| done |].
  - intros _. simpl. destruct (prim_get p k); simpl; [|discriminate].
    intros [= <-]. apply pure_to_leaf_prim.
  - intros Hpure. simpl. unfold props_get.
    destruct (lookup_prop k ts) as [c'|] eqn:Hlook.
    + intros [= <-]. by eapply pure_to_lookup.
    + destruct (a && String.eqb k "length"); intros [= <-];
        apply pure_to_leaf_prim.
Qed.

Lemma pure_to_one d t : pure_to (S d) t -> pure_to 1 t.
Proof.
  destruct t as [[p|l]|a ts]; simpl; try done.
  induction ts as [|[k t] ts IH]; simpl; [done|].
  intros [_ H]. split; [done|]. by apply IH.
Qed.

(** One property read on an owned tree. *)
Lemma own_get h t v lo hi k :
  own h t v lo hi -> pure_to 1 t ->
  match child t k with
  | Throw e => heap_get h v k = Throw e
  | Ok c =>
      exists vc lo' hi',
        heap_get h v k = Ok vc
        /\ (lo <= lo')%nat /\ (hi' <= hi)%nat /\ own h c vc lo' hi'
  end.
Proof.
  intros Hown Hpure.
  destruct (own_pure_leaf _ _ _ _ _ Hown Hpure)
    as [(p & -> & ->)|(a & ts & cs & l & -> & -> & Hl & Hcell & Howns)].
  - simpl. destruct (prim_get p k) as [p'|e]; simpl; [|done].
    apply own_range in Hown.
    exists (VPrim p'), lo, lo. repeat split; try lia. by constructor.
  - simpl. rewrite Hcell. cbn [isArrayCell props]. unfold props_get.
    pose proof (owns_range _ _ _ _ _ Howns) as Hr.
    destruct (lookup_prop k ts) as [c|] eqn:Hlook.
    + destruct (owns_lookup _ _ _ _ _ _ _ Howns Hlook)
        as (vc & lo' & hi' & -> & Hlo & Hhi & Hc & _).
      exists vc, lo', hi'. repeat split; try done; lia.
    + rewrite (lookup_prop_none_keys ts cs k (owns_keys _ _ _ _ _ Howns) Hlook).
      unfold array_items.
      rewrite (items_from_length ts cs 0 (owns_keys _ _ _ _ _ Howns)).
      destruct (a && String.eqb k "length").
      * exists (VPrim (PNum (Z.of_nat (length (items_from 0 cs))))), lo, lo.
        repeat split; try lia. by constructor.
      * exists undefined, lo, lo. repeat split; try lia. by constructor.
Qed.

(** A chain of property reads on an owned tree. *)
Lemma own_path_get path : forall h t v lo hi,
  own h t v lo hi -> pure_to (S (length path)) t ->
  match descend t path with
  | Throw e => path_get h v path = Throw e
  | Ok c =>
      exists vc lo' hi',
        path_get h v path = Ok vc
        /\ (lo <= lo')%nat /\ (hi' <= hi)%nat /\ own h c vc lo' hi'
        /\ pure_to 1 c
  end.
Proof.
  induction path as [|k rest IH]; intros h t v lo hi Hown Hpure.
  - simpl. exists v, lo, hi. repeat split; try done; lia.
  - cbn [descend path_get].
    pose proof (pure_to_one _ _ Hpure) as Hpure1.
    pose proof (own_get _ _ _ _ _ k Hown Hpure1) as Hget.
    destruct (child t k) as [c|e] eqn:Hchild; simpl.
    + destruct Hget as (vc & lo1 & hi1 & -> & Hlo & Hhi & Hc). simpl.
      pose proof (pure_to_child _ _ _ _ Hpure Hchild) as Hpc.
      specialize (IH h c vc lo1 hi1 Hc Hpc).
      destruct (descend c rest) as [c'|e]; [|done].
      destruct IH as (vc' & lo2 & hi2 & -> & ? & ? & ? & ?).
      exists vc', lo2, hi2. repeat split; try done; lia.
    + by rewrite Hget.
Qed.

(** *** Assigning into a tree *)

Lemma owns_assign_leaf h ts cs lo hi k x :
  owns h ts cs lo hi ->
  owns h (assign_prop k (Leaf x) ts) (assign_prop k x cs) lo hi.
Proof.
  induction 1 as [lo hi Hle|k1 t v ts cs lo mid hi Hown Howns IH]; simpl.
  - econstructor; [|by constructor]. by constructor.
  - destruct (String.eqb k k1).
    + econstructor; [|exact Howns]. constructor. by eapply own_range.
    + econstructor; [exact Hown|exact IH].
Qed.

Lemma descend_leaf path : forall p,
  match descend (Leaf (VPrim p)) path with
  | Ok (Node _ _) => False
  | _ => True
  end.
Proof.
  induction path as [|k rest IH]; intros p; simpl; [done|].
  destruct (prim_get p k) as [p'|e]; simpl; [|done]. apply IH.
Qed.

(** The object at the end of a path in an owned tree is a cell of the
    range; assigning a property of that cell gives the tree with the
    same assignment made at the path. *)
Lemma own_update path : forall h t v lo hi a ts,
  own h t v lo hi -> pure_to (S (length path)) t ->
  descend t path = Ok (Node a ts) ->
  exists l cs lo',
    path_get h v path = Ok (VRef l)
    /\ (lo <= l < hi)%nat
    /\ h !! l = Some {| isArrayCell := a; props := cs |}
    /\ owns h ts cs lo' l
    /\ forall k x,
         own (<[l := {| isArrayCell := a; props := assign_prop k x cs |}]> h)
           (graft t path (Node a (assign_prop k (Leaf x) ts))) v lo hi.
Proof.
  induction path as [|k1 rest IH]; intros h t v lo hi a ts Hown Hpure Hdesc.
  - simpl in Hdesc. injection Hdesc as ->.
    inversion Hown as [|a' ts' cs l lo0 hi0 Hl Hcell Howns]; subst.
    pose proof (owns_range _ _ _ _ _ Howns) as Hr.
    exists l, cs, lo. split; [done|]. split; [lia|]. split; [done|].
    split; [done|]. intros k x. simpl. econstructor; [done| |].
    + apply list_lookup_insert_eq. by eapply lookup_lt_Some.
    + eapply owns_frame; [by apply owns_assign_leaf|].
      intros l' Hl'. apply list_lookup_insert_ne. lia.
  - cbn [descend] in Hdesc.
    destruct (own_pure_leaf _ _ _ _ _ Hown (pure_to_one _ _ Hpure))
      as [(p & -> & ->)|(a0 & ts0 & cs0 & l0 & -> & -> & Hl0 & Hcell0 & Howns0)].
    { exfalso. pose proof (descend_leaf (k1 :: rest) p) as Hleaf.
      cbn [descend] in Hleaf. by rewrite Hdesc in Hleaf. }
    pose proof (owns_range _ _ _ _ _ Howns0) as Hr0.
    cbn [child] in Hdesc. simpl in Hdesc. unfold props_get in Hdesc.
    destruct (lookup_prop k1 ts0) as [c|] eqn:Hlook.
    2:{ exfalso. unfold undefined in Hdesc.
        destruct (a0 && String.eqb k1 "length");
          match type of Hdesc with
          | descend (Leaf (VPrim ?p)) _ = _ =>
              pose proof (descend_leaf rest p) as Hleaf
          end; by rewrite Hdesc in Hleaf. }
    destruct (owns_lookup _ _ _ _ _ _ _ Howns0 Hlook)
      as (vc & lo1 & hi1 & Hvc & Hlo1 & Hhi1 & Hc & Hput).
    assert (Hpc : pure_to (S (length rest)) c).
    { eapply pure_to_lookup; [exact Hpure|exact Hlook]. }
    destruct (IH h c vc lo1 hi1 a ts Hc Hpc Hdesc)
      as (l & cs & lo' & Hpath & Hl & Hcell & Howns & Hassign).
    exists l, cs, lo'. split.
    { cbn [path_get heap_get]. rewrite Hcell0. cbn [isArrayCell props].
      unfold props_get. rewrite Hvc. simpl. exact Hpath. }
    split; [lia|]. split; [done|]. split; [done|].
    intros k x. cbn [graft child]. unfold props_get. rewrite Hlook.
    cbn [put]. econstructor; [done| |].
    + rewrite list_lookup_insert_ne by lia. exact Hcell0.
    + apply Hput; [|apply Hassign].
      intros l' Hl'. apply list_lookup_insert_ne. lia.
Qed.

Lemma pure_to_assign d k c ts :
  (fix all (ts : list (string * vtree)) : Prop :=
     match ts with
     | [] => True
     | (_, t') :: ts' => pure_to d t' /\ all ts'
     end) ts ->
  pure_to d c ->
  (fix all (ts : list (string * vtree)) : Prop :=
     match ts with
     | [] => True
     | (_, t') :: ts' => pure_to d t' /\ all ts'
     end) (assign_prop k c ts).
Proof.
  induction ts as [|[k1 t] ts IH]; simpl; [done|].
  intros [Ht Hts] Hc. destruct (String.eqb k k1); simpl; [done|].
  split; [done|]. by apply IH.
Qed.

(** Replacing the subtree at a path by an object keeps the leaves above
    the depth of the path primitive. *)
Lemma pure_to_graft path : forall t a ts d,
  pure_to (length path + d) t ->
  pure_to d (Node a ts) ->
  pure_to (length path + d) (graft t path (Node a ts)).
Proof.
  induction path as [|k rest IH]; intros t a ts d Ht Hsub; [done|].
  cbn [graft length Nat.add] in *.
  destruct (child t k) as [c|e] eqn:Hchild; [|done].
  destruct t as [v|a0 ts0]; [done|]. cbn [put].
  cbn [pure_to]. apply pure_to_assign; [exact Ht|].
  apply IH; [|done]. by eapply pure_to_child.
Qed.

(** *** [parseInt] of a printed integer *)

Lemma digit_value_pretty d :
  (d < 10)%N -> digit_value 10 (pretty_N_char d) = Some d.
Proof.
  intros Hd. destruct d as [|p]; [done|].
  do 4 (destruct p as [p|p|]; try lia; try reflexivity).
Qed.

Lemma scan_pretty_go x : forall s seen,
  (0 < x)%N ->
  scan_digits 10 seen 0 (pretty_N_go x s) = scan_digits 10 true x s.
Proof.
  induction (N.lt_wf_0 x) as [x _ IH]; intros s seen Hx.
  rewrite pretty_N_go_step by done.
  assert (Hd : (x `mod` 10 < 10)%N) by (apply N.mod_lt; lia).
  pose proof (N.div_mod' x 10) as Hx10.
  destruct (decide (x `div` 10 = 0)%N) as [Hq|Hq].
  - rewrite Hq, pretty_N_go_0. cbn [scan_digits].
    rewrite (digit_value_pretty _ Hd). f_equal. lia.
  - rewrite IH; [|apply N.div_lt; lia|lia]. cbn [scan_digits].
    rewrite (digit_value_pretty _ Hd). f_equal. lia.
Qed.

(** A printed number starts with a digit, and a digit follows it if
    anything does. *)
Lemma pretty_go_head x : forall s,
  (0 < x)%N ->
  exists d rest,
    (d < 10)%N
    /\ pretty_N_go x s = String (pretty_N_char d) rest
    /\ (rest = s
        \/ exists d2 rest2,
             (d2 < 10)%N /\ rest = String (pretty_N_char d2) rest2).
Proof.
  induction (N.lt_wf_0 x) as [x _ IH]; intros s Hx.
  rewrite pretty_N_go_step by done.
  assert (Hd : (x `mod` 10 < 10)%N) by (apply N.mod_lt; lia).
  destruct (decide (x `div` 10 = 0)%N) as [Hq|Hq].
  - rewrite Hq, pretty_N_go_0. exists (x `mod` 10)%N, s. by auto.
  - assert (Hlt : (x `div` 10 < x)%N) by (apply N.div_lt; lia).
    assert (Hpos : (0 < x `div` 10)%N) by by apply N.neq_0_lt_0.
    destruct (IH _ Hlt (String (pretty_N_char (x `mod` 10)) s) Hpos)
      as (d & rest & Hd' & -> & Hrest).
    exists d, rest. split; [done|]. split; [done|]. right.
    destruct Hrest as [->|Hrest]; [|done]. by eauto.
Qed.

Lemma parseInt_digits d rest :
  (d < 10)%N ->
  rest = EmptyString
  \/ (exists d2 rest2, (d2 < 10)%N /\ rest = String (pretty_N_char d2) rest2) ->
  let s := String (pretty_N_char d) rest in
  parseInt_string s
  = match scan_digits 10 false 0 s with
    | Some n => PNum (Z.of_N n)
    | None => PNaN
    end
  /\ parseInt_string (String "-" s)
    = match scan_digits 10 false 0 s with
      | Some n => PNum (- Z.of_N n)
      | None => PNaN
      end.
Proof.
  intros Hd Hrest.
  assert (Hcases : In d [0; 1; 2; 3; 4; 5; 6; 7; 8; 9]%N).
  { destruct d as [|p]; [by left|].
    do 4 (destruct p as [p|p|]; try lia; simpl; auto 11). }
  destruct Hrest as [->|(d2 & rest2 & Hd2 & ->)].
  - simpl in Hcases. by repeat (destruct Hcases as [<-|Hcases]; [done|]).
  - assert (Hcases2 : In d2 [0; 1; 2; 3; 4; 5; 6; 7; 8; 9]%N).
    { destruct d2 as [|p]; [by left|].
      do 4 (destruct p as [p|p|]; try lia; simpl; auto 11). }
    simpl in Hcases, Hcases2.
    repeat (destruct Hcases as [<-|Hcases]; [|]); try done;
      repeat (destruct Hcases2 as [<-|Hcases2]; [done|]); done.
Qed.

(** [parseInt(String(z))] is [z]. *)
Lemma parseInt_pretty (z : Z) : parseInt_string (pretty z) = PNum z.
Proof.
  assert (Hpos : forall p,
    parseInt_string (pretty (Npos p)) = PNum (Z.pos p)
    /\ parseInt_string (String "-" (pretty (Npos p))) = PNum (Z.neg p)).
  { intros p. unfold pretty, pretty_N.
    destruct (decide (N.pos p = 0%N)) as [|_]; [done|].
    destruct (pretty_go_head (N.pos p) "") as (d & rest & Hd & Hhead & Hrest);
      [lia|].
    pose proof (scan_pretty_go (N.pos p) "" false) as Hscan.
    rewrite Hhead in *.
    destruct (parseInt_digits d rest Hd Hrest) as [H1 H2].
    cbv zeta in H1, H2. rewrite Hscan in H1, H2 by lia. simpl in H1, H2.
    by rewrite H1, H2. }
  destruct z as [|p|p].
  - reflexivity.
  - apply Hpos.
  - apply Hpos.
Qed.

(** *** The steps of the function on the store and on the tree *)

Lemma pure_to_1_node a ts : pure_to 1 (Node a ts).
Proof. simpl. induction ts as [|[k t] ts IH]; simpl; done. Qed.

Section Steps.

Variable h0 : heap.
Variable n1 : nat.
Variable r : value.

Local Abbreviation inv := (copy_inv h0 n1 r).

Lemma hasNode_sim h t nodeId :
  inv h t -> hasNode r nodeId h = (hasNodeT nodeId t, h).
Proof.
  intros [Hown Hpure _ _].
  unfold hasNode, hasNodeT, andThen, get, read, pure.
  pose proof (own_get _ _ _ _ _ "prompt" Hown (pure_to_one _ _ Hpure)) as H1.
  destruct (child t "prompt") as [tp|e] eqn:Hchild; [|by rewrite H1].
  destruct H1 as (vp & lo1 & hi1 & -> & _ & _ & Hownp). simpl.
  rewrite (own_truthy _ _ _ _ _ Hownp).
  destruct (value_truthy vp); [|done].
  pose proof (pure_to_child _ _ _ _ Hpure Hchild) as Hpp.
  pose proof (own_get _ _ _ _ _ nodeId Hownp (pure_to_one _ _ Hpp)) as H2.
  destruct (child tp nodeId) as [tn|e]; [|by rewrite H2].
  destruct H2 as (vn & lo2 & hi2 & -> & _ & _ & Hownn). simpl.
  by rewrite (own_truthy _ _ _ _ _ Hownn).
Qed.

Lemma assignAt_path nodeId key rhs h :
  assignAt r nodeId key rhs h
  = match path_get h r ["prompt"; nodeId; "inputs"] with
    | Throw e => (Throw e, h)
    | Ok base =>
        match rhs h with
        | Throw e => (Throw e, h)
        | Ok x =>
            match heap_set h base key x with
            | Throw e => (Throw e, h)
            | Ok h' => (Ok tt, h')
            end
        end
    end.
Proof.
  unfold assignAt, andThen, get, set, read, write. cbn [path_get].
  destruct (heap_get h r "prompt") as [vp|e]; [|done]. simpl.
  destruct (heap_get h vp nodeId) as [vn|e]; [|done]. simpl.
  destruct (heap_get h vn "inputs") as [vb|e]; [|done]. simpl.
  destruct (rhs h) as [x|e]; [|done]. done.
Qed.

Lemma assignAtT_path nodeId key rhs t :
  assignAtT nodeId key rhs t
  = match descend t ["prompt"; nodeId; "inputs"] with
    | Throw e => (Throw e, t)
    | Ok base =>
        match rhs with
        | Throw e => (Throw e, t)
        | Ok x =>
            match assignLeaf base key x with
            | Throw e => (Throw e, t)
            | Ok base' => (Ok tt, graft t ["prompt"; nodeId; "inputs"] base')
            end
        end
    end.
Proof.
  unfold assignAtT. cbn [descend graft].
  destruct (child t "prompt") as [tp|e]; [|done]. simpl.
  destruct (child tp nodeId) as [tn|e]; [|done]. simpl.
  destruct (child tn "inputs") as [tb|e]; [|done]. simpl.
  destruct rhs as [x|e]; [|done]. simpl.
  destruct (assignLeaf tb key x) as [tb'|e]; done.
Qed.

(** An assignment into the copy is the same assignment on the tree. *)
Lemma assignAt_sim h t nodeId key rhs :
  inv h t ->
  exists t',
    assignAtT nodeId key (rhs h) t
    = (fst (assignAt r nodeId key rhs h), t')
    /\ inv (snd (assignAt r nodeId key rhs h)) t'.
Proof.
  intros Hinv. pose proof Hinv as [Hown Hpure Hlen Hold].
  rewrite assignAt_path, assignAtT_path.
  pose proof (own_path_get ["prompt"; nodeId; "inputs"] _ _ _ _ _ Hown Hpure)
    as Hpath.
  destruct (descend t ["prompt"; nodeId; "inputs"]) as [tb|e] eqn:Hdesc.
  2:{ rewrite Hpath. by exists t. }
  destruct Hpath as (vb & lo' & hi' & Hvb & Hlo & Hhi & Hownb & Hpb).
  rewrite Hvb. destruct (rhs h) as [x|e]; [|by exists t].
  destruct (own_pure_leaf _ _ _ _ _ Hownb Hpb)
    as [(p & -> & ->)|(a & ts & cs & l & -> & -> & Hl & Hcell & Howns)].
  - (* the base is a primitive: the assignment throws *)
    assert (Hthrow : exists e, forall h', heap_set h' (VPrim p) key x = Throw e).
    { destruct p; simpl; eauto. }
    destruct Hthrow as [e He]. cbn [assignLeaf].
    rewrite (He []), (He h). simpl. by exists t.
  - (* the base is an object of the copy *)
    destruct (own_update ["prompt"; nodeId; "inputs"] _ _ _ _ _ _ _
                Hown Hpure Hdesc)
      as (l' & cs' & lo'' & Hpath' & Hl' & Hcell' & _ & Hassign).
    rewrite Hvb in Hpath'. injection Hpath' as <-.
    rewrite Hcell in Hcell'. injection Hcell' as <-.
    cbn [assignLeaf heap_set]. rewrite Hcell. cbn [isArrayCell props fst snd].
    eexists. split; [reflexivity|]. split.
    + apply Hassign.
    + apply (pure_to_graft ["prompt"; nodeId; "inputs"] t a _ 1 Hpure).
      apply pure_to_1_node.
    + by rewrite length_insert.
    + intros l0 Hl0. rewrite list_lookup_insert_ne by lia. by apply Hold.
Qed.

Lemma injectText_sim h t nodeId rhs :
  inv h t ->
  exists t',
    injectTextT nodeId (rhs h) t = (fst (injectText r nodeId rhs h), t')
    /\ inv (snd (injectText r nodeId rhs h)) t'.
Proof.
  intros Hinv. unfold injectText, injectTextT, andThen.
  rewrite (hasNode_sim h t nodeId Hinv).
  destruct (hasNodeT nodeId t) as [[]|e]; [|by exists t..].
  apply (assignAt_sim h t nodeId "text" rhs Hinv).
Qed.

Lemma own_in h t v lo hi k :
  own h t v lo hi -> pure_to 1 t -> heap_in h k v = inT k t.
Proof.
  intros Hown Hpure.
  destruct (own_pure_leaf _ _ _ _ _ Hown Hpure)
    as [(p & -> & ->)|(a & ts & cs & l & -> & -> & Hl & Hcell & Howns)].
  - done.
  - simpl. rewrite Hcell. cbn [isArrayCell props]. unfold has_prop.
    destruct (lookup_prop k ts) as [c|] eqn:Hlook.
    + destruct (owns_lookup _ _ _ _ _ _ _ Howns Hlook) as (vc & ? & ? & -> & _).
      done.
    + by rewrite (lookup_prop_none_keys ts cs k (owns_keys _ _ _ _ _ Howns) Hlook).
Qed.

Lemma own_is_str h t v lo hi s :
  own h t v lo hi -> is_str v s = is_strT t s.
Proof. by destruct 1. Qed.

Lemma own_keys h t v lo hi :
  own h t v lo hi -> pure_to 1 t -> heap_keys h v = keysT t.
Proof.
  intros Hown Hpure.
  destruct (own_pure_leaf _ _ _ _ _ Hown Hpure)
    as [(p & -> & ->)|(a & ts & cs & l & -> & -> & Hl & Hcell & Howns)].
  - by destruct p.
  - simpl. rewrite Hcell. simpl. symmetry. by eapply owns_keys.
Qed.

Lemma wantsSeed_sim h t nodeId :
  inv h t -> wantsSeed h r nodeId = wantsSeedT nodeId t.
Proof.
  intros [Hown Hpure _ _]. unfold wantsSeed, wantsSeedT.
  pose proof (own_get _ _ _ _ _ "prompt" Hown (pure_to_one _ _ Hpure)) as H1.
  destruct (child t "prompt") as [tp|e] eqn:Hc1; [|by rewrite H1].
  destruct H1 as (vp & lo1 & hi1 & -> & _ & _ & Hownp). simpl.
  pose proof (pure_to_child _ _ _ _ Hpure Hc1) as Hpp.
  pose proof (own_get _ _ _ _ _ nodeId Hownp (pure_to_one _ _ Hpp)) as H2.
  destruct (child tp nodeId) as [tn|e] eqn:Hc2; [|by rewrite H2].
  destruct H2 as (vn & lo2 & hi2 & -> & _ & _ & Hownn). simpl.
  pose proof (pure_to_child _ _ _ _ Hpp Hc2) as Hpn.
  pose proof (own_get _ _ _ _ _ "class_type" Hownn (pure_to_one _ _ Hpn)) as H3.
  destruct (child tn "class_type") as [tc|e] eqn:Hc3; [|by rewrite H3].
  destruct H3 as (vc & lo3 & hi3 & -> & _ & _ & Hownc). simpl.
  rewrite (own_is_str _ _ _ _ _ "KSampler" Hownc).
  destruct (is_strT tc "KSampler"); [|done].
  pose proof (own_get _ _ _ _ _ "inputs" Hownn (pure_to_one _ _ Hpn)) as H4.
  destruct (child tn "inputs") as [ti|e] eqn:Hc4; [|by rewrite H4].
  destruct H4 as (vi & lo4 & hi4 & -> & _ & _ & Howni). simpl.
  rewrite (own_truthy _ _ _ _ _ Howni).
  destruct (value_truthy vi); [|done].
  apply (own_in _ _ _ _ _ "seed" Howni).
  exact (pure_to_child _ _ _ _ Hpn Hc4).
Qed.

Lemma seedNode_unfold inputs nodeId h :
  seedNode r inputs nodeId h
  = match wantsSeed h r nodeId with
    | Ok true => assignAt r nodeId "seed" (parsedSeed inputs) h
    | Ok false => (Ok tt, h)
    | Throw e => (Throw e, h)
    end.
Proof.
  unfold seedNode, wantsSeed, assignAt, parsedSeed, andThen, get, set, read,
    write, pure.
  destruct (heap_get h r "prompt") as [vp|e]; [|done]. simpl.
  destruct (heap_get h vp nodeId) as [vn|e]; [|done]. simpl.
  destruct (heap_get h vn "class_type") as [vc|e]; [|done]. simpl.
  destruct (is_str vc "KSampler"); [|done].
  destruct (heap_get h vn "inputs") as [vi|e] eqn:Hvi; [|done]. simpl.
  destruct (value_truthy vi); [|done].
  destruct (heap_in h "seed" vi) as [[]|e]; [|done..].
  rewrite Hvi.
  destruct (heap_get h inputs "seed") as [seed|e]; done.
Qed.

Lemma seedNode_sim h t inputs nodeId :
  inv h t ->
  exists t',
    seedNodeT (parsedSeed inputs h) nodeId t
    = (fst (seedNode r inputs nodeId h), t')
    /\ inv (snd (seedNode r inputs nodeId h)) t'.
Proof.
  intros Hinv. rewrite seedNode_unfold. unfold seedNodeT.
  rewrite (wantsSeed_sim h t nodeId Hinv).
  destruct (wantsSeedT nodeId t) as [[]|e]; [|by exists t..].
  apply (assignAt_sim h t nodeId "seed" (parsedSeed inputs) Hinv).
Qed.

(** The loop keeps the state of the copy, whatever the reads of the
    inputs give at each turn. *)
Lemma forEach_seedNode_inv inputs keys : forall h t,
  inv h t -> exists t', inv (snd (forEach (seedNode r inputs) keys h)) t'.
Proof.
  induction keys as [|k rest IH]; intros h t Hinv; [by exists t|].
  cbn [forEach]. unfold andThen.
  destruct (seedNode_sim h t inputs k Hinv) as (t' & _ & Hinv').
  destruct (seedNode r inputs k h) as [[[]|e] h']; simpl in Hinv'.
  - by apply (IH h' t').
  - by exists t'.
Qed.

(** The loop on the store is the loop on the tree when the value of
    [parseInt(inputs.seed)] is the same at every turn. *)
Lemma forEach_seedNode_sim inputs parsed keys : forall h t,
  inv h t ->
  (forall h' t', inv h' t' -> parsedSeed inputs h' = parsed) ->
  exists t',
    forEachT (seedNodeT parsed) keys t
    = (fst (forEach (seedNode r inputs) keys h), t')
    /\ inv (snd (forEach (seedNode r inputs) keys h)) t'.
Proof.
  induction keys as [|k rest IH]; intros h t Hinv Hparsed; [by exists t|].
  cbn [forEach forEachT]. unfold andThen.
  destruct (seedNode_sim h t inputs k Hinv) as (t' & Hstep & Hinv').
  rewrite (Hparsed h t Hinv) in Hstep. rewrite Hstep.
  destruct (seedNode r inputs k h) as [[[]|e] h']; simpl in *.
  - by apply (IH h' t').
  - by exists t'.
Qed.

Lemma injectSeed_inv inputs h t :
  inv h t -> exists t', inv (snd (injectSeed r inputs h)) t'.
Proof.
  intros Hinv. unfold injectSeed, andThen, get, read, pure.
  destruct (heap_get h inputs "seed") as [seed|e]; [|by exists t]. simpl.
  destruct (value_truthy seed); [|by exists t].
  destruct (heap_get h r "prompt") as [vp|e] eqn:Hvp; [|by exists t]. simpl.
  destruct (value_truthy vp); [|by exists t].
  rewrite Hvp. simpl.
  by apply (forEach_seedNode_inv inputs _ h t).
Qed.

Lemma injectSeed_sim inputs parsed h t :
  inv h t ->
  (forall h' t', inv h' t' -> parsedSeed inputs h' = parsed) ->
  exists t',
    injectSeedT (heap_get h inputs "seed") parsed t
    = (fst (injectSeed r inputs h), t')
    /\ inv (snd (injectSeed r inputs h)) t'.
Proof.
  intros Hinv Hparsed. pose proof Hinv as [Hown Hpure _ _].
  unfold injectSeed, injectSeedT, andThen, get, read, pure.
  destruct (heap_get h inputs "seed") as [seed|e]; [|by exists t]. simpl.
  destruct (value_truthy seed); [|by exists t].
  pose proof (own_get _ _ _ _ _ "prompt" Hown (pure_to_one _ _ Hpure)) as H1.
  destruct (child t "prompt") as [tp|e] eqn:Hc1; [|rewrite H1; by exists t].
  destruct H1 as (vp & lo1 & hi1 & Hvp & _ & _ & Hownp). rewrite Hvp. simpl.
  rewrite (own_truthy _ _ _ _ _ Hownp).
  destruct (value_truthy vp); [|by exists t].
  rewrite Hvp. simpl.
  rewrite (own_keys _ _ _ _ _ Hownp
             (pure_to_one _ _ (pure_to_child _ _ _ _ Hpure Hc1))).
  by apply forEach_seedNode_sim.
Qed.

(** The [switch] keeps the state of the copy, in each of its cases, and
    makes assignments of [text] only. *)
Lemma injectText_steps h t nodeId rhs :
  inv h t ->
  exists t', inv (snd (injectText r nodeId rhs h)) t' /\ textSteps t t'.
Proof.
  intros Hinv.
  destruct (injectText_sim h t nodeId rhs Hinv) as (t' & Hstep & Hinv').
  exists t'. split; [done|].
  pose proof (TreeFacts.injectTextT_textSteps nodeId (rhs h) t) as Hsteps.
  by rewrite Hstep in Hsteps.
Qed.

Lemma assignText_steps h t nodeId rhs :
  inv h t ->
  exists t', inv (snd (assignText r nodeId rhs h)) t' /\ textSteps t t'.
Proof.
  intros Hinv.
  destruct (assignAt_sim h t nodeId "text" rhs Hinv) as (t' & Hstep & Hinv').
  exists t'. split; [done|].
  pose proof (TreeFacts.assignAtT_textSteps nodeId (rhs h) t) as Hsteps.
  by rewrite Hstep in Hsteps.
Qed.

Lemma injectByName_inv workflowName inputs h t :
  inv h t ->
  exists t',
    inv (snd (injectByName r workflowName inputs h)) t' /\ textSteps t t'.
Proof.
  intros Hinv. unfold injectByName.
  assert (Hstay : exists t', inv h t' /\ textSteps t t').
  { exists t. split; [done|constructor]. }
  destruct (String.eqb workflowName "fashion-sketch").
  { unfold andThen.
    destruct (injectText_steps h t "6"
                (orElse (field inputs "prompt_text")
                   (orElse (field inputs "prompt") (constant "fashion sketch")))
                Hinv) as (t1 & Hinv1 & Hsteps1).
    destruct (injectText r "6" _ h) as [[[]|e] h1]; simpl in Hinv1;
      [|by exists t1].
    destruct (injectText_steps h1 t1 "7"
                (orElse (field inputs "negative_prompt")
                   (constant "bad anatomy, low quality")) Hinv1)
      as (t2 & Hinv2 & Hsteps2).
    exists t2. split; [done|]. by eapply TreeFacts.textSteps_trans. }
  destruct (String.eqb workflowName "pattern-generation").
  { unfold andThen. rewrite (hasNode_sim h t "6" Hinv).
    destruct (hasNodeT "6" t) as [[]|e]; [|done..].
    unfold read. destruct (patternPrompt inputs h) as [p|e]; [|done].
    apply (assignText_steps h t "6" (fun _ => Ok p) Hinv). }
  destruct (String.eqb workflowName "model-visualization").
  { unfold andThen. rewrite (hasNode_sim h t "6" Hinv).
    destruct (hasNodeT "6" t) as [[]|e]; [|done..].
    unfold read. destruct (modelPrompt inputs h) as [p|e]; [|done].
    apply (assignText_steps h t "6" (fun _ => Ok p) Hinv). }
  unfold andThen, get, read, pure.
  destruct (heap_get h inputs "prompt_text") as [pt|e]; [|done]. simpl.
  destruct (value_truthy pt); [|done].
  rewrite (hasNode_sim h t "6" Hinv).
  destruct (hasNodeT "6" t) as [[]|e]; [|done..].
  apply (assignText_steps h t "6" (field inputs "prompt_text") Hinv).
Qed.

(** *** The inputs during the [try] *)

Lemma inputs_stable h t inputs k :
  in_store h0 inputs = true -> inv h t ->
  heap_get h inputs k = heap_get h0 inputs k.
Proof.
  intros Hin [_ _ _ Hold]. destruct inputs as [p|l]; [done|].
  unfold in_store in Hin. apply Nat.ltb_lt in Hin.
  unfold heap_get. by rewrite (Hold l Hin).
Qed.

Lemma parseInt_prim h p :
  parseInt h (VPrim p) = VPrim (parseInt_string (prim_to_string p)).
Proof. unfold parseInt, to_string. by destruct (length h). Qed.

Lemma parsedSeed_stable h t inputs :
  in_store h0 inputs = true -> seedIsPrimitive h0 inputs = true -> inv h t ->
  parsedSeed inputs h = parsedSeed inputs h0.
Proof.
  intros Hin Hprim Hinv. unfold parsedSeed.
  rewrite (inputs_stable _ _ _ _ Hin Hinv). unfold seedIsPrimitive in Hprim.
  destruct (heap_get h0 inputs "seed") as [[p|l]|e]; simpl; [|done|done].
  by rewrite !parseInt_prim.
Qed.

Lemma heap_get_given h v k :
  is_given v = true -> exists x, heap_get h v k = Ok x.
Proof.
  destruct v as [p|l]; simpl.
  - intros Hp. apply negb_true_iff in Hp.
    destruct (ExtractorFacts.prim_get_ok p k Hp) as [p' ->]. by eexists.
  - intros _. destruct (h !! l); by eexists.
Qed.

Lemma orElse_given h inputs k b :
  is_given inputs = true -> (exists y, b h = Ok y) ->
  exists x, orElse (field inputs k) b h = Ok x.
Proof.
  intros Hgiven [y Hy]. unfold orElse, field.
  destruct (heap_get_given h inputs k Hgiven) as [x ->]. simpl.
  destruct (value_truthy x); by eexists.
Qed.

Lemma patternPrompt_given h inputs :
  is_given inputs = true -> exists x, patternPrompt inputs h = Ok x.
Proof.
  intros Hgiven. unfold patternPrompt.
  destruct (orElse_given h inputs "pattern_type" (constant "floral") Hgiven)
    as [x1 ->]; [by eexists|].
  destruct (orElse_given h inputs "colors" (constant "colorful") Hgiven)
    as [x2 ->]; [by eexists|].
  by eexists.
Qed.

Lemma modelPrompt_given h inputs :
  is_given inputs = true -> exists x, modelPrompt inputs h = Ok x.
Proof.
  intros Hgiven. unfold modelPrompt.
  destruct (orElse_given h inputs "model_type" (constant "female") Hgiven)
    as [x1 ->]; [by eexists|].
  destruct (orElse_given h inputs "garment_description"
              (constant "fashionable clothing") Hgiven)
    as [x2 ->]; [by eexists|].
  by eexists.
Qed.

(** *** The seed of a node, read from the store *)

Lemma path_get_snoc h path : forall v k,
  path_get h v (path ++ [k])
  = let* v' := path_get h v path in heap_get h v' k.
Proof.
  induction path as [|k1 rest IH]; intros v k; simpl.
  - by destruct (heap_get h v k).
  - destruct (heap_get h v k1) as [v1|e]; simpl; [apply IH|done].
Qed.

Lemma descend_snoc path : forall t k,
  descend t (path ++ [k]) = let* c := descend t path in child c k.
Proof.
  induction path as [|k1 rest IH]; intros t k; simpl.
  - by destruct (child t k).
  - destruct (child t k1) as [c|e]; simpl; [apply IH|done].
Qed.

Lemma seedAt_sim h t k x :
  inv h t -> seedAt k t = Ok (Leaf x) ->
  path_get h r ["prompt"; k; "inputs"; "seed"] = Ok x.
Proof.
  intros [Hown Hpure _ _] Hseed. unfold seedAt in Hseed.
  change ["prompt"; k; "inputs"; "seed"]
    with (["prompt"; k; "inputs"] ++ ["seed"]) in *.
  rewrite descend_snoc in Hseed. rewrite path_get_snoc.
  pose proof (own_path_get ["prompt"; k; "inputs"] _ _ _ _ _ Hown Hpure)
    as Hpath.
  destruct (descend t ["prompt"; k; "inputs"]) as [c|e]; [|done].
  cbn [bind] in Hseed.
  destruct Hpath as (vc & lo & hi & -> & _ & _ & Hc & Hpc). cbn [bind].
  pose proof (own_get _ _ _ _ _ "seed" Hc Hpc) as Hget. rewrite Hseed in Hget.
  destruct Hget as (vs & lo' & hi' & -> & _ & _ & Hs). by inversion Hs.
Qed.

(** *** Well-formed templates *)

Lemma injectText_wf h t nodeId rhs :
  inv h t -> wellFormedTemplate t = true -> nodeId <> "length" ->
  (exists x, rhs h = Ok x) ->
  exists t',
    fst (injectText r nodeId rhs h) = Ok tt
    /\ inv (snd (injectText r nodeId rhs h)) t'
    /\ wellFormedTemplate t' = true.
Proof.
  intros Hinv Hwf Hid [x Hx].
  destruct (injectText_sim h t nodeId rhs Hinv) as (t' & Hstep & Hinv').
  rewrite Hx in Hstep.
  destruct (TreeFacts.injectTextT_wf nodeId x t Hwf Hid) as (t'' & Hstep' & Hwf').
  rewrite Hstep' in Hstep. injection Hstep as Hfst <-. by exists t''.
Qed.

Lemma injectByName_wf workflowName inputs h t :
  inv h t -> wellFormedTemplate t = true -> is_given inputs = true ->
  exists t',
    fst (injectByName r workflowName inputs h) = Ok tt
    /\ inv (snd (injectByName r workflowName inputs h)) t'
    /\ wellFormedTemplate t' = true.
Proof.
  intros Hinv Hwf Hgiven. unfold injectByName.
  destruct (String.eqb workflowName "fashion-sketch").
  { unfold andThen.
    destruct (injectText_wf h t "6"
                (orElse (field inputs "prompt_text")
                   (orElse (field inputs "prompt") (constant "fashion sketch")))
                Hinv Hwf) as (t1 & Hfst1 & Hinv1 & Hwf1); [done| |].
    { apply orElse_given; [done|]. apply orElse_given; [done|by eexists]. }
    destruct (injectText r "6" _ h) as [res1 h1]. simpl in Hfst1, Hinv1.
    rewrite Hfst1.
    apply (injectText_wf h1 t1 "7" _ Hinv1 Hwf1); [done|].
    apply orElse_given; [done|by eexists]. }
  assert (Htext : forall rhs, (exists x, rhs h = Ok x) ->
    exists t',
      fst (match hasNodeT "6" t with
           | Ok true => assignText r "6" rhs h
           | Ok false => (Ok tt, h)
           | Throw e => (Throw e, h)
           end) = Ok tt
      /\ inv (snd (match hasNodeT "6" t with
                   | Ok true => assignText r "6" rhs h
                   | Ok false => (Ok tt, h)
                   | Throw e => (Throw e, h)
                   end)) t'
      /\ wellFormedTemplate t' = true).
  { intros rhs Hrhs.
    pose proof (injectText_wf h t "6" rhs Hinv Hwf ltac:(done) Hrhs) as Hok.
    unfold injectText, andThen in Hok.
    rewrite (hasNode_sim h t "6" Hinv) in Hok.
    by destruct (hasNodeT "6" t) as [[]|e]. }
  destruct (String.eqb workflowName "pattern-generation").
  { unfold andThen. rewrite (hasNode_sim h t "6" Hinv).
    destruct (patternPrompt_given h inputs Hgiven) as [p Hp].
    specialize (Htext (fun _ => Ok p) ltac:(by eexists)).
    destruct (hasNodeT "6" t) as [[]|e]; [|done..].
    unfold read. by rewrite Hp. }
  destruct (String.eqb workflowName "model-visualization").
  { unfold andThen. rewrite (hasNode_sim h t "6" Hinv).
    destruct (modelPrompt_given h inputs Hgiven) as [p Hp].
    specialize (Htext (fun _ => Ok p) ltac:(by eexists)).
    destruct (hasNodeT "6" t) as [[]|e]; [|done..].
    unfold read. by rewrite Hp. }
  unfold andThen, get, read, pure.
  destruct (heap_get_given h inputs "prompt_text" Hgiven) as [pt Hpt].
  rewrite Hpt. cbn [fst snd].
  destruct (value_truthy pt); [|by exists t].
  rewrite (hasNode_sim h t "6" Hinv).
  specialize (Htext (field inputs "prompt_text") ltac:(exists pt; exact Hpt)).
  by destruct (hasNodeT "6" t) as [[]|e].
Qed.

Lemma injectSeed_wf inputs h t :
  inv h t -> wellFormedTemplate t = true ->
  in_store h0 inputs = true -> seedIsPrimitive h0 inputs = true ->
  is_given inputs = true ->
  fst (injectSeed r inputs h) = Ok tt.
Proof.
  intros Hinv Hwf Hin Hprim Hgiven.
  destruct (injectSeed_sim inputs (parsedSeed inputs h0) h t Hinv)
    as (t' & Hstep & _).
  { intros h' t' Hinv'. by apply (parsedSeed_stable h' t'). }
  unfold parsedSeed in Hstep. rewrite (inputs_stable _ _ _ _ Hin Hinv) in Hstep.
  destruct (heap_get_given h0 inputs "seed" Hgiven) as [seed Hseed].
  rewrite Hseed in Hstep. cbn [bind] in Hstep.
  destruct (TreeFacts.injectSeedT_wf seed (parseInt h0 seed) t Hwf)
    as (t'' & Hstep' & _).
  rewrite Hstep' in Hstep. by injection Hstep as <- _.
Qed.

(** *** The generic path *)

Lemma injectByName_unknown workflowName inputs h :
  isKnown workflowName = false ->
  injectByName r workflowName inputs h
  = match heap_get h inputs "prompt_text" with
    | Throw e => (Throw e, h)
    | Ok prompt_text =>
        if value_truthy prompt_text
        then injectText r "6" (field inputs "prompt_text") h
        else (Ok tt, h)
    end.
Proof.
  unfold isKnown, knownWorkflows. cbn [existsb]. intros Hname.
  apply orb_false_elim in Hname as [H1 Hname].
  apply orb_false_elim in Hname as [H2 Hname].
  apply orb_false_elim in Hname as [H3 _].
  unfold injectByName. rewrite H1, H2, H3.
  unfold andThen, get, read, pure.
  destruct (heap_get h inputs "prompt_text") as [pt|e]; [|done].
  cbn [fst snd]. destruct (value_truthy pt); reflexivity.
Qed.

(** With a name that is not known the body of the [try] is the generic
    path on the tree. *)
Lemma generic_sim workflowName inputs h t :
  inv h t -> isKnown workflowName = false ->
  in_store h0 inputs = true -> seedIsPrimitive h0 inputs = true ->
  exists t',
    genericT (heap_get h0 inputs "prompt_text") (heap_get h0 inputs "seed")
      (parsedSeed inputs h0) t
    = (fst ((do _ <- injectByName r workflowName inputs; injectSeed r inputs) h),
       t')
    /\ inv (snd ((do _ <- injectByName r workflowName inputs;
                  injectSeed r inputs) h)) t'.
Proof.
  intros Hinv Hname Hin Hprim. unfold andThen, genericT.
  rewrite (injectByName_unknown _ _ _ Hname).
  rewrite (inputs_stable _ _ _ "prompt_text" Hin Hinv).
  assert (Hseed : forall h1 t1, inv h1 t1 ->
    exists t',
      injectSeedT (heap_get h0 inputs "seed") (parsedSeed inputs h0) t1
      = (fst (injectSeed r inputs h1), t')
      /\ inv (snd (injectSeed r inputs h1)) t').
  { intros h1 t1 Hinv1.
    rewrite <- (inputs_stable _ _ _ "seed" Hin Hinv1).
    apply injectSeed_sim; [done|].
    intros h' t' Hinv'. by apply (parsedSeed_stable h' t'). }
  destruct (heap_get h0 inputs "prompt_text") as [pt|e] eqn:Hpt; [|by exists t].
  destruct (value_truthy pt); [|by apply Hseed].
  destruct (injectText_sim h t "6" (field inputs "prompt_text") Hinv)
    as (t1 & Hstep & Hinv1).
  unfold field at 1 in Hstep.
  rewrite (inputs_stable _ _ _ "prompt_text" Hin Hinv), Hpt in Hstep.
  rewrite Hstep.
  destruct (injectText r "6" (field inputs "prompt_text") h) as [[[]|e] h1];
    cbn [fst snd] in *; [by apply Hseed|by exists t1].
Qed.

End Steps.

Lemma pure_to_embed j : forall d, pure_to d (embed j).
Proof.
  induction j as [p|a members IH] using json_induction; intros [|d]; try done.
  cbn [embed pure_to].
  induction IH as [|[k m] rest Hm _ IHrest]; simpl; [done|].
  split; [apply Hm|apply IHrest].
Qed.

Lemma extends_from_lookup (h h' : heap) :
  (forall l, (l < length h)%nat -> h' !! l = h !! l) ->
  exists fresh, h' = h ++ fresh.
Proof.
  intros Hold. exists (drop (length h) h'). apply list_eq. intros i.
  destruct (decide (i < length h)%nat) as [Hi|Hi].
  - rewrite lookup_app_l by done. by apply Hold.
  - rewrite lookup_app_r by lia. rewrite lookup_drop. f_equal. lia.
Qed.

(** The state of the copy right after [JSON.parse]. *)
Lemma parse_inv j h :
  copy_inv h (length (snd (parse j h))) (fst (parse j h)) (snd (parse j h))
    (embed j).
Proof.
  destruct (parse_own j h) as (cells & Hcells & Hown).
  split; [exact Hown|apply pure_to_embed|done|].
  intros l Hl. rewrite Hcells. by apply lookup_app_l.
Qed.

(** C8. Whatever the workflow, its name and the inputs, the store after
    the function is the store before it followed by new cells: no cell
    that existed is changed, so the workflow object that was passed in,
    and every object reachable from it, reads as before. *)
Theorem template_is_never_mutated :
  forall (workflow : value) (workflowName : string) (inputs : value)
         (st : state),
  exists fresh,
    store (snd (injectWorkflowParameters workflow workflowName inputs st))
    = store st ++ fresh.
Proof.
  intros workflow name inputs st. unfold injectWorkflowParameters, deepCopy.
  destruct (stringify _ _ _) as [[j|]|e]; simpl;
    [|exists []; by rewrite app_nil_r..].
  pose proof (parse_inv j (store st)) as Hinv.
  destruct (parse j (store st)) as [r h1]. simpl in Hinv.
  unfold andThen.
  destruct (injectByName_inv _ _ _ name inputs _ _ Hinv) as (t1 & Hinv1 & _).
  destruct (injectByName r name inputs h1) as [[[]|e] h2]; simpl in Hinv1.
  - destruct (injectSeed_inv _ _ _ inputs _ _ Hinv1) as (t2 & Hinv2).
    destruct (injectSeed r inputs h2) as [[[]|e] h3]; simpl in *;
      apply extends_from_lookup, Hinv2.
  - simpl. apply extends_from_lookup, Hinv1.
Qed.


(** *** The seed broadcast and the generic path *)

Lemma genericT_wf h inputs t :
  wellFormedTemplate t = true -> is_given inputs = true ->
  exists u,
    fst (genericT (heap_get h inputs "prompt_text") (heap_get h inputs "seed")
           (parsedSeed inputs h) t) = Ok u.
Proof.
  intros Hwf Hgiven. unfold genericT, parsedSeed.
  destruct (heap_get_given h inputs "prompt_text" Hgiven) as [pt ->].
  destruct (heap_get_given h inputs "seed" Hgiven) as [seed ->]. cbn [bind].
  destruct (value_truthy pt).
  - destruct (TreeFacts.injectTextT_wf "6" pt t Hwf) as (t1 & -> & Hwf1);
      [done|].
    destruct (TreeFacts.injectSeedT_wf seed (parseInt h seed) t1 Hwf1)
      as (t2 & -> & _).
    by exists tt.
  - destruct (TreeFacts.injectSeedT_wf seed (parseInt h seed) t Hwf)
      as (t2 & -> & _).
    by exists tt.
Qed.

Lemma seed_read_given h inputs x :
  heap_get h inputs "seed" = Ok x -> is_given inputs = true.
Proof. destruct inputs as [[]|l]; done. Qed.

(** C9. With a name outside the known workflows the function does not
    fail for the name: it warns and takes the generic path. On a
    template whose prompt nodes are objects with an [inputs] object, for
    inputs that are given, it returns a job description, having logged
    the warning and nothing else. What it returns is what the generic
    path gives on the document of the workflow from the [prompt_text]
    and the [seed] of the inputs alone, in new cells of the store; where
    an assignment of the path throws, as it does for every name on a
    template that is not so formed, the function throws the processing
    error, after logging. *)
Theorem unknown_name_takes_the_generic_path :
  forall (workflow : value) (workflowName : string) (inputs : value)
         (h : heap) (console0 : list logEntry) (document : json),
    isKnown workflowName = false ->
    stringify (S (length h)) h workflow = Ok (Some document) ->
    in_store h inputs = true ->
    seedIsPrimitive h inputs = true ->
    let run :=
      injectWorkflowParameters workflow workflowName inputs
        {| store := h; console := console0 |} in
    let generic :=
      genericT (heap_get h inputs "prompt_text") (heap_get h inputs "seed")
        (parsedSeed inputs h) (embed document) in
    match fst generic with
    | Ok _ =>
        exists r lo hi,
          fst run = Ok r
          /\ own (store (snd run)) (snd generic) r lo hi
          /\ console (snd run)
             = console0 ++ [unknownWorkflowWarning workflowName]
    | Throw e =>
        fst run = Throw (processingError e)
        /\ console (snd run)
           = console0
             ++ [unknownWorkflowWarning workflowName;
                 ErrorLogged "Erro ao injetar parâmetros no workflow:" e]
    end
    /\ (wellFormedTemplate (embed document) = true ->
        is_given inputs = true ->
        exists u, fst generic = Ok u)
    /\ (wellFormedTemplate (embed document) = true ->
        is_given inputs = true ->
        exists r,
          fst run = Ok r
          /\ console (snd run)
             = console0 ++ [unknownWorkflowWarning workflowName]).
Proof.
  intros workflow name inputs h console0 document Hname Hdoc Hin Hprim.
  cbv zeta.
  lazymatch goal with |- ?outcome /\ _ => assert (Hmain : outcome) end.
  2:{ split; [exact Hmain|]. split; [by apply genericT_wf|].
      intros Hwf Hgiven.
      destruct (genericT_wf h inputs _ Hwf Hgiven) as [u Hu].
      rewrite Hu in Hmain.
      destruct Hmain as (r & lo & hi & Hr & _ & Hconsole). by exists r. }
  unfold injectWorkflowParameters, deepCopy. cbn [store console].
  rewrite Hdoc. cbn [bind]. rewrite Hname.
  pose proof (parse_inv document h) as Hinv.
  destruct (parse document h) as [r h1]. cbn [fst snd] in Hinv.
  destruct (generic_sim h (length h1) r name inputs h1 (embed document)
              Hinv Hname Hin Hprim) as (t' & Hgen & Hinv').
  rewrite Hgen. cbn [fst snd].
  destruct ((do _ <- injectByName r name inputs; injectSeed r inputs) h1)
    as [[[]|e] h3]; cbn [fst snd store console] in *.
  - exists r, (length h), (length h1). split; [done|].
    split; [apply Hinv'|done].
  - split; [done|]. by rewrite <- app_assoc.
Qed.

(** The request under a name that is not known, on the template: the
    function returns, having warned. *)
Lemma unknown_name_on_the_template :
  exists r,
    fst (InjectorScenario.inject InjectorScenario.template "evening-gown")
    = Ok r
    /\ console
         (snd (InjectorScenario.inject InjectorScenario.template
                 "evening-gown"))
       = [unknownWorkflowWarning "evening-gown"].
Proof.
  destruct (unknown_name_takes_the_generic_path
              (InjectorScenario.workflowOf InjectorScenario.template)
              "evening-gown"
              (InjectorScenario.inputsOf InjectorScenario.template)
              (InjectorScenario.storeOf InjectorScenario.template)
              [] InjectorScenario.template
              eq_refl eq_refl eq_refl eq_refl) as (_ & _ & Hreturns).
  exact (Hreturns eq_refl eq_refl).
Defined.

(** A template whose node "6" has no [inputs] makes the assignment of
    the text throw, under a name that is not known as under one that
    is. *)
Lemma unknown_name_fails_on_a_node_without_inputs :
  fst (InjectorScenario.inject InjectorScenario.brokenTemplate
         "evening-gown")
  = Throw
      (Error
         ("Falha ao processar parâmetros do workflow: "
          +:+ "Cannot set properties of undefined (setting 'text')"))
  /\ fst (InjectorScenario.inject InjectorScenario.brokenTemplate
            "fashion-sketch")
     = fst (InjectorScenario.inject InjectorScenario.brokenTemplate
              "evening-gown").
Proof. by vm_compute. Qed.

(** C5, as amended. With a seed that is an integer other than zero, the
    function, where it returns, has set the seed of every node of the
    prompt of the workflow's document that is a "KSampler" with a seed
    among its inputs. It returns on a template whose prompt nodes are
    objects with an [inputs] object. *)
Theorem seed_reaches_every_sampler_of_the_prompt :
  forall (workflow : value) (workflowName : string) (inputs : value)
         (h : heap) (console0 : list logEntry) (document : json) (s : Z),
    stringify (S (length h)) h workflow = Ok (Some document) ->
    in_store h inputs = true ->
    heap_get h inputs "seed" = Ok (VPrim (PNum s)) ->
    s <> 0 ->
    Z.abs s <= MAX_SAFE_INTEGER ->
    let run :=
      injectWorkflowParameters workflow workflowName inputs
        {| store := h; console := console0 |} in
    (wellFormedTemplate (embed document) = true -> exists r, fst run = Ok r)
    /\ forall r,
         fst run = Ok r ->
         forall nodeId,
           wantsSeedT nodeId (embed document) = Ok true ->
           path_get (store (snd run)) r ["prompt"; nodeId; "inputs"; "seed"]
           = Ok (VPrim (PNum s)).
Proof.
  intros workflow name inputs h console0 document s Hdoc Hin Hseed Hs _.
  cbv zeta. unfold injectWorkflowParameters, deepCopy. cbn [store console].
  rewrite Hdoc. cbn [bind].
  pose proof (parse_inv document h) as Hinv.
  destruct (parse document h) as [r h1]. cbn [fst snd] in Hinv.
  assert (Hprim : seedIsPrimitive h inputs = true).
  { unfold seedIsPrimitive. by rewrite Hseed. }
  pose proof (seed_read_given _ _ _ Hseed) as Hgiven.
  unfold andThen. split.
  - intros Hwf.
    destruct (injectByName_wf h (length h1) r name inputs h1 _ Hinv Hwf Hgiven)
      as (t2 & Hfst & Hinv2 & Hwf2).
    destruct (injectByName r name inputs h1) as [res2 h2].
    cbn [fst snd] in *. rewrite Hfst.
    pose proof (injectSeed_wf h (length h1) r inputs h2 t2 Hinv2 Hwf2 Hin
                  Hprim Hgiven) as Hok.
    destruct (injectSeed r inputs h2) as [res3 h3]. cbn [fst] in Hok.
    rewrite Hok. by exists r.
  - intros r' Hrun nodeId Hnode.
    destruct (injectByName_inv h (length h1) r name inputs h1 _ Hinv)
      as (t2 & Hinv2 & Hsteps).
    destruct (TreeFacts.textSteps_frame _ _ Hsteps) as [Hwants _].
    destruct (injectByName r name inputs h1) as [[[]|e] h2];
      cbn [fst snd] in *; [|done].
    destruct (injectSeed_sim h (length h1) r inputs (Ok (VPrim (PNum s)))
                h2 t2 Hinv2) as (t3 & Hstep & Hinv3).
    { intros h' t' Hinv'.
      rewrite (parsedSeed_stable h (length h1) r h' t' inputs Hin Hprim Hinv').
      unfold parsedSeed. rewrite Hseed. cbn [bind].
      rewrite parseInt_prim. cbn [prim_to_string]. by rewrite parseInt_pretty. }
    rewrite (inputs_stable h (length h1) r h2 t2 inputs "seed" Hin Hinv2),
      Hseed in Hstep.
    destruct (injectSeed r inputs h2) as [[[]|e] h3];
      cbn [fst snd store] in *; [|done].
    injection Hrun as <-.
    apply (seedAt_sim h (length h1) r h3 t3 nodeId _ Hinv3).
    assert (Htruthy : value_truthy (VPrim (PNum s)) = true).
    { simpl. apply negb_true_iff. by apply Z.eqb_neq. }
    apply (TreeFacts.injectSeedT_seeds _ _ _ _ _ Htruthy Hstep).
    by rewrite Hwants.
Qed.

(** The request with the seed 42 on the template: the sampler of the
    job description has the seed 42. *)
Lemma seed_reaches_the_sampler_of_the_template :
  exists r,
    fst (InjectorScenario.inject InjectorScenario.template "fashion-sketch")
    = Ok r
    /\ path_get
         (store
            (snd (InjectorScenario.inject InjectorScenario.template
                    "fashion-sketch")))
         r ["prompt"; "3"; "inputs"; "seed"]
       = Ok (VPrim (PNum 42)).
Proof.
  destruct (seed_reaches_every_sampler_of_the_prompt
              (InjectorScenario.workflowOf InjectorScenario.template)
              "fashion-sketch"
              (InjectorScenario.inputsOf InjectorScenario.template)
              (InjectorScenario.storeOf InjectorScenario.template)
              [] InjectorScenario.template 42
              eq_refl eq_refl eq_refl ltac:(discriminate) ltac:(vm_compute; discriminate))
    as [Hreturns Hseeds].
  destruct (Hreturns eq_refl) as [r Hr].
  exists r. split; [exact Hr|]. by apply (Hseeds r Hr "3").
Defined.

(** C5, as stated, fails: the nodes of a template that has no [prompt]
    around them are not reached. The sampler of such a template has the
    seed 1, the request has the seed 42, and the sampler of the job
    description has the seed 1. *)
Lemma flat_template_keeps_its_seed :
  heap_get (InjectorScenario.storeOf InjectorScenario.flatTemplate)
    (InjectorScenario.inputsOf InjectorScenario.flatTemplate) "seed"
  = Ok (VPrim (PNum 42))
  /\ exists r,
       fst (InjectorScenario.inject InjectorScenario.flatTemplate
              "fashion-sketch") = Ok r
       /\ path_get
            (store
               (snd (InjectorScenario.inject InjectorScenario.flatTemplate
                       "fashion-sketch")))
            r ["3"; "class_type"]
          = Ok (str "KSampler")
       /\ path_get
            (store
               (snd (InjectorScenario.inject InjectorScenario.flatTemplate
                       "fashion-sketch")))
            r ["3"; "inputs"; "seed"]
          = Ok (VPrim (PNum 1)).
Proof. split; [done|]. by exists (VRef 14%nat). Qed.

End InjectorFacts.

(** ** Job identifiers *)

Module IdFacts.
Import Requeue.

Lemma append_length (a b : string) :
  String.length (a +:+ b) = (String.length a + String.length b)%nat.
Proof. induction a as [|c a IH]; simpl; [done|]. by rewrite IH. Qed.

(** The digits of a number hold no dash. *)
Lemma pretty_N_go_no_dash (x : N) : forall s,
  (forall a b, s <> a +:+ String "-" b) ->
  forall a b, pretty_N_go x s <> a +:+ String "-" b.
Proof.
  induction (N.lt_wf_0 x) as [x _ IH]; intros s Hs a b.
  destruct (decide (x = 0%N)) as [->|Hx]; [rewrite pretty_N_go_0; apply Hs|].
  rewrite pretty_N_go_step by lia.
  apply IH; [apply N.div_lt; lia|]. clear a b.
  intros [|c a] b; simpl.
  - intros [= Hc _]. revert Hc. unfold pretty_N_char.
    by repeat case_match.
  - intros [= _ Hrest]. by apply (Hs a b).
Qed.

Lemma pretty_no_dash (n : Z) :
  0 <= n -> forall a b, pretty n <> a +:+ String "-" b.
Proof.
  intros Hn a b. destruct n as [|p|p]; [| |lia].
  - destruct a as [|c [|c' a]]; simpl; discriminate.
  - unfold pretty, pretty_Z, pretty, pretty_N.
    destruct (decide (N.pos p = 0%N)) as [|_]; [done|].
    apply pretty_N_go_no_dash. intros [|c a'] b'; discriminate.
Qed.

(** What stands before and after the last dash of a string is
    determined by the string. *)
Lemma last_dash_inj : forall (a b d1 d2 : string),
  (forall x y, d1 <> x +:+ String "-" y) ->
  (forall x y, d2 <> x +:+ String "-" y) ->
  a +:+ String "-" d1 = b +:+ String "-" d2 ->
  a = b /\ d1 = d2.
Proof.
  induction a as [|c a IH]; intros [|c' b] d1 d2 H1 H2; simpl.
  - by intros [= ->].
  - intros [= <- Hd]. by destruct (H1 b d2).
  - intros [= -> Hd]. by destruct (H2 a d1).
  - intros [= -> Hrest]. destruct (IH b d1 d2 H1 H2 Hrest) as [-> ->]. done.
Qed.

(** The identifier the producer gives a job tells the submissions apart
    up to the millisecond: two of them are the same only for the same
    workflow at the same reading of the clock. *)
Theorem producer_ids_tell_submissions_apart :
  forall (workflow1 workflow2 : string) (now1 now2 : Z),
    0 <= now1 -> 0 <= now2 ->
    Producer.jobIdOf workflow1 now1 = Producer.jobIdOf workflow2 now2 ->
    workflow1 = workflow2 /\ now1 = now2.
Proof.
  intros w1 w2 n1 n2 H1 H2. unfold Producer.jobIdOf. intros Heq.
  apply String.app_inj in Heq. cbn [String.append] in Heq.
  destruct (last_dash_inj w1 w2 (pretty n1) (pretty n2)) as [-> Hn];
    [by apply pretty_no_dash|by apply pretty_no_dash|exact Heq|].
  split; [done|]. by apply (inj pretty).
Qed.

Lemma producer_ids_witness :
  "fashion-sketch"%string = "fashion-sketch"%string /\ 1700000000000 = 1700000000000.
Proof.
  apply (producer_ids_tell_submissions_apart "fashion-sketch" "fashion-sketch"
           1700000000000 1700000000000); [lia|lia|reflexivity].
Defined.

(** The identifier of a resubmission is never the identifier of the
    failed job it is made from, and it tells the resubmissions apart:
    two of them are the same only for the same failed job at the same
    reading of the clock. *)
Theorem requeue_ids_are_fresh :
  forall (Payload : Type) (job1 job2 : Job Payload)
         (opts1 opts2 : RequeueOptions) (now1 now2 : Z),
    jobId (newJobOptions job1 opts1 now1) <> id job1
    /\ (0 <= now1 -> 0 <= now2 ->
        jobId (newJobOptions job1 opts1 now1)
        = jobId (newJobOptions job2 opts2 now2) ->
        id job1 = id job2 /\ now1 = now2).
Proof.
  intros Payload job1 job2 opts1 opts2 n1 n2. cbn [newJobOptions jobId]. split.
  - intros Heq. apply (f_equal String.length) in Heq.
    rewrite !append_length in Heq. simpl in Heq. lia.
  - intros H1 H2 Heq.
    apply String.app_inj in Heq. cbn [String.append] in Heq.
    destruct (last_dash_inj (id job1) (id job2) (pretty n1) (pretty n2))
      as [Hid Hn];
      [by apply pretty_no_dash|by apply pretty_no_dash|exact Heq|].
    split; [done|]. by apply (inj pretty).
Qed.

Lemma requeue_ids_witness :
  jobId (newJobOptions Scenario.job0 defaultOptions 1000) <> id Scenario.job0
  /\ id Scenario.job0 = id Scenario.job0 /\ 1000 = 1000.
Proof.
  destruct (requeue_ids_are_fresh string Scenario.job0 Scenario.job0
              defaultOptions defaultOptions 1000 1000) as [Hfresh Hsame].
  split; [exact Hfresh|]. apply Hsame; [lia|lia|reflexivity].
Defined.

End IdFacts.

(** ** The statistics of the failed set *)

Module StatsFacts.
Import JS Requeue RequeueStats.

(** The count a record holds under a key, 0 when it holds none. *)
Local Abbreviation countUnder key record :=
  (match lookup_prop key record with Some n => n | None => 0%nat end).

Lemma sumOf_increment key record :
  sumOf (increment key record) = S (sumOf record).
Proof.
  unfold increment. induction record as [|[k n] record IH]; simpl; [done|].
  destruct (String.eqb key k); simpl; [lia|].
  rewrite IH. lia.
Qed.

Lemma countUnder_increment key key' record :
  countUnder key' (increment key record)
  = if String.eqb key key' then S (countUnder key' record)
    else countUnder key' record.
Proof.
  unfold increment. destruct (String.eqb_spec key key') as [<-|Hne].
  - rewrite TreeFacts.lookup_assign_eq. lia.
  - by rewrite (TreeFacts.lookup_assign_ne _ _ _ _ Hne).
Qed.

Section Folds.

Context {Payload : Type}.
Variable keyOf : Job Payload -> string.

Local Abbreviation tally :=
  (fold_left (fun record job => increment (keyOf job) record)).

Lemma tally_sum jobs : forall record,
  sumOf (tally jobs record) = (sumOf record + length jobs)%nat.
Proof.
  induction jobs as [|job jobs IH]; intros record; simpl; [lia|].
  rewrite IH, sumOf_increment. lia.
Qed.

Lemma tally_count key jobs : forall record,
  countUnder key (tally jobs record)
  = (countUnder key record
     + countWhere (fun job => String.eqb (keyOf job) key) jobs)%nat.
Proof.
  unfold countWhere.
  induction jobs as [|job jobs IH]; intros record; simpl; [lia|].
  rewrite IH, countUnder_increment.
  destruct (String.eqb (keyOf job) key); simpl; lia.
Qed.

(** Every key of the record is the key of a job. *)
Lemma tally_keys key jobs : forall record,
  In key (map fst (tally jobs record)) ->
  In key (map fst record) \/ In key (map keyOf jobs).
Proof.
  induction jobs as [|job jobs IH]; intros record; simpl; [by left|].
  intros Hin. destruct (IH _ Hin) as [Hrec|Hjobs]; [|by right; right].
  unfold increment in Hrec.
  destruct (decide (key = keyOf job)) as [->|Hne]; [by right; left|].
  left. clear -Hrec Hne. revert Hrec.
  generalize (match lookup_prop (keyOf job) record with
              | Some n => n | None => 0 end + 1)%nat as v.
  intros v. induction record as [|[k n] record IHr]; simpl.
  - intros [H|[]]. congruence.
  - destruct (String.eqb_spec (keyOf job) k) as [<-|_]; simpl.
    + intros [H|H]; [congruence|by right].
    + intros [H|H]; [by left|right; by apply IHr].
Qed.

End Folds.

Section Stats.

Context {Payload World : Type}.
Variable substring50 : string -> string.
Variable date_now : World -> Z * World.
Variable getFailed : World -> result (list (Job Payload)) * World.

Local Abbreviation count now := (countJob (Payload := Payload) substring50 now).

Lemma fold_total now (jobs : list (Job Payload)) : forall stats,
  total (fold_left (count now) jobs stats) = total stats.
Proof. induction jobs as [|job jobs IH]; intros stats; simpl; [done|]. by rewrite IH. Qed.

Lemma fold_byReason now (jobs : list (Job Payload)) : forall stats,
  byReason (fold_left (count now) jobs stats)
  = fold_left (fun record job => increment (reasonKeyOf substring50 job) record)
      jobs (byReason stats).
Proof. induction jobs as [|job jobs IH]; intros stats; simpl; [done|]. by rewrite IH. Qed.

Lemma fold_byRequeueCount now (jobs : list (Job Payload)) : forall stats,
  byRequeueCount (fold_left (count now) jobs stats)
  = fold_left (fun record job => increment (requeueKeyOf job) record)
      jobs (byRequeueCount stats).
Proof. induction jobs as [|job jobs IH]; intros stats; simpl; [done|]. by rewrite IH. Qed.

Lemma fold_byAge now (jobs : list (Job Payload)) : forall stats,
  byAge (fold_left (count now) jobs stats)
  = fold_left (fun s job => countAge (ageOf now job) s) jobs (byAge stats).
Proof. induction jobs as [|job jobs IH]; intros stats; simpl; [done|]. by rewrite IH. Qed.

Lemma ages_counted now (jobs : list (Job Payload)) : forall s,
  let s' := fold_left (fun s job => countAge (ageOf now job) s) jobs s in
  last_hour s'
  = (last_hour s + countWhere (inLastHour now) jobs)%nat
  /\ last_day s'
     = (last_day s
        + countWhere (inLastDay now) jobs)%nat
  /\ last_week s'
     = (last_week s
        + countWhere (inLastWeek now) jobs)%nat
  /\ older s'
     = (older s + countWhere (isOlder now) jobs)%nat.
Proof.
  unfold countWhere, inLastHour, inLastDay, inLastWeek, isOlder.
  induction jobs as [|job jobs IH]; intros s; cbn zeta; simpl; [lia|].
  destruct (IH (countAge (ageOf now job) s)) as (H1 & H2 & H3 & H4).
  cbv zeta in H1, H2, H3, H4. rewrite H1, H2, H3, H4. unfold countAge.
  assert (Hd : oneHour < oneDay) by reflexivity.
  assert (Hw : oneDay < oneWeek) by reflexivity.
  destruct (Z.ltb_spec (ageOf now job) oneHour);
    destruct (Z.ltb_spec (ageOf now job) oneDay);
    destruct (Z.ltb_spec (ageOf now job) oneWeek);
    destruct (Z.leb_spec oneHour (ageOf now job));
    destruct (Z.leb_spec oneDay (ageOf now job));
    destruct (Z.leb_spec oneWeek (ageOf now job));
    simpl; try lia.
Qed.

End Stats.

(** The statistics come back unless the failed set cannot be read. The
    four ranges of age take every failed job once: each of the counters
    is the number of the failed jobs whose age at the reading of the
    clock lies in its range (below an hour; from an hour to below a day;
    from a day to below a week; a week or more), and the four add up to
    the total. *)
Theorem age_ranges_partition_the_failed_jobs :
  forall (Payload World : Type) (substring50 : string -> string)
         (date_now : World -> Z * World)
         (getFailed : World -> result (list (Job Payload)) * World)
         (w : World),
    match getFailedJobsStats substring50 date_now getFailed w with
    | (None, w') => exists e, getFailed w = (Throw e, w')
    | (Some stats, w') =>
        exists failedJobs w1 now,
          getFailed w = (Ok failedJobs, w1)
          /\ date_now w1 = (now, w')
          /\ total stats = length failedJobs
          /\ last_hour (byAge stats)
             = countWhere (inLastHour now) failedJobs
          /\ last_day (byAge stats)
             = countWhere (inLastDay now) failedJobs
          /\ last_week (byAge stats)
             = countWhere (inLastWeek now) failedJobs
          /\ older (byAge stats)
             = countWhere (isOlder now) failedJobs
          /\ (last_hour (byAge stats) + last_day (byAge stats)
              + last_week (byAge stats) + older (byAge stats))%nat
             = total stats
    end.
Proof.
  intros Payload World substring50 date_now getFailed w.
  unfold getFailedJobsStats.
  destruct (getFailed w) as [[jobs|e] w1]; [|by exists e].
  destruct (date_now w1) as [now w2] eqn:Hnow.
  exists jobs, w1, now. split; [done|]. split; [done|].
  rewrite fold_total, fold_byAge. cbn [emptyStats total byAge].
  destruct (ages_counted now jobs
              {| last_hour := 0; last_day := 0; last_week := 0; older := 0 |})
    as (H1 & H2 & H3 & H4).
  cbv zeta in H1, H2, H3, H4. cbn [last_hour last_day last_week older] in *.
  rewrite H1, H2, H3, H4. repeat split; try done.
  unfold countWhere, inLastHour, inLastDay, inLastWeek, isOlder. clear.
  induction jobs as [|job jobs IH]; simpl; [done|].
  assert (Hd : oneHour < oneDay) by reflexivity.
  assert (Hw : oneDay < oneWeek) by reflexivity.
  destruct (Z.ltb_spec (ageOf now job) oneHour);
    destruct (Z.ltb_spec (ageOf now job) oneDay);
    destruct (Z.ltb_spec (ageOf now job) oneWeek);
    destruct (Z.leb_spec oneHour (ageOf now job));
    destruct (Z.leb_spec oneDay (ageOf now job));
    destruct (Z.leb_spec oneWeek (ageOf now job));
    simpl in *; try lia.
Qed.

(** The record by resubmission count holds, under the printed count,
    the number of the failed jobs with that count, and nothing under a
    key that is not the printed count of a job; its counts add up to the
    total. *)
Theorem requeue_counts_are_tallied :
  forall (Payload World : Type) (substring50 : string -> string)
         (date_now : World -> Z * World)
         (getFailed : World -> result (list (Job Payload)) * World)
         (w : World) (stats : FailedStats) (w' : World),
    getFailedJobsStats substring50 date_now getFailed w = (Some stats, w') ->
    exists failedJobs w1,
      getFailed w = (Ok failedJobs, w1)
      /\ (forall z : Z,
            countUnder (pretty z) (byRequeueCount stats)
            = countWhere (fun job => requeueCountOf job =? z) failedJobs)
      /\ (forall key,
            In key (map fst (byRequeueCount stats)) ->
            exists job, In job failedJobs /\ key = pretty (requeueCountOf job))
      /\ sumOf (byRequeueCount stats) = total stats.
Proof.
  intros Payload World substring50 date_now getFailed w stats w'.
  unfold getFailedJobsStats.
  destruct (getFailed w) as [[jobs|e] w1]; [|done].
  destruct (date_now w1) as [now w2]. intros [= <- <-].
  exists jobs, w1. split; [done|].
  rewrite fold_total, fold_byRequeueCount. cbn [emptyStats total byRequeueCount].
  split; [|split].
  - intros z. rewrite tally_count. simpl. unfold countWhere. f_equal.
    apply filter_ext. intros job. unfold requeueKeyOf.
    destruct (Z.eqb_spec (requeueCountOf job) z) as [->|Hne].
    + apply String.eqb_refl.
    + apply String.eqb_neq. intros Heq. by apply (inj pretty) in Heq.
  - intros key Hkey. apply tally_keys in Hkey as [[]|Hkey].
    apply in_map_iff in Hkey as (job & <- & Hjob). by exists job.
  - by rewrite tally_sum.
Qed.

(** The record by reason holds, under a key, the number of the failed
    jobs whose reason, cut to 50 characters, is that key ("unknown" for
    a job with no reason), and its counts add up to the total; this for
    keys that are not names every object inherits. *)
Theorem failure_reasons_are_tallied :
  forall (Payload World : Type) (substring50 : string -> string)
         (date_now : World -> Z * World)
         (getFailed : World -> result (list (Job Payload)) * World)
         (w : World) (stats : FailedStats) (w' : World),
    getFailedJobsStats substring50 date_now getFailed w = (Some stats, w') ->
    exists failedJobs w1,
      getFailed w = (Ok failedJobs, w1)
      /\ ((forall job,
             In job failedJobs ->
             ~ In (reasonKeyOf substring50 job) inheritedKeys) ->
          (forall key,
             countUnder key (byReason stats)
             = countWhere
                 (fun job => String.eqb (reasonKeyOf substring50 job) key)
                 failedJobs)
          /\ (forall key,
                In key (map fst (byReason stats)) ->
                exists job,
                  In job failedJobs /\ key = reasonKeyOf substring50 job)
          /\ sumOf (byReason stats) = total stats).
Proof.
  intros Payload World substring50 date_now getFailed w stats w'.
  unfold getFailedJobsStats.
  destruct (getFailed w) as [[jobs|e] w1]; [|done].
  destruct (date_now w1) as [now w2]. intros [= <- <-].
  exists jobs, w1. split; [done|]. intros _.
  rewrite fold_total, fold_byReason. cbn [emptyStats total byReason].
  split; [|split].
  - intros key. by rewrite tally_count.
  - intros key Hkey. apply tally_keys in Hkey as [[]|Hkey].
    apply in_map_iff in Hkey as (job & <- & Hjob). by exists job.
  - by rewrite tally_sum.
Qed.

(** Three failed jobs, two of them never resubmitted. *)
Lemma requeue_counts_of_three_jobs :
  countUnder "0" (byRequeueCount StatsScenario.stats) = 2%nat
  /\ countUnder "1" (byRequeueCount StatsScenario.stats) = 1%nat
  /\ sumOf (byRequeueCount StatsScenario.stats) = 3%nat.
Proof.
  destruct (requeue_counts_are_tallied string MemQueue.World
              StatsScenario.ascii_substring50 MemQueue.date_now
              MemQueue.getFailed StatsScenario.world StatsScenario.stats
              (snd StatsScenario.run) eq_refl)
    as (jobs & w1 & Hjobs & Hcount & _ & Hsum).
  injection Hjobs as <- <-.
  split; [exact (Hcount 0)|]. split; [exact (Hcount 1)|exact Hsum].
Defined.

(** Three failed jobs, two of them with the same reason. *)
Lemma failure_reasons_of_three_jobs :
  countUnder "ETIMEDOUT" (byReason StatsScenario.stats) = 2%nat
  /\ countUnder "unknown" (byReason StatsScenario.stats) = 1%nat
  /\ sumOf (byReason StatsScenario.stats) = 3%nat.
Proof.
  destruct (failure_reasons_are_tallied string MemQueue.World
              StatsScenario.ascii_substring50 MemQueue.date_now
              MemQueue.getFailed StatsScenario.world StatsScenario.stats
              (snd StatsScenario.run) eq_refl)
    as (jobs & w1 & Hjobs & Hreasons).
  injection Hjobs as <- <-.
  destruct Hreasons as (Hcount & _ & Hsum).
  { intros job Hjob Hin. simpl in Hjob.
    destruct Hjob as [<-|[<-|[<-|[]]]]; vm_compute in Hin;
      repeat (destruct Hin as [Hin|Hin]; [discriminate|]); done. }
  split; [exact (Hcount "ETIMEDOUT"%string)|].
  split; [exact (Hcount "unknown"%string)|exact Hsum].
Defined.

End StatsFacts.

(** ** Which failures of the worker are resubmitted *)

Module RetryFacts.
Import JS Requeue RequeueSpec Worker.

(** *** Patterns at the head of a message *)

Lemma ascii_toLowerCase_app (a b : string) :
  ascii_toLowerCase (a +:+ b) = ascii_toLowerCase a +:+ ascii_toLowerCase b.
Proof. induction a as [|c a IH]; simpl; [done|]. by rewrite IH. Qed.

Lemma prefix_app (p s : string) : String.prefix p (p +:+ s) = true.
Proof.
  induction p as [|c p IH]; simpl; [by destruct s|].
  destruct (ascii_dec c c); [exact IH|done].
Qed.

Lemma includes_prefix (p s : string) :
  String.prefix p s = true -> includes p s = true.
Proof. destruct s; cbn [includes]; by intros ->. Qed.

Lemma includes_head (p s : string) : includes p (p +:+ s) = true.
Proof. apply includes_prefix, prefix_app. Qed.

(** A reason that starts, case ignored, with one of the patterns of a
    list matches the list. *)
Lemma matchesAny_head (patterns : list string) (pattern rest : string) :
  In pattern patterns ->
  matchesAny ascii_toLowerCase patterns (pattern +:+ rest) = true.
Proof.
  intros Hin. unfold matchesAny. apply existsb_exists.
  exists pattern. split; [done|].
  rewrite ascii_toLowerCase_app. apply includes_head.
Qed.

(** The decision on a job within the limits of age and resubmissions
    whose reason matches a temporary pattern. *)
Lemma temporary_is_accepted {Payload : Type} (now : Z) (job : Job Payload)
    (options : RequeueOptions) (why : string) :
  failedReason job = Some why -> why <> ""%string ->
  gt_opt (now - timestamp job) (maxAge options) = false ->
  ge_opt (requeueCountOf job) (maxRetries options) = false ->
  matchesAny ascii_toLowerCase temporaryErrors why = true ->
  shouldRequeueJob ascii_toLowerCase now job options
  = {| requeue := true; reason := TemporaryError why |}.
Proof.
  intros Hwhy Hne Hage Hcount Hmatch.
  unfold shouldRequeueJob, failureReasonOf. rewrite Hage, Hcount, Hwhy.
  destruct (String.eqb_spec why "") as [|_]; [done|]. by rewrite Hmatch.
Qed.

(** The same for a reason that matches a permanent pattern. *)
Lemma permanent_unless_temporary {Payload : Type} (now : Z)
    (job : Job Payload) (options : RequeueOptions) (why : string) :
  failedReason job = Some why -> why <> ""%string ->
  gt_opt (now - timestamp job) (maxAge options) = false ->
  ge_opt (requeueCountOf job) (maxRetries options) = false ->
  matchesAny ascii_toLowerCase permanentErrors why = true ->
  shouldRequeueJob ascii_toLowerCase now job options
  = if matchesAny ascii_toLowerCase temporaryErrors why
    then {| requeue := true; reason := TemporaryError why |}
    else {| requeue := false; reason := PermanentError why |}.
Proof.
  intros Hwhy Hne Hage Hcount Hmatch.
  unfold shouldRequeueJob, failureReasonOf. rewrite Hage, Hcount, Hwhy.
  destruct (String.eqb_spec why "") as [|_]; [done|]. by rewrite Hmatch.
Qed.

(** The status codes of a class start with its digit. *)
Lemma status_class_checked :
  forallb
    (fun n =>
       String.prefix "5" (pretty (500 + Z.of_nat n))
       && String.prefix "4" (pretty (400 + Z.of_nat n)))
    (seq 0 100) = true.
Proof. vm_compute. reflexivity. Qed.

Lemma prefix_head (c : ascii) (s : string) :
  String.prefix (String c EmptyString) s = true ->
  exists rest, s = String c rest.
Proof.
  destruct s as [|c' rest]; simpl; [done|].
  destruct (ascii_dec c c') as [->|]; [by eexists|done].
Qed.

Lemma status_class (status : Z) :
  (500 <= status <= 599 -> exists rest, pretty status = String "5" rest)
  /\ (400 <= status <= 499 -> exists rest, pretty status = String "4" rest).
Proof.
  pose proof (proj1 (forallb_forall _ _) status_class_checked) as Hall.
  split; intros Hstatus.
  - specialize (Hall (Z.to_nat (status - 500))). cbv beta in Hall.
    rewrite Z2Nat.id in Hall by lia.
    replace (500 + (status - 500)) with status in Hall by lia.
    apply andb_prop in Hall as [H _]; [by apply prefix_head|].
    apply in_seq. lia.
  - specialize (Hall (Z.to_nat (status - 400))). cbv beta in Hall.
    rewrite Z2Nat.id in Hall by lia.
    replace (400 + (status - 400)) with status in Hall by lia.
    apply andb_prop in Hall as [_ H]; [by apply prefix_head|].
    apply in_seq. lia.
Qed.

(** *** The failures *)

(** A job that failed on the timeout of the polling is resubmitted,
    while it is within the limits of age and of resubmissions. *)
Theorem poll_timeout_is_resubmitted :
  forall (Payload : Type) (now : Z) (job : Job Payload)
         (options : RequeueOptions),
    failedReason job = Some (message timeoutError) ->
    gt_opt (now - timestamp job) (maxAge options) = false ->
    ge_opt (requeueCountOf job) (maxRetries options) = false ->
    shouldRequeueJob ascii_toLowerCase now job options
    = {| requeue := true;
         reason := TemporaryError (message timeoutError) |}.
Proof.
  intros Payload now job options Hwhy Hage Hcount.
  apply temporary_is_accepted; try done.
Qed.

Lemma poll_timeout_witness :
  shouldRequeueJob ascii_toLowerCase RetryScenario.anHourLater
    (RetryScenario.failedWith timeoutError) defaultOptions
  = {| requeue := true; reason := TemporaryError (message timeoutError) |}.
Proof.
  apply (poll_timeout_is_resubmitted string RetryScenario.anHourLater
           (RetryScenario.failedWith timeoutError) defaultOptions);
    reflexivity.
Defined.

(** A job whose last status query was answered with an HTTP error is
    resubmitted, whatever the status, within the same limits. *)
Theorem history_http_error_is_resubmitted :
  forall (Payload : Type) (promptId : string) (attempt : nat) (status : Z)
         (e : exn) (now : Z) (job : Job Payload) (options : RequeueOptions),
    checkHistory promptId attempt (NotOk status) = Raised e ->
    failedReason job = Some (message e) ->
    gt_opt (now - timestamp job) (maxAge options) = false ->
    ge_opt (requeueCountOf job) (maxRetries options) = false ->
    shouldRequeueJob ascii_toLowerCase now job options
    = {| requeue := true; reason := TemporaryError (message e) |}.
Proof.
  intros Payload promptId attempt status e now job options Hcheck Hwhy Hage
    Hcount.
  cbn [checkHistory] in Hcheck. injection Hcheck as <-. cbn [message] in *.
  apply temporary_is_accepted; try done.
  change ("Erro ao consultar histórico: " +:+ pretty status)
    with ("Erro ao consultar histórico" +:+ (": " +:+ pretty status)).
  apply matchesAny_head. unfold temporaryErrors. simpl. tauto.
Qed.

Lemma history_http_error_witness :
  shouldRequeueJob ascii_toLowerCase RetryScenario.anHourLater
    (RetryScenario.failedWith (Error "Erro ao consultar histórico: 404"))
    defaultOptions
  = {| requeue := true;
       reason := TemporaryError "Erro ao consultar histórico: 404" |}.
Proof.
  apply (history_http_error_is_resubmitted string "p1" 119 404
           (Error "Erro ao consultar histórico: 404")
           RetryScenario.anHourLater
           (RetryScenario.failedWith (Error "Erro ao consultar histórico: 404"))
           defaultOptions); reflexivity.
Defined.

(** A job whose workflow the backend refused with a status of the class
    5xx is resubmitted, whatever the body of the answer, within the same
    limits. *)
Theorem server_error_is_resubmitted :
  forall (Payload : Type) (postPrompt : json -> submission) (workflow : json)
         (prompt : json) (status : Z) (errorData : string) (e : exn)
         (now : Z) (job : Job Payload) (options : RequeueOptions),
    get workflow "prompt" = Ok prompt ->
    postPrompt (if truthy prompt then prompt else workflow)
    = SubmitNotOk status (Ok errorData) ->
    500 <= status <= 599 ->
    submitWorkflow postPrompt workflow = Throw e ->
    failedReason job = Some (message e) ->
    gt_opt (now - timestamp job) (maxAge options) = false ->
    ge_opt (requeueCountOf job) (maxRetries options) = false ->
    shouldRequeueJob ascii_toLowerCase now job options
    = {| requeue := true; reason := TemporaryError (message e) |}.
Proof.
  intros Payload postPrompt workflow prompt status errorData e now job options
    Hprompt Hpost Hstatus Hsubmit Hwhy Hage Hcount.
  unfold submitWorkflow in Hsubmit. rewrite Hprompt in Hsubmit.
  cbn [bind] in Hsubmit. rewrite Hpost in Hsubmit. injection Hsubmit as <-.
  cbn [message] in *.
  apply temporary_is_accepted; try done.
  destruct (proj1 (status_class status) Hstatus) as [rest ->].
  change ("ComfyUI API Error (" +:+ String "5" rest +:+ "): " +:+ errorData)
    with ("ComfyUI API Error (5" +:+ (rest +:+ "): " +:+ errorData)).
  apply matchesAny_head. unfold temporaryErrors. simpl. tauto.
Qed.

Lemma server_error_witness :
  shouldRequeueJob ascii_toLowerCase RetryScenario.anHourLater
    (RetryScenario.failedWith (Error "ComfyUI API Error (503): busy"))
    defaultOptions
  = {| requeue := true;
       reason := TemporaryError "ComfyUI API Error (503): busy" |}.
Proof.
  apply (server_error_is_resubmitted string (RetryScenario.refusing 503 "busy")
           RetryScenario.flatWorkflow (Leaf PUndefined) 503 "busy"
           (Error "ComfyUI API Error (503): busy")
           RetryScenario.anHourLater
           (RetryScenario.failedWith (Error "ComfyUI API Error (503): busy"))
           defaultOptions); try reflexivity. lia.
Defined.

(** A job whose workflow the backend refused with a status of the class
    4xx and an answer in ASCII is not resubmitted, unless the answer of
    the backend happens to hold a temporary pattern, which is looked for
    first. *)
Theorem client_error_is_not_resubmitted :
  forall (Payload : Type) (postPrompt : json -> submission) (workflow : json)
         (prompt : json) (status : Z) (errorData : string) (e : exn)
         (now : Z) (job : Job Payload) (options : RequeueOptions),
    get workflow "prompt" = Ok prompt ->
    postPrompt (if truthy prompt then prompt else workflow)
    = SubmitNotOk status (Ok errorData) ->
    isAscii errorData = true ->
    400 <= status <= 499 ->
    submitWorkflow postPrompt workflow = Throw e ->
    failedReason job = Some (message e) ->
    gt_opt (now - timestamp job) (maxAge options) = false ->
    ge_opt (requeueCountOf job) (maxRetries options) = false ->
    shouldRequeueJob ascii_toLowerCase now job options
    = if matchesAny ascii_toLowerCase temporaryErrors (message e)
      then {| requeue := true; reason := TemporaryError (message e) |}
      else {| requeue := false; reason := PermanentError (message e) |}.
Proof.
  intros Payload postPrompt workflow prompt status errorData e now job options
    Hprompt Hpost _ Hstatus Hsubmit Hwhy Hage Hcount.
  unfold submitWorkflow in Hsubmit. rewrite Hprompt in Hsubmit.
  cbn [bind] in Hsubmit. rewrite Hpost in Hsubmit. injection Hsubmit as <-.
  cbn [message] in *.
  apply permanent_unless_temporary; try done.
  destruct (proj2 (status_class status) Hstatus) as [rest ->].
  change ("ComfyUI API Error (" +:+ String "4" rest +:+ "): " +:+ errorData)
    with ("ComfyUI API Error (4" +:+ (rest +:+ "): " +:+ errorData)).
  apply matchesAny_head. unfold permanentErrors. simpl. tauto.
Qed.

Lemma client_error_witness :
  shouldRequeueJob ascii_toLowerCase RetryScenario.anHourLater
    (RetryScenario.failedWith (Error "ComfyUI API Error (400): invalid prompt"))
    defaultOptions
  = {| requeue := false;
       reason := PermanentError "ComfyUI API Error (400): invalid prompt" |}.
Proof.
  apply (client_error_is_not_resubmitted string
           (RetryScenario.refusing 400 "invalid prompt")
           RetryScenario.flatWorkflow (Leaf PUndefined) 400 "invalid prompt"
           (Error "ComfyUI API Error (400): invalid prompt")
           RetryScenario.anHourLater
           (RetryScenario.failedWith
              (Error "ComfyUI API Error (400): invalid prompt"))
           defaultOptions); try reflexivity. lia.
Defined.

(** The refusal of a request whose body speaks of a connection is taken
    for a temporary error. *)
Example client_error_with_a_temporary_word :
  shouldRequeueJob ascii_toLowerCase RetryScenario.anHourLater
    (RetryScenario.failedWith
       (Error "ComfyUI API Error (400): no connection to node 4"))
    defaultOptions
  = {| requeue := true;
       reason :=
         TemporaryError "ComfyUI API Error (400): no connection to node 4" |}.
Proof. vm_compute. reflexivity. Qed.

(** A job whose workflow file could not be read fails before anything
    is sent to the backend, and, for a workflow name in ASCII, it is not
    resubmitted, unless the name of the workflow happens to hold a
    temporary pattern. *)
Theorem missing_workflow_is_not_resubmitted :
  forall (Payload Inputs : Type)
         (readFile : string -> result string)
         (JSON_parse : string -> result json)
         (injectWorkflowParameters : json -> string -> Inputs -> result json)
         (postPrompt : json -> submission)
         (history : string -> nat -> response) (clock : Z)
         (data : ImageGenerationJobData Inputs) (unreadable : exn)
         (now : Z) (job : Job Payload) (options : RequeueOptions),
    readFile (workflow_name data) = Throw unreadable ->
    isAscii (workflow_name data) = true ->
    exists e,
      imageGenerationWorker readFile JSON_parse injectWorkflowParameters
        postPrompt history clock data
      = Some (Throw e, [ProgressUpdated 10])
      /\ (failedReason job = Some (message e) ->
          gt_opt (now - timestamp job) (maxAge options) = false ->
          ge_opt (requeueCountOf job) (maxRetries options) = false ->
          shouldRequeueJob ascii_toLowerCase now job options
          = if matchesAny ascii_toLowerCase temporaryErrors (message e)
            then {| requeue := true; reason := TemporaryError (message e) |}
            else {| requeue := false; reason := PermanentError (message e) |}).
Proof.
  intros Payload Inputs readFile JSON_parse inject postPrompt history clock
    data unreadable now job options Hread _.
  unfold imageGenerationWorker. rewrite Hread.
  eexists. split; [reflexivity|]. cbn [message].
  intros Hwhy Hage Hcount.
  by apply permanent_unless_temporary.
Qed.

Lemma missing_workflow_witness :
  exists e,
    imageGenerationWorker RetryScenario.noFile (fun _ => Ok (obj []))
      (fun workflow _ _ => Ok workflow) (RetryScenario.refusing 500 "")
      (fun _ _ => NotOk 500) 0 (RetryScenario.jobFor "evening-gown")
    = Some (Throw e, [ProgressUpdated 10])
    /\ shouldRequeueJob ascii_toLowerCase RetryScenario.anHourLater
         (RetryScenario.failedWith e) defaultOptions
       = {| requeue := false;
            reason :=
              PermanentError "Workflow não encontrado: evening-gown" |}.
Proof.
  destruct (missing_workflow_is_not_resubmitted string unit
              RetryScenario.noFile (fun _ => Ok (obj []))
              (fun workflow _ _ => Ok workflow)
              (RetryScenario.refusing 500 "")
              (fun _ _ => NotOk 500) 0 (RetryScenario.jobFor "evening-gown")
              (Error "ENOENT: no such file or directory")
              RetryScenario.anHourLater
              (RetryScenario.failedWith
                 (Error "Workflow não encontrado: evening-gown"))
              defaultOptions eq_refl eq_refl)
    as (e & Hrun & Hdecision).
  exists e. split; [exact Hrun|].
  injection Hrun as <-. apply Hdecision; reflexivity.
Defined.

(** A workflow whose name holds a temporary pattern: its missing file is
    taken for a temporary error. *)
Example missing_workflow_with_a_temporary_word :
  shouldRequeueJob ascii_toLowerCase RetryScenario.anHourLater
    (RetryScenario.failedWith
       (Error "Workflow não encontrado: network-dress"))
    defaultOptions
  = {| requeue := true;
       reason := TemporaryError "Workflow não encontrado: network-dress" |}.
Proof. vm_compute. reflexivity. Qed.

(** *** The limits of resubmission *)

(** A job that is resubmitted was below the limit of resubmissions, and
    the count its resubmission carries is within the limit. *)
Theorem resubmissions_stay_within_the_limit :
  forall (Payload : Type) (toLowerCase : string -> string) (now : Z)
         (job : Job Payload) (options : RequeueOptions) (limit : Z)
         (resubmitted_at : Z),
    maxRetries options = Some limit ->
    requeue (shouldRequeueJob toLowerCase now job options) = true ->
    requeueCountOf job < limit
    /\ exists info,
         requeue_info (requeueJobData job resubmitted_at) = Some info
         /\ requeue_count info = requeueCountOf job + 1
         /\ requeue_count info <= limit.
Proof.
  intros Payload lower now job options limit at_time Hlimit.
  unfold shouldRequeueJob, ge_opt. rewrite Hlimit.
  destruct (gt_opt _ _); [done|].
  destruct (Z.leb_spec limit (requeueCountOf job)) as [|Hlt]; [done|].
  intros _. split; [done|].
  eexists. split; [reflexivity|]. cbn [requeue_count]. lia.
Qed.

Lemma resubmission_limit_witness :
  requeueCountOf Scenario.job0 < 2
  /\ exists info,
       requeue_info (requeueJobData Scenario.job0 2000) = Some info
       /\ requeue_count info = requeueCountOf Scenario.job0 + 1
       /\ requeue_count info <= 2.
Proof.
  apply (resubmissions_stay_within_the_limit string ascii_toLowerCase 1000
           Scenario.job0 defaultOptions 2 2000); reflexivity.
Defined.

(** A job that was resubmitted before and whose reason matches no
    temporary pattern is rejected, whatever the options. *)
Lemma unknown_after_resubmission {Payload : Type}
    (toLowerCase : string -> string) (now : Z) (job : Job Payload)
    (options : RequeueOptions) :
  requeueCountOf job <> 0 ->
  matchesAny toLowerCase temporaryErrors (failureReasonOf job) = false ->
  requeue (shouldRequeueJob toLowerCase now job options) = false.
Proof.
  intros Hcount Htemp.
  unfold shouldRequeueJob. rewrite Htemp.
  destruct (gt_opt _ _); [done|]. destruct (ge_opt _ _); [done|].
  destruct (matchesAny toLowerCase permanentErrors _); [done|].
  by destruct (Z.eqb_spec (requeueCountOf job) 0).
Qed.

(** The copy that a resubmission puts in the queue is resubmitted again
    only for a temporary failure: when the copy fails with a reason that
    holds no temporary signal, the classifier rejects it, whatever its
    age and the options. (The count of the job that was copied is not
    negative, as every count the script writes.) *)
Theorem a_copy_is_resubmitted_again_only_if_temporary :
  forall (Payload : Type) (toLowerCase : string -> string)
         (job copy : Job Payload) (resubmitted_at now : Z)
         (options : RequeueOptions),
    0 <= priorCount job ->
    data copy = requeueJobData job resubmitted_at ->
    existsb
      (fun signal => containsIgnoringCase toLowerCase signal (reasonText copy))
      temporarySignals = false ->
    requeue (shouldRequeueJob toLowerCase now copy options) = false.
Proof.
  intros Payload lower job copy at_time now options Hcount Hdata Hreason.
  apply unknown_after_resubmission.
  - rewrite RequeueFacts.requeueCountOf_absent, Hdata. cbn.
    rewrite RequeueFacts.requeueCountOf_absent. unfold priorCount in Hcount.
    lia.
  - rewrite RequeueFacts.failureReasonOf_text. exact Hreason.
Qed.

Lemma a_copy_with_no_output_is_rejected :
  requeue
    (shouldRequeueJob ascii_toLowerCase (200 * StatsScenario.hour)
       {| id := "requeue-comfyui-fashion-sketch-1-1001";
          name := "generate-comfyui-image";
          data := requeueJobData Scenario.job0 1002;
          timestamp := 195 * StatsScenario.hour;
          failedReason :=
            Some "Falha ao processar resultados: Nenhum output recebido do ComfyUI"%string |}
       defaultOptions) = false.
Proof.
  apply (a_copy_is_resubmitted_again_only_if_temporary string
           ascii_toLowerCase Scenario.job0 _ 1002);
    [done|reflexivity|reflexivity].
Defined.

End RetryFacts.

(** ** The last attempt of the poller *)

Module LastAttemptFacts.
Import JS Worker.

Lemma last_error_from (backend : nat -> response) (promptId : string)
    (e : exn) :
  (forall j o, (j < 119)%nat ->
     checkHistory promptId j (backend j) <> Completed o) ->
  checkHistory promptId 119%nat (backend 119%nat) = Raised e ->
  forall fuel i r events,
    (maxAttempts - i < fuel)%nat ->
    pollLoop fuel backend promptId {| attempts := i; queries := i |}
    = Some (r, events) ->
    (i <= 119)%nat ->
    r = Throw e /\ queriesMade events = (120 - i)%nat.
Proof.
  intros Hnone Hlast.
  apply (PollerFacts.pollLoop_given backend promptId
           (fun i r events =>
              (i <= 119)%nat ->
              r = Throw e /\ queriesMade events = (120 - i)%nat)).
  - unfold maxAttempts. intros i Hi Hle. lia.
  - unfold maxAttempts. intros i outputs Hi Hdone Hle.
    destruct (decide (i = 119%nat)) as [->|Hne]; [congruence|].
    exfalso. apply (Hnone i outputs); [lia|done].
  - unfold maxAttempts. intros i reported r later Hi Hpending IH Hle.
    destruct (decide (i = 119%nat)) as [->|Hne]; [congruence|].
    destruct IH as [-> Hq]; [lia|]. split; [done|].
    cbn [queriesMade]. rewrite PollerFacts.queriesMade_reported. lia.
  - unfold maxAttempts. intros i e' Hi Hraised Hend Hle.
    assert (i = 119%nat) as -> by lia.
    rewrite Hlast in Hraised. injection Hraised as <-. split; [done|].
    simpl. lia.
  - unfold maxAttempts. intros i e' r later Hi Hraised Hmore IH Hle.
    destruct IH as [-> Hq]; [lia|]. split; [done|]. simpl. lia.
Qed.

(** When no answer reports completion and the 120th answer makes the
    attempt fail (an HTTP error, a body that cannot be read, an explicit
    error status), the poller throws the error of that attempt, not the
    timeout error, after its 120 queries. *)
Theorem last_error_is_thrown :
  forall (backend : nat -> response) (promptId : string) (e : exn),
    (forall j o, (j < 119)%nat ->
       checkHistory promptId j (backend j) <> Completed o) ->
    checkHistory promptId 119%nat (backend 119%nat) = Raised e ->
    exists events,
      waitForComfyUICompletion backend promptId = Some (Throw e, events)
      /\ queriesMade events = 120%nat.
Proof.
  intros backend promptId e Hnone Hlast. unfold waitForComfyUICompletion.
  assert (Hfuel : (maxAttempts - 0 < S maxAttempts)%nat)
    by (unfold maxAttempts; lia).
  destruct (PollerFacts.pollLoop_total backend promptId _ _ Hfuel)
    as (r & events & Hrun).
  rewrite Hrun.
  destruct (last_error_from backend promptId e Hnone Hlast _ _ _ _ Hfuel Hrun)
    as [-> Hq]; [lia|].
  by exists events.
Qed.

(** A backend that answers every query with the status 502. *)
Lemma last_error_witness :
  exists events,
    waitForComfyUICompletion (fun _ => NotOk 502) "p1"
    = Some (Throw (Error "Erro ao consultar histórico: 502"), events)
    /\ queriesMade events = 120%nat.
Proof.
  apply (last_error_is_thrown (fun _ => NotOk 502) "p1"
           (Error "Erro ao consultar histórico: 502")).
  - intros j o _. discriminate.
  - reflexivity.
Defined.

End LastAttemptFacts.

(** ** What the assignments reach and what they leave *)

Module SlotFacts.
Import JS Injector CopyTree Documents.

(** *** One assignment, on the tree *)

Lemma props_get_assign_other {V : Type} (u : V) f a k k' (c : V) ps :
  k <> k' -> k' <> "length"%string ->
  props_get u f a (assign_prop k c ps) k' = props_get u f a ps k'.
Proof.
  intros Hne Hlen. unfold props_get.
  rewrite (TreeFacts.lookup_assign_ne _ _ _ _ Hne).
  destruct (String.eqb_spec k' "length") as [|_]; [done|].
  by rewrite !andb_false_r.
Qed.

Section Assigned.

Variables (nodeId key : string) (x : value).
Variables (a0 a1 a2 a3 : bool) (ts0 ts1 ts2 ts3 : list (string * tree value)).
Hypothesis L1 : lookup_prop "prompt" ts0 = Some (Node a1 ts1).
Hypothesis L2 : lookup_prop nodeId ts1 = Some (Node a2 ts2).
Hypothesis L3 : lookup_prop "inputs" ts2 = Some (Node a3 ts3).

Local Abbreviation tree0 := (Node a0 ts0).
Local Abbreviation inputs1 := (Node a3 (assign_prop key (Leaf x) ts3)).
Local Abbreviation node1 := (Node a2 (assign_prop "inputs" inputs1 ts2)).
Local Abbreviation prompt1 := (Node a1 (assign_prop nodeId node1 ts1)).
Local Abbreviation tree1 := (Node a0 (assign_prop "prompt" prompt1 ts0)).

Lemma input_assigned : inputAt nodeId key tree1 = Ok (Leaf x).
Proof.
  unfold inputAt. cbn [descend].
  rewrite TreeFacts.child_prompt_after. cbn [bind].
  rewrite (TreeFacts.child_node_after _ _ _ _ _ _ _ _ _ L2).
  rewrite String.eqb_refl. cbn [bind child].
  rewrite TreeFacts.props_get_assign_eq. cbn [child bind].
  by rewrite TreeFacts.props_get_assign_eq.
Qed.

Lemma input_kept k key' :
  k <> nodeId \/ key' <> key -> key' <> "length"%string ->
  inputAt k key' tree1 = inputAt k key' tree0.
Proof.
  intros Hother Hlen. unfold inputAt. cbn [descend].
  rewrite TreeFacts.child_prompt_after,
    (TreeFacts.child_prompt_before _ _ _ _ L1). cbn [bind].
  rewrite (TreeFacts.child_node_after _ _ _ _ _ _ _ _ _ L2).
  destruct (String.eqb_spec nodeId k) as [<-|Hne]; [|done].
  destruct Hother as [|Hkey]; [done|].
  cbn [child]. rewrite (TreeFacts.props_get_lookup _ _ _ _ _ _ L2).
  cbn [bind child].
  rewrite TreeFacts.props_get_assign_eq, (TreeFacts.props_get_lookup _ _ _ _ _ _ L3).
  cbn [bind child]. f_equal.
  apply props_get_assign_other; [congruence|done].
Qed.

Lemma field_kept k field :
  field <> "inputs"%string -> fieldAt k field tree1 = fieldAt k field tree0.
Proof.
  intros Hfield. unfold fieldAt. cbn [descend].
  rewrite TreeFacts.child_prompt_after,
    (TreeFacts.child_prompt_before _ _ _ _ L1). cbn [bind].
  rewrite (TreeFacts.child_node_after _ _ _ _ _ _ _ _ _ L2).
  destruct (String.eqb_spec nodeId k) as [<-|Hne]; [|done].
  cbn [child]. rewrite (TreeFacts.props_get_lookup _ _ _ _ _ _ L2).
  cbn [bind child]. f_equal.
  eapply TreeFacts.props_get_assign_ne; [|exact L3].
  intros E. apply Hfield. by rewrite E.
Qed.

Lemma hasNode_kept k : hasNodeT k tree1 = hasNodeT k tree0.
Proof.
  unfold hasNodeT.
  rewrite TreeFacts.child_prompt_after,
    (TreeFacts.child_prompt_before _ _ _ _ L1). cbn [bind truthyT].
  rewrite (TreeFacts.child_node_after _ _ _ _ _ _ _ _ _ L2).
  destruct (String.eqb_spec nodeId k) as [<-|Hne]; [|done].
  cbn [child]. by rewrite (TreeFacts.props_get_lookup _ _ _ _ _ _ L2).
Qed.

End Assigned.

(** What an assignment that succeeded reaches and what it leaves. *)
Lemma assignAtT_reads nodeId key rhs t u t' :
  assignAtT nodeId key rhs t = (Ok u, t') ->
  (exists x, rhs = Ok x /\ inputAt nodeId key t' = Ok (Leaf x))
  /\ (forall k key',
        k <> nodeId \/ key' <> key -> key' <> "length"%string ->
        inputAt k key' t' = inputAt k key' t)
  /\ (forall k field,
        field <> "inputs"%string -> fieldAt k field t' = fieldAt k field t)
  /\ (forall k, hasNodeT k t' = hasNodeT k t)
  /\ (exists P P',
        child t "prompt" = Ok P /\ child t' "prompt" = Ok P'
        /\ keysT P' = keysT P).
Proof.
  intros Hstep.
  destruct (TreeFacts.assignAtT_ok _ _ _ _ _ _ Hstep)
    as (x & a3 & ts3 & -> & Hdesc & ->).
  destruct (TreeFacts.descend3_shape _ _ _ _ _ _ Hdesc)
    as (a0 & ts0 & a1 & ts1 & a2 & ts2 & -> & L1 & L2 & L3 & Hgraft).
  rewrite Hgraft.
  split; [|split; [|split; [|split]]].
  - exists x. split; [done|]. by eapply input_assigned.
  - intros k key' Hother Hlen. by eapply input_kept.
  - intros k field Hfield. by eapply field_kept.
  - intros k. by eapply hasNode_kept.
  - eexists _, _. split; [by apply TreeFacts.child_prompt_before|].
    split; [by apply TreeFacts.child_prompt_after|].
    by eapply TreeFacts.keys_assigned.
Qed.

(** *** Several assignments *)

Lemma assignSteps_trans allowed t1 t2 t3 :
  assignSteps allowed t1 t2 -> assignSteps allowed t2 t3 ->
  assignSteps allowed t1 t3.
Proof.
  induction 1 as [|nodeId key x t t1 t2 Hkey Hstep _ IH]; [done|].
  intros H. eapply steps_assign; [exact Hkey|exact Hstep|by apply IH].
Qed.

Lemma assignSteps_more (allowed allowed' : string -> bool) t t' :
  (forall key, allowed key = true -> allowed' key = true) ->
  assignSteps allowed t t' -> assignSteps allowed' t t'.
Proof.
  intros Hmore. induction 1 as [|nodeId key x t t1 t2 Hkey Hstep _ IH].
  - constructor.
  - eapply steps_assign; [by apply Hmore|exact Hstep|exact IH].
Qed.

Lemma textSteps_assignSteps t t' : textSteps t t' -> assignSteps isText t t'.
Proof.
  induction 1 as [|nodeId x t t1 t2 Hstep _ IH]; [constructor|].
  eapply steps_assign; [|exact Hstep|exact IH]. reflexivity.
Qed.

(** Assignments leave every input under a key that is not allowed,
    every other field of a node, and the nodes of the prompt. *)
Lemma assignSteps_reads allowed t t' :
  assignSteps allowed t t' ->
  (forall k key',
     allowed key' = false -> key' <> "length"%string ->
     inputAt k key' t' = inputAt k key' t)
  /\ (forall k field,
        field <> "inputs"%string -> fieldAt k field t' = fieldAt k field t)
  /\ (forall k, hasNodeT k t' = hasNodeT k t)
  /\ (forall P,
        child t "prompt" = Ok P ->
        exists P', child t' "prompt" = Ok P' /\ keysT P' = keysT P).
Proof.
  induction 1 as [|nodeId key x t t1 t2 Hkey Hstep _ (IH1 & IH2 & IH3 & IH4)].
  - repeat split; try done. intros P HP. by exists P.
  - destruct (assignAtT_reads _ _ _ _ _ _ Hstep)
      as (_ & H1 & H2 & H3 & (P & P1 & HP & HP1 & Hkeys)).
    split; [|split; [|split]].
    + intros k key' Hkey' Hlen. rewrite IH1 by done. apply H1; [|done].
      right. intros ->. congruence.
    + intros k field Hfield. by rewrite IH2, H2.
    + intros k. by rewrite IH3, H3.
    + intros P0 HP0. rewrite HP in HP0. injection HP0 as <-.
      destruct (IH4 P1 HP1) as (P' & HP' & Hkeys').
      exists P'. split; [done|]. congruence.
Qed.

(** *** The run of the function, on the store *)

Section Run.

Variable h0 : heap.
Variable n1 : nat.
Variable r : value.

Local Abbreviation inv := (copy_inv h0 n1 r).

Lemma inputAt_sim h t k key x :
  inv h t -> inputAt k key t = Ok (Leaf x) ->
  path_get h r ["prompt"; k; "inputs"; key] = Ok x.
Proof.
  intros [Hown Hpure _ _] Hread. unfold inputAt in Hread.
  change ["prompt"; k; "inputs"; key]
    with (["prompt"; k; "inputs"] ++ [key]) in *.
  rewrite InjectorFacts.descend_snoc in Hread.
  rewrite InjectorFacts.path_get_snoc.
  pose proof (InjectorFacts.own_path_get ["prompt"; k; "inputs"]
                _ _ _ _ _ Hown Hpure) as Hpath.
  destruct (descend t ["prompt"; k; "inputs"]) as [c|e]; [|done].
  cbn [bind] in Hread.
  destruct Hpath as (vc & lo & hi & -> & _ & _ & Hc & Hpc). cbn [bind].
  pose proof (InjectorFacts.own_get _ _ _ _ _ key Hc Hpc) as Hget.
  rewrite Hread in Hget.
  destruct Hget as (vs & lo' & hi' & -> & _ & _ & Hs). by inversion Hs.
Qed.

Lemma fieldAt_sim h t k field x :
  inv h t -> fieldAt k field t = Ok (Leaf x) ->
  path_get h r ["prompt"; k; field] = Ok x.
Proof.
  intros [Hown Hpure _ _] Hread. unfold fieldAt in Hread.
  pose proof (InjectorFacts.own_path_get ["prompt"; k; field]
                _ _ _ _ _ Hown Hpure) as Hpath.
  rewrite Hread in Hpath.
  destruct Hpath as (vc & lo & hi & -> & _ & _ & Hc & _). by inversion Hc.
Qed.

Lemma promptKeys_sim h t P :
  inv h t -> child t "prompt" = Ok P ->
  exists vp, heap_get h r "prompt" = Ok vp /\ heap_keys h vp = keysT P.
Proof.
  intros [Hown Hpure _ _] HP.
  pose proof (InjectorFacts.own_get _ _ _ _ _ "prompt" Hown
                (InjectorFacts.pure_to_one _ _ Hpure)) as Hget.
  rewrite HP in Hget. destruct Hget as (vp & lo & hi & -> & _ & _ & Hp).
  exists vp. split; [done|].
  apply (InjectorFacts.own_keys _ _ _ _ _ Hp).
  apply (InjectorFacts.pure_to_one 2).
  by apply (InjectorFacts.pure_to_child _ _ _ _ Hpure HP).
Qed.

Lemma seedNode_assign h t inputs k :
  inv h t ->
  exists t', inv (snd (seedNode r inputs k h)) t' /\ assignSteps isSeed t t'.
Proof.
  intros Hinv.
  destruct (InjectorFacts.seedNode_sim h0 n1 r h t inputs k Hinv)
    as (t' & Hstep & Hinv').
  exists t'. split; [done|]. unfold seedNodeT in Hstep.
  destruct (wantsSeedT k t) as [[]|e].
  - destruct (fst (seedNode r inputs k h)) as [[]|e].
    + destruct (TreeFacts.assignAtT_ok _ _ _ _ _ _ Hstep)
        as (x & _ & _ & Hparsed & _).
      rewrite Hparsed in Hstep.
      apply (steps_assign isSeed k "seed" x t t' t'); [reflexivity|exact Hstep|].
      constructor.
    + rewrite (TreeFacts.assignAtT_throw _ _ _ _ _ _ Hstep). constructor.
  - injection Hstep as _ <-. constructor.
  - injection Hstep as _ <-. constructor.
Qed.

Lemma forEach_seedNode_assign inputs keys : forall h t,
  inv h t ->
  exists t',
    inv (snd (forEach (seedNode r inputs) keys h)) t'
    /\ assignSteps isSeed t t'.
Proof.
  induction keys as [|k rest IH]; intros h t Hinv.
  - exists t. split; [done|constructor].
  - cbn [forEach]. unfold andThen.
    destruct (seedNode_assign h t inputs k Hinv) as (t1 & Hinv1 & Hsteps1).
    destruct (seedNode r inputs k h) as [[[]|e] h1]; cbn [snd] in Hinv1.
    + destruct (IH h1 t1 Hinv1) as (t2 & Hinv2 & Hsteps2).
      exists t2. split; [done|]. by eapply assignSteps_trans.
    + by exists t1.
Qed.

Lemma injectSeed_assign inputs h t :
  inv h t ->
  exists t', inv (snd (injectSeed r inputs h)) t' /\ assignSteps isSeed t t'.
Proof.
  intros Hinv.
  assert (Hstay : exists t', inv h t' /\ assignSteps isSeed t t').
  { exists t. split; [done|constructor]. }
  unfold injectSeed, andThen, get, read, pure.
  destruct (heap_get h inputs "seed") as [seed|e]; [|done]. cbn [fst snd].
  destruct (value_truthy seed); [|done].
  destruct (heap_get h r "prompt") as [vp|e] eqn:Hvp; [|done]. cbn [fst snd].
  destruct (value_truthy vp); [|done].
  rewrite Hvp. cbn [fst snd].
  by apply forEach_seedNode_assign.
Qed.

(** The body of the [try] makes assignments of [text] and of [seed]
    only. *)
Lemma body_assign workflowName inputs h t :
  inv h t ->
  exists t',
    inv (snd ((do _ <- injectByName r workflowName inputs;
               injectSeed r inputs) h)) t'
    /\ assignSteps isTextOrSeed t t'.
Proof.
  intros Hinv. unfold andThen.
  destruct (InjectorFacts.injectByName_inv h0 n1 r workflowName inputs h t
              Hinv) as (t1 & Hinv1 & Hsteps1).
  apply textSteps_assignSteps in Hsteps1.
  assert (Htext : assignSteps isTextOrSeed t t1).
  { eapply assignSteps_more; [|exact Hsteps1].
    intros key Hkey. unfold isTextOrSeed. by rewrite Hkey. }
  destruct (injectByName r workflowName inputs h) as [[[]|e] h1];
    cbn [snd] in *; [|by exists t1].
  destruct (injectSeed_assign inputs h1 t1 Hinv1) as (t2 & Hinv2 & Hsteps2).
  exists t2. split; [done|]. eapply assignSteps_trans; [exact Htext|].
  eapply assignSteps_more; [|exact Hsteps2].
  intros key Hkey. unfold isTextOrSeed. rewrite Hkey. apply orb_true_r.
Qed.

End Run.

(** Whatever the workflow, its name and the inputs, the job description
    the function returns has the node identifiers of the document of the
    workflow under [prompt], every primitive field of a node other than
    [inputs] as it was, and every primitive input of a node other than
    [text] and [seed] as it was ([length] apart, which an array of
    inputs has of its own). *)
Theorem only_text_and_seed_are_assigned :
  forall (workflow : value) (workflowName : string) (inputs : value)
         (h : heap) (console0 : list logEntry) (document : json)
         (returned : value) (st' : state),
    stringify (S (length h)) h workflow = Ok (Some document) ->
    injectWorkflowParameters workflow workflowName inputs
      {| store := h; console := console0 |} = (Ok returned, st') ->
    (forall nodeId field x,
       field <> "inputs"%string ->
       fieldAt nodeId field (embed document) = Ok (Leaf x) ->
       path_get (store st') returned ["prompt"; nodeId; field] = Ok x)
    /\ (forall nodeId key x,
          isTextOrSeed key = false -> key <> "length"%string ->
          inputAt nodeId key (embed document) = Ok (Leaf x) ->
          path_get (store st') returned ["prompt"; nodeId; "inputs"; key]
          = Ok x)
    /\ (forall P,
          child (embed document) "prompt" = Ok P ->
          exists prompt,
            heap_get (store st') returned "prompt" = Ok prompt
            /\ heap_keys (store st') prompt = keysT P).
Proof.
  intros workflow name inputs h console0 document returned st' Hdoc.
  unfold injectWorkflowParameters, deepCopy. cbn [store console].
  rewrite Hdoc. cbn [bind].
  pose proof (InjectorFacts.parse_inv document h) as Hinv.
  destruct (parse document h) as [r h1]. cbn [fst snd] in Hinv.
  destruct (body_assign h (length h1) r name inputs h1 _ Hinv)
    as (t' & Hinv' & Hsteps).
  destruct ((do _ <- injectByName r name inputs; injectSeed r inputs) h1)
    as [[[]|e] h3]; [|done].
  intros [= <- <-]. cbn [store snd] in *.
  destruct (assignSteps_reads _ _ _ Hsteps) as (H1 & H2 & _ & H4).
  split; [|split].
  - intros nodeId field x Hfield Hread.
    apply (fieldAt_sim h (length h1) r h3 t' nodeId field x Hinv').
    by rewrite H2.
  - intros nodeId key x Hkey Hlen Hread.
    apply (inputAt_sim h (length h1) r h3 t' nodeId key x Hinv').
    by rewrite H1.
  - intros P HP. destruct (H4 P HP) as (P' & HP' & Hkeys).
    destruct (promptKeys_sim h (length h1) r h3 t' P' Hinv' HP')
      as (vp & Hvp & Hvkeys).
    exists vp. split; [done|]. congruence.
Qed.

Lemma sampler_keeps_its_steps :
  exists returned,
    fst (InjectorScenario.inject InjectorScenario.template "fashion-sketch")
    = Ok returned
    /\ path_get
         (store (snd (InjectorScenario.inject InjectorScenario.template
                        "fashion-sketch")))
         returned ["prompt"; "3"; "inputs"; "steps"]
       = Ok (VPrim (PNum 20))
    /\ path_get
         (store (snd (InjectorScenario.inject InjectorScenario.template
                        "fashion-sketch")))
         returned ["prompt"; "3"; "class_type"]
       = Ok (str "KSampler").
Proof.
  destruct (InjectorScenario.inject InjectorScenario.template "fashion-sketch")
    as [res st'] eqn:Hrun.
  assert (Hres : exists returned, res = Ok returned).
  { apply (f_equal fst) in Hrun. vm_compute in Hrun. subst res. by eexists. }
  destruct Hres as [returned ->]. exists returned. split; [done|].
  destruct (only_text_and_seed_are_assigned
              (InjectorScenario.workflowOf InjectorScenario.template)
              "fashion-sketch"
              (InjectorScenario.inputsOf InjectorScenario.template)
              (InjectorScenario.storeOf InjectorScenario.template)
              [] InjectorScenario.template returned st' eq_refl Hrun)
    as (Hfields & Hinputs & _).
  split.
  - by apply (Hinputs "3"%string "steps"%string).
  - by apply (Hfields "3"%string "class_type"%string).
Defined.

End SlotFacts.

(** ** The known workflows *)

Module KnownWorkflowFacts.
Import JS Injector CopyTree Documents.

Section Run.

Variable h0 : heap.
Variable n1 : nat.
Variable r : value.

Local Abbreviation inv := (copy_inv h0 n1 r).

Lemma orElse_stable h t inputs k (b : heap -> result value) :
  in_store h0 inputs = true -> inv h t -> b h = b h0 ->
  orElse (field inputs k) b h = orElse (field inputs k) b h0.
Proof.
  intros Hin Hinv Hb. unfold orElse, field.
  rewrite (InjectorFacts.inputs_stable h0 n1 r h t inputs k Hin Hinv).
  destruct (heap_get h0 inputs k) as [x|e]; cbn [bind]; [|done].
  by destruct (value_truthy x).
Qed.

Lemma to_string_prim h p : to_string h (VPrim p) = prim_to_string p.
Proof. unfold to_string. by destruct (length h). Qed.

(** An input that is not an object, or the text that stands in for it,
    is a primitive. *)
Lemma orElse_prim inputs k c x :
  inputIsPrimitive h0 inputs k = true ->
  orElse (field inputs k) (constant c) h0 = Ok x ->
  exists p, x = VPrim p.
Proof.
  unfold inputIsPrimitive, orElse, field, constant.
  destruct (heap_get h0 inputs k) as [[p|l]|e]; cbn [bind]; try done.
  intros _. destruct (value_truthy (VPrim p)); intros [= <-]; by eexists.
Qed.

(** A template literal over two such inputs reads the same during the
    [try]. *)
Lemma literal_stable h t inputs k1 c1 k2 c2
    (text : string -> string -> string) :
  in_store h0 inputs = true -> inv h t ->
  inputIsPrimitive h0 inputs k1 = true ->
  inputIsPrimitive h0 inputs k2 = true ->
  (let* x1 := orElse (field inputs k1) (constant c1) h in
   let* x2 := orElse (field inputs k2) (constant c2) h in
   Ok (str (text (to_string h x1) (to_string h x2))))
  = (let* x1 := orElse (field inputs k1) (constant c1) h0 in
     let* x2 := orElse (field inputs k2) (constant c2) h0 in
     Ok (str (text (to_string h0 x1) (to_string h0 x2)))).
Proof.
  intros Hin Hinv H1 H2.
  rewrite !(orElse_stable h t) by done.
  destruct (orElse (field inputs k1) (constant c1) h0) as [x1|e] eqn:E1;
    cbn [bind]; [|done].
  destruct (orElse (field inputs k2) (constant c2) h0) as [x2|e] eqn:E2;
    cbn [bind]; [|done].
  destruct (orElse_prim _ _ _ _ H1 E1) as [p1 ->].
  destruct (orElse_prim _ _ _ _ H2 E2) as [p2 ->].
  by rewrite !to_string_prim.
Qed.

(** An assignment of [text] that went through, what it wrote and what
    it left. *)
Lemma injectText_reads h t nodeId rhs h' :
  inv h t -> injectText r nodeId rhs h = (Ok tt, h') ->
  exists t',
    inv h' t' /\ assignSteps isText t t'
    /\ (hasNodeT nodeId t = Ok true ->
        exists x, rhs h = Ok x /\ inputAt nodeId "text" t' = Ok (Leaf x))
    /\ (forall k, k <> nodeId ->
        inputAt k "text" t' = inputAt k "text" t).
Proof.
  intros Hinv Hrun.
  destruct (InjectorFacts.injectText_sim h0 n1 r h t nodeId rhs Hinv)
    as (t' & Hstep & Hinv').
  rewrite Hrun in Hstep, Hinv'. cbn [fst snd] in *.
  exists t'. split; [done|]. split; [|split].
  - pose proof (TreeFacts.injectTextT_textSteps nodeId (rhs h) t) as Hsteps.
    rewrite Hstep in Hsteps. by apply SlotFacts.textSteps_assignSteps.
  - intros Hhas. unfold injectTextT in Hstep. rewrite Hhas in Hstep.
    by destruct (SlotFacts.assignAtT_reads _ _ _ _ _ _ Hstep) as (Hx & _).
  - intros k Hk. unfold injectTextT in Hstep.
    destruct (hasNodeT nodeId t) as [[]|e].
    + destruct (SlotFacts.assignAtT_reads _ _ _ _ _ _ Hstep)
        as (_ & Hkept & _).
      apply Hkept; [by left|done].
    + by injection Hstep as <-.
    + done.
Qed.

(** The same for the assignment of a text that was computed before. *)
Lemma assignText_reads h t nodeId x h' :
  inv h t -> assignText r nodeId (fun _ => Ok x) h = (Ok tt, h') ->
  exists t',
    inv h' t' /\ inputAt nodeId "text" t' = Ok (Leaf x).
Proof.
  intros Hinv Hrun.
  destruct (InjectorFacts.assignAt_sim h0 n1 r h t nodeId "text"
              (fun _ => Ok x) Hinv) as (t' & Hstep & Hinv').
  change (assignAt r nodeId "text" (fun _ => Ok x) h)
    with (assignText r nodeId (fun _ => Ok x) h) in Hstep, Hinv'.
  rewrite Hrun in Hstep, Hinv'. cbn [fst snd] in *.
  exists t'. split; [done|].
  destruct (SlotFacts.assignAtT_reads _ _ _ _ _ _ Hstep)
    as ((x' & [= <-] & Hread) & _).
  exact Hread.
Qed.

(** The seed loop leaves the texts. *)
Lemma injectSeed_keeps_text inputs h t :
  inv h t ->
  exists t',
    inv (snd (injectSeed r inputs h)) t'
    /\ forall nodeId, inputAt nodeId "text" t' = inputAt nodeId "text" t.
Proof.
  intros Hinv.
  destruct (SlotFacts.injectSeed_assign h0 n1 r inputs h t Hinv)
    as (t' & Hinv' & Hsteps).
  exists t'. split; [done|]. intros nodeId.
  destruct (SlotFacts.assignSteps_reads _ _ _ Hsteps) as (Hreads & _).
  by apply Hreads.
Qed.

End Run.

(** Under the name "fashion-sketch" the job description the function
    returns has, as the text of the node "6" when the workflow has that
    node, the [prompt_text] of the inputs, or else their [prompt], or
    else "fashion sketch"; and as the text of the node "7" when the
    workflow has it, their [negative_prompt], or else "bad anatomy, low
    quality". Nothing is logged. *)
Theorem fashion_sketch_slots :
  forall (workflow inputs : value) (h : heap) (console0 : list logEntry)
         (document : json) (returned : value) (st' : state),
    stringify (S (length h)) h workflow = Ok (Some document) ->
    in_store h inputs = true ->
    injectWorkflowParameters workflow "fashion-sketch" inputs
      {| store := h; console := console0 |} = (Ok returned, st') ->
    (hasNodeT "6" (embed document) = Ok true ->
     exists text,
       orElse (field inputs "prompt_text")
         (orElse (field inputs "prompt") (constant "fashion sketch")) h
       = Ok text
       /\ path_get (store st') returned ["prompt"; "6"; "inputs"; "text"]
          = Ok text)
    /\ (hasNodeT "7" (embed document) = Ok true ->
        exists text,
          orElse (field inputs "negative_prompt")
            (constant "bad anatomy, low quality") h
          = Ok text
          /\ path_get (store st') returned ["prompt"; "7"; "inputs"; "text"]
             = Ok text)
    /\ console st' = console0.
Proof.
  intros workflow inputs h console0 document returned st' Hdoc Hin.
  unfold injectWorkflowParameters, deepCopy. cbn [store console].
  rewrite Hdoc. cbn [bind].
  pose proof (InjectorFacts.parse_inv document h) as Hinv.
  destruct (parse document h) as [r h1]. cbn [fst snd] in Hinv.
  change (injectByName r "fashion-sketch" inputs)
    with (do _ <- injectText r "6"
                    (orElse (field inputs "prompt_text")
                       (orElse (field inputs "prompt")
                          (constant "fashion sketch")));
          injectText r "7"
            (orElse (field inputs "negative_prompt")
               (constant "bad anatomy, low quality"))).
  unfold andThen.
  destruct (injectText r "6" _ h1) as [[[]|e] h2] eqn:E6; [|done].
  destruct (injectText_reads h (length h1) r h1 _ "6" _ h2 Hinv E6)
    as (t2 & Hinv2 & Hsteps2 & Htext6 & _).
  destruct (injectText r "7" _ h2) as [[[]|e] h3] eqn:E7; [|done].
  destruct (injectText_reads h (length h1) r h2 _ "7" _ h3 Hinv2 E7)
    as (t3 & Hinv3 & _ & Htext7 & Hkept7).
  destruct (injectSeed_keeps_text h (length h1) r inputs h3 t3 Hinv3)
    as (t4 & Hinv4 & Hkept).
  destruct (injectSeed r inputs h3) as [[[]|e] h4]; [|done].
  intros [= <- <-]. cbn [store console snd] in *.
  destruct (SlotFacts.assignSteps_reads _ _ _ Hsteps2) as (_ & _ & Hhas2 & _).
  split; [|split; [|reflexivity]].
  - intros Hhas. destruct (Htext6 Hhas) as (x & Hx & Hread).
    exists x. split.
    + rewrite <- Hx. symmetry.
      apply (orElse_stable h (length h1) r h1 (embed document) inputs);
        [done|done|].
      by apply (orElse_stable h (length h1) r h1 (embed document) inputs).
    + apply (SlotFacts.inputAt_sim h (length h1) r h4 t4 "6" "text" x Hinv4).
      by rewrite Hkept, Hkept7.
  - intros Hhas. rewrite <- Hhas2 in Hhas.
    destruct (Htext7 Hhas) as (x & Hx & Hread).
    exists x. split.
    + rewrite <- Hx. symmetry.
      by apply (orElse_stable h (length h1) r h2 t2 inputs).
    + apply (SlotFacts.inputAt_sim h (length h1) r h4 t4 "7" "text" x Hinv4).
      by rewrite Hkept.
Qed.

Lemma fashion_sketch_of_the_request :
  exists returned,
    fst (InjectorScenario.inject InjectorScenario.template "fashion-sketch")
    = Ok returned
    /\ path_get
         (store (snd (InjectorScenario.inject InjectorScenario.template
                        "fashion-sketch")))
         returned ["prompt"; "6"; "inputs"; "text"]
       = Ok (str "a red dress")
    /\ path_get
         (store (snd (InjectorScenario.inject InjectorScenario.template
                        "fashion-sketch")))
         returned ["prompt"; "7"; "inputs"; "text"]
       = Ok (str "bad anatomy, low quality").
Proof.
  destruct (InjectorScenario.inject InjectorScenario.template "fashion-sketch")
    as [res st'] eqn:Hrun.
  assert (Hres : exists returned, res = Ok returned).
  { apply (f_equal fst) in Hrun. vm_compute in Hrun. subst res. by eexists. }
  destruct Hres as [returned ->]. exists returned. split; [done|].
  destruct (fashion_sketch_slots
              (InjectorScenario.workflowOf InjectorScenario.template)
              (InjectorScenario.inputsOf InjectorScenario.template)
              (InjectorScenario.storeOf InjectorScenario.template)
              [] InjectorScenario.template returned st' eq_refl eq_refl Hrun)
    as (H6 & H7 & _).
  destruct (H6 eq_refl) as (text6 & Htext6 & Hread6).
  destruct (H7 eq_refl) as (text7 & Htext7 & Hread7).
  vm_compute in Htext6, Htext7.
  injection Htext6 as <-. injection Htext7 as <-. done.
Defined.

(** Under a name whose case of the [switch] writes a template literal
    over two inputs, the text of the node "6", when the workflow has
    that node, is the literal over the two inputs as they were given,
    each replaced by its default when it is absent or falsy. *)
Lemma literal_slot (workflowName : string)
    (literal : value -> heap -> result value)
    (workflow inputs : value) (h : heap) (console0 : list logEntry)
    (document : json) (returned : value) (st' : state) :
  (forall r,
     injectByName r workflowName inputs
     = (do present <- hasNode r "6";
        if present then
          do text <- read (literal inputs);
          assignText r "6" (fun _ => Ok text)
        else pure tt)) ->
  (forall n1 r h1 t,
     copy_inv h n1 r h1 t -> literal inputs h1 = literal inputs h) ->
  stringify (S (length h)) h workflow = Ok (Some document) ->
  injectWorkflowParameters workflow workflowName inputs
    {| store := h; console := console0 |} = (Ok returned, st') ->
  hasNodeT "6" (embed document) = Ok true ->
  exists text,
    literal inputs h = Ok text
    /\ path_get (store st') returned ["prompt"; "6"; "inputs"; "text"]
       = Ok text.
Proof.
  intros Hcase Hstable Hdoc.
  unfold injectWorkflowParameters, deepCopy. cbn [store console].
  rewrite Hdoc. cbn [bind].
  pose proof (InjectorFacts.parse_inv document h) as Hinv.
  destruct (parse document h) as [r h1]. cbn [fst snd] in Hinv.
  rewrite Hcase. unfold andThen at 1 2.
  rewrite (InjectorFacts.hasNode_sim h (length h1) r h1 _ "6" Hinv).
  intros Hrun Hhas. rewrite Hhas in Hrun. unfold andThen at 1, read in Hrun.
  rewrite (Hstable _ _ _ _ Hinv) in Hrun.
  destruct (literal inputs h) as [text|e]; [|done].
  exists text. split; [done|].
  destruct (assignText r "6" (fun _ => Ok text) h1) as [[[]|e] h2] eqn:E6;
    [|done].
  destruct (assignText_reads h (length h1) r h1 _ "6" text h2 Hinv E6)
    as (t2 & Hinv2 & Hread).
  destruct (injectSeed_keeps_text h (length h1) r inputs h2 t2 Hinv2)
    as (t3 & Hinv3 & Hkept).
  destruct (injectSeed r inputs h2) as [[[]|e] h3]; [|done].
  injection Hrun as <- <-. cbn [store snd] in *.
  apply (SlotFacts.inputAt_sim h (length h1) r h3 t3 "6" "text" text Hinv3).
  by rewrite Hkept.
Qed.

(** A template literal over two inputs that are not objects is the
    text of the two, each replaced by its default when absent or falsy,
    between the fixed parts. *)
Lemma literal_spelled (h : heap) (inputs : value) (k1 c1 k2 c2 : string)
    (text : string -> string -> string) (x : value) :
  inputIsPrimitive h inputs k1 = true ->
  inputIsPrimitive h inputs k2 = true ->
  (let* x1 := orElse (field inputs k1) (constant c1) h in
   let* x2 := orElse (field inputs k2) (constant c2) h in
   Ok (str (text (to_string h x1) (to_string h x2)))) = Ok x ->
  exists p1 p2 : prim,
    orElse (field inputs k1) (constant c1) h = Ok (VPrim p1)
    /\ orElse (field inputs k2) (constant c2) h = Ok (VPrim p2)
    /\ x = str (text (prim_to_string p1) (prim_to_string p2)).
Proof.
  intros H1 H2.
  destruct (orElse (field inputs k1) (constant c1) h) as [x1|e] eqn:E1;
    cbn [bind]; [|done].
  destruct (orElse (field inputs k2) (constant c2) h) as [x2|e] eqn:E2;
    cbn [bind]; [|done].
  destruct (orElse_prim _ _ _ _ _ H1 E1) as [p1 ->].
  destruct (orElse_prim _ _ _ _ _ H2 E2) as [p2 ->].
  rewrite !to_string_prim. intros [= <-]. by exists p1, p2.
Qed.

(** Under the name "pattern-generation" the text of the node "6", when
    the workflow has that node, is
    "<pattern_type> pattern, <colors>, seamless, high quality", where
    <pattern_type> is [inputs.pattern_type || 'floral'] and <colors> is
    [inputs.colors || 'colorful'], for inputs that are not objects. *)
Theorem pattern_generation_slot :
  forall (workflow inputs : value) (h : heap) (console0 : list logEntry)
         (document : json) (returned : value) (st' : state),
    stringify (S (length h)) h workflow = Ok (Some document) ->
    in_store h inputs = true ->
    inputIsPrimitive h inputs "pattern_type" = true ->
    inputIsPrimitive h inputs "colors" = true ->
    injectWorkflowParameters workflow "pattern-generation" inputs
      {| store := h; console := console0 |} = (Ok returned, st') ->
    hasNodeT "6" (embed document) = Ok true ->
    exists pattern_type colors : prim,
      orElse (field inputs "pattern_type") (constant "floral") h
      = Ok (VPrim pattern_type)
      /\ orElse (field inputs "colors") (constant "colorful") h
         = Ok (VPrim colors)
      /\ path_get (store st') returned ["prompt"; "6"; "inputs"; "text"]
         = Ok (str (prim_to_string pattern_type +:+ " pattern, "
                    +:+ prim_to_string colors
                    +:+ ", seamless, high quality")).
Proof.
  intros workflow inputs h console0 document returned st' Hdoc Hin H1 H2
    Hrun Hhas.
  destruct (literal_slot "pattern-generation" patternPrompt workflow inputs h
              console0 document returned st') as (text & Htext & Hread);
    try done.
  { intros n1 r h1 t Hinv. unfold patternPrompt.
    by apply (literal_stable h n1 r h1 t inputs "pattern_type" "floral"
                "colors" "colorful"
                (fun a b => a +:+ " pattern, " +:+ b
                            +:+ ", seamless, high quality")). }
  destruct (literal_spelled h inputs "pattern_type" "floral" "colors"
              "colorful"
              (fun a b => a +:+ " pattern, " +:+ b
                          +:+ ", seamless, high quality")
              text H1 H2 Htext) as (p1 & p2 & E1 & E2 & ->).
  by exists p1, p2.
Qed.

Lemma pattern_of_the_request :
  exists returned,
    fst (SlotScenario.inject InjectorScenario.template
           SlotScenario.patternRequest "pattern-generation")
    = Ok returned
    /\ path_get
         (store (snd (SlotScenario.inject InjectorScenario.template
                        SlotScenario.patternRequest "pattern-generation")))
         returned ["prompt"; "6"; "inputs"; "text"]
       = Ok (str "paisley pattern, colorful, seamless, high quality").
Proof.
  destruct (SlotScenario.inject InjectorScenario.template
              SlotScenario.patternRequest "pattern-generation")
    as [res st'] eqn:Hrun.
  assert (Hres : exists returned, res = Ok returned).
  { apply (f_equal fst) in Hrun. vm_compute in Hrun. subst res. by eexists. }
  destruct Hres as [returned ->]. exists returned. split; [done|].
  destruct (pattern_generation_slot
              (SlotScenario.workflowOf InjectorScenario.template
                 SlotScenario.patternRequest)
              (SlotScenario.inputsOf InjectorScenario.template
                 SlotScenario.patternRequest)
              (SlotScenario.storeOf InjectorScenario.template
                 SlotScenario.patternRequest)
              [] InjectorScenario.template returned st'
              eq_refl eq_refl eq_refl eq_refl Hrun eq_refl)
    as (pattern_type & colors & Hpattern & Hcolors & Hread).
  vm_compute in Hpattern, Hcolors.
  injection Hpattern as <-. injection Hcolors as <-. exact Hread.
Defined.

(** Under the name "model-visualization" the text of the node "6", when
    the workflow has that node, is
    "<model_type> model wearing <garment_description>, professional
    photography", where <model_type> is [inputs.model_type || 'female']
    and <garment_description> is
    [inputs.garment_description || 'fashionable clothing'], for inputs
    that are not objects. *)
Theorem model_visualization_slot :
  forall (workflow inputs : value) (h : heap) (console0 : list logEntry)
         (document : json) (returned : value) (st' : state),
    stringify (S (length h)) h workflow = Ok (Some document) ->
    in_store h inputs = true ->
    inputIsPrimitive h inputs "model_type" = true ->
    inputIsPrimitive h inputs "garment_description" = true ->
    injectWorkflowParameters workflow "model-visualization" inputs
      {| store := h; console := console0 |} = (Ok returned, st') ->
    hasNodeT "6" (embed document) = Ok true ->
    exists model_type garment_description : prim,
      orElse (field inputs "model_type") (constant "female") h
      = Ok (VPrim model_type)
      /\ orElse (field inputs "garment_description")
           (constant "fashionable clothing") h
         = Ok (VPrim garment_description)
      /\ path_get (store st') returned ["prompt"; "6"; "inputs"; "text"]
         = Ok (str (prim_to_string model_type +:+ " model wearing "
                    +:+ prim_to_string garment_description
                    +:+ ", professional photography")).
Proof.
  intros workflow inputs h console0 document returned st' Hdoc Hin H1 H2
    Hrun Hhas.
  destruct (literal_slot "model-visualization" modelPrompt workflow inputs h
              console0 document returned st') as (text & Htext & Hread);
    try done.
  { intros n1 r h1 t Hinv. unfold modelPrompt.
    by apply (literal_stable h n1 r h1 t inputs "model_type" "female"
                "garment_description" "fashionable clothing"
                (fun a b => a +:+ " model wearing " +:+ b
                            +:+ ", professional photography")). }
  destruct (literal_spelled h inputs "model_type" "female"
              "garment_description" "fashionable clothing"
              (fun a b => a +:+ " model wearing " +:+ b
                          +:+ ", professional photography")
              text H1 H2 Htext) as (p1 & p2 & E1 & E2 & ->).
  by exists p1, p2.
Qed.

Lemma model_of_the_request :
  exists returned,
    fst (InjectorScenario.inject InjectorScenario.template
           "model-visualization")
    = Ok returned
    /\ path_get
         (store (snd (InjectorScenario.inject InjectorScenario.template
                        "model-visualization")))
         returned ["prompt"; "6"; "inputs"; "text"]
       = Ok (str ("female model wearing fashionable clothing, "
                  +:+ "professional photography")).
Proof.
  destruct (InjectorScenario.inject InjectorScenario.template
              "model-visualization") as [res st'] eqn:Hrun.
  assert (Hres : exists returned, res = Ok returned).
  { apply (f_equal fst) in Hrun. vm_compute in Hrun. subst res. by eexists. }
  destruct Hres as [returned ->]. exists returned. split; [done|].
  destruct (model_visualization_slot
              (InjectorScenario.workflowOf InjectorScenario.template)
              (InjectorScenario.inputsOf InjectorScenario.template)
              (InjectorScenario.storeOf InjectorScenario.template)
              [] InjectorScenario.template returned st'
              eq_refl eq_refl eq_refl eq_refl Hrun eq_refl)
    as (model_type & garment & Hmodel & Hgarment & Hread).
  vm_compute in Hmodel, Hgarment.
  injection Hmodel as <-. injection Hgarment as <-. exact Hread.
Defined.

(** With a seed that is absent or falsy (the number 0 among them) the
    job description has every seed the document of the workflow has. *)
Theorem falsy_seed_changes_no_seed :
  forall (workflow : value) (workflowName : string) (inputs : value)
         (h : heap) (console0 : list logEntry) (document : json)
         (seed returned : value) (st' : state),
    stringify (S (length h)) h workflow = Ok (Some document) ->
    in_store h inputs = true ->
    heap_get h inputs "seed" = Ok seed ->
    value_truthy seed = false ->
    injectWorkflowParameters workflow workflowName inputs
      {| store := h; console := console0 |} = (Ok returned, st') ->
    forall nodeId x,
      inputAt nodeId "seed" (embed document) = Ok (Leaf x) ->
      path_get (store st') returned ["prompt"; nodeId; "inputs"; "seed"]
      = Ok x.
Proof.
  intros workflow name inputs h console0 document seed returned st' Hdoc Hin
    Hseed Hfalsy.
  unfold injectWorkflowParameters, deepCopy. cbn [store console].
  rewrite Hdoc. cbn [bind].
  pose proof (InjectorFacts.parse_inv document h) as Hinv.
  destruct (parse document h) as [r h1]. cbn [fst snd] in Hinv.
  unfold andThen.
  destruct (InjectorFacts.injectByName_inv h (length h1) r name inputs h1 _
              Hinv) as (t2 & Hinv2 & Hsteps).
  destruct (injectByName r name inputs h1) as [[[]|e] h2]; [|done].
  cbn [snd] in Hinv2.
  unfold injectSeed, andThen, get, read, pure.
  rewrite (InjectorFacts.inputs_stable h (length h1) r h2 t2 inputs "seed"
             Hin Hinv2), Hseed. cbn [fst snd]. rewrite Hfalsy.
  intros [= <- <-] nodeId x Hread. cbn [store].
  apply (SlotFacts.inputAt_sim h (length h1) r h2 t2 nodeId "seed" x Hinv2).
  apply SlotFacts.textSteps_assignSteps in Hsteps.
  destruct (SlotFacts.assignSteps_reads _ _ _ Hsteps) as (Hreads & _).
  by rewrite Hreads.
Qed.

Lemma seed_zero_changes_no_seed :
  exists returned,
    fst (SlotScenario.inject InjectorScenario.template
           SlotScenario.patternRequest "pattern-generation")
    = Ok returned
    /\ path_get
         (store (snd (SlotScenario.inject InjectorScenario.template
                        SlotScenario.patternRequest "pattern-generation")))
         returned ["prompt"; "3"; "inputs"; "seed"]
       = Ok (VPrim (PNum 1)).
Proof.
  destruct (SlotScenario.inject InjectorScenario.template
              SlotScenario.patternRequest "pattern-generation")
    as [res st'] eqn:Hrun.
  assert (Hres : exists returned, res = Ok returned).
  { apply (f_equal fst) in Hrun. vm_compute in Hrun. subst res. by eexists. }
  destruct Hres as [returned ->]. exists returned. split; [done|].
  apply (falsy_seed_changes_no_seed
           (SlotScenario.workflowOf InjectorScenario.template
              SlotScenario.patternRequest)
           "pattern-generation"
           (SlotScenario.inputsOf InjectorScenario.template
              SlotScenario.patternRequest)
           (SlotScenario.storeOf InjectorScenario.template
              SlotScenario.patternRequest)
           [] InjectorScenario.template (VPrim (PNum 0)) returned st'
           eq_refl eq_refl eq_refl eq_refl Hrun "3"%string (VPrim (PNum 1))
           eq_refl).
Defined.

(** A workflow with no [prompt], or a falsy one, is only copied: for
    every name and for inputs that are given, the function returns the
    copy as [JSON.parse] made it and assigns nothing; a name that is not
    known is still warned about. *)
Theorem workflow_without_prompt_is_only_copied :
  forall (workflow : value) (workflowName : string) (inputs : value)
         (h : heap) (console0 : list logEntry) (document : json) (P : vtree),
    stringify (S (length h)) h workflow = Ok (Some document) ->
    is_given inputs = true ->
    child (embed document) "prompt" = Ok P ->
    truthyT P = false ->
    injectWorkflowParameters workflow workflowName inputs
      {| store := h; console := console0 |}
    = (Ok (fst (parse document h)),
       {| store := snd (parse document h);
          console :=
            if isKnown workflowName then console0
            else console0 ++ [unknownWorkflowWarning workflowName] |}).
Proof.
  intros workflow name inputs h console0 document P Hdoc Hgiven HP Hfalsy.
  unfold injectWorkflowParameters, deepCopy. cbn [store console].
  rewrite Hdoc. cbn [bind].
  pose proof (InjectorFacts.parse_inv document h) as Hinv.
  destruct (parse document h) as [r h1]. cbn [fst snd] in *.
  assert (Hnone : forall nodeId, hasNode r nodeId h1 = (Ok false, h1)).
  { intros nodeId.
    rewrite (InjectorFacts.hasNode_sim h (length h1) r h1 _ nodeId Hinv).
    unfold hasNodeT. rewrite HP. cbn [bind]. by rewrite Hfalsy. }
  assert (Htext : forall nodeId rhs, injectText r nodeId rhs h1 = (Ok tt, h1)).
  { intros nodeId rhs. unfold injectText, andThen. by rewrite Hnone. }
  assert (Hname : injectByName r name inputs h1 = (Ok tt, h1)).
  { unfold injectByName.
    destruct (String.eqb name "fashion-sketch").
    { unfold andThen. by rewrite !Htext. }
    destruct (String.eqb name "pattern-generation").
    { unfold andThen. by rewrite Hnone. }
    destruct (String.eqb name "model-visualization").
    { unfold andThen. by rewrite Hnone. }
    unfold andThen, get, read, pure.
    destruct (InjectorFacts.heap_get_given h1 inputs "prompt_text" Hgiven)
      as [pt ->].
    cbn [fst snd]. destruct (value_truthy pt); [|done]. by rewrite Hnone. }
  assert (Hseed : injectSeed r inputs h1 = (Ok tt, h1)).
  { unfold injectSeed, andThen, get, read, pure.
    destruct (InjectorFacts.heap_get_given h1 inputs "seed" Hgiven)
      as [seed ->].
    cbn [fst snd]. destruct (value_truthy seed); [|done].
    destruct Hinv as [Hown Hpure _ _].
    pose proof (InjectorFacts.own_get _ _ _ _ _ "prompt" Hown
                  (InjectorFacts.pure_to_one _ _ Hpure)) as Hget.
    rewrite HP in Hget. destruct Hget as (vp & lo & hi & -> & _ & _ & Hp).
    cbn [fst snd].
    by rewrite <- (InjectorFacts.own_truthy _ _ _ _ _ Hp), Hfalsy. }
  unfold andThen. by rewrite Hname, Hseed.
Qed.

Lemma flat_template_is_only_copied :
  InjectorScenario.inject InjectorScenario.flatTemplate "evening-gown"
  = (Ok (fst (parse InjectorScenario.flatTemplate
                (InjectorScenario.storeOf InjectorScenario.flatTemplate))),
     {| store :=
          snd (parse InjectorScenario.flatTemplate
                 (InjectorScenario.storeOf InjectorScenario.flatTemplate));
        console := [unknownWorkflowWarning "evening-gown"] |}).
Proof.
  apply (workflow_without_prompt_is_only_copied
           (InjectorScenario.workflowOf InjectorScenario.flatTemplate)
           "evening-gown"
           (InjectorScenario.inputsOf InjectorScenario.flatTemplate)
           (InjectorScenario.storeOf InjectorScenario.flatTemplate)
           [] InjectorScenario.flatTemplate (Leaf undefined)
           eq_refl eq_refl eq_refl eq_refl).
Defined.

End KnownWorkflowFacts.
(** ** The worker body: what reaches the backend, and when *)

Module WorkerTraceFacts.
Import JS Worker WorkerTrace.

Lemma orderlyFrom_reported reported later :
  orderlyFrom true (reported_events reported ++ Slept 5000 :: later)
  = orderlyFrom true later.
Proof. by destruct reported. Qed.

Lemma submissions_reported reported later :
  submissions (reported_events reported ++ Slept 5000 :: later)
  = submissions later.
Proof. by destruct reported. Qed.

(** The poller submits nothing, and its queries are in order once the
    workflow was submitted. *)
Lemma polled_after_submission (backend : nat -> response) (promptId : string)
    (r : result json) (polled : list event) :
  waitForComfyUICompletion backend promptId = Some (r, polled) ->
  forall rest,
    orderlyFrom true (polled ++ rest) = orderlyFrom true rest
    /\ submissions (polled ++ rest) = submissions rest
    /\ (queriesMade (polled ++ rest) <= maxAttempts + queriesMade rest)%nat.
Proof.
  unfold waitForComfyUICompletion.
  assert (Hall : forall fuel i r events, (maxAttempts - i < fuel)%nat ->
            pollLoop fuel backend promptId {| attempts := i; queries := i |}
            = Some (r, events) ->
            forall rest,
              orderlyFrom true (events ++ rest) = orderlyFrom true rest
              /\ submissions (events ++ rest) = submissions rest
              /\ (queriesMade (events ++ rest)
                  <= maxAttempts - i + queriesMade rest)%nat).
  { apply (PollerFacts.pollLoop_given backend promptId
             (fun i _ events => forall rest,
                orderlyFrom true (events ++ rest) = orderlyFrom true rest
                /\ submissions (events ++ rest) = submissions rest
                /\ (queriesMade (events ++ rest)
                    <= maxAttempts - i + queriesMade rest)%nat)).
    - intros i Hi rest. simpl. repeat split. lia.
    - intros i outputs Hi _ rest. simpl. repeat split. lia.
    - intros i reported r' later Hi _ IH rest.
      destruct (IH rest) as (IH1 & IH2 & IH3).
      rewrite <- app_comm_cons, <- app_assoc, <- app_comm_cons.
      cbn [orderlyFrom submissions queriesMade andb].
      rewrite orderlyFrom_reported, submissions_reported,
        PollerFacts.queriesMade_reported.
      repeat split; [done|done|lia].
    - intros i e Hi _ _ rest. simpl. repeat split. lia.
    - intros i e r' later Hi _ _ IH rest.
      destruct (IH rest) as (IH1 & IH2 & IH3).
      simpl. repeat split; [done|done|lia]. }
  intros Hrun rest.
  destruct (Hall (S maxAttempts) 0%nat r polled ltac:(lia) Hrun rest) as (H1 & H2 & H3).
  repeat split; [done|done|lia].
Qed.

Local Ltac settle :=
  try done; try lia; try (intros _; by eexists _, _, _).

(** Every run of the worker body ends, and in every run the workflow is
    submitted at most once, the status is queried only after the
    submission and at most 120 times, and nothing is submitted unless
    the workflow file was read, parsed and given its parameters. A run
    that returns has submitted once, reports "completed" with the
    identifier the backend gave, and reports the progress 100 last. *)
Theorem worker_contacts_the_backend_in_order :
  forall (Inputs : Type)
         (readFile : string -> result string)
         (JSON_parse : string -> result json)
         (injectWorkflowParameters : json -> string -> Inputs -> result json)
         (postPrompt : json -> submission)
         (history : string -> nat -> response) (now : Z)
         (data : ImageGenerationJobData Inputs),
  exists (r : result WorkerResult) (trace : list event),
    imageGenerationWorker readFile JSON_parse injectWorkflowParameters
      postPrompt history now data = Some (r, trace)
    /\ orderly trace = true
    /\ (submissions trace <= 1)%nat
    /\ (queriesMade trace <= maxAttempts)%nat
    /\ (submissions trace = 1%nat ->
        exists workflowJson workflow workflow',
          readFile (workflow_name data) = Ok workflowJson
          /\ JSON_parse workflowJson = Ok workflow
          /\ injectWorkflowParameters workflow (workflow_name data)
               (inputs data) = Ok workflow')
    /\ (forall res, r = Ok res ->
        submissions trace = 1%nat
        /\ status res = "completed"
        /\ (exists workflow, submitWorkflow postPrompt workflow
                             = Ok (prompt_id res))
        /\ exists before, trace = before ++ [ProgressUpdated 100]).
Proof.
  intros Inputs readFile JSON_parse inject postPrompt history now data.
  unfold imageGenerationWorker, orderly.
  destruct (readFile (workflow_name data)) as [workflowJson|e0] eqn:Hfile.
  2:{ eexists _, _. split; [reflexivity|]. simpl.
      repeat split; settle. }
  destruct (JSON_parse workflowJson) as [workflow|e1] eqn:Hparse.
  2:{ eexists _, _. split; [reflexivity|]. simpl.
      repeat split; settle. }
  destruct (inject workflow (workflow_name data) (inputs data))
    as [workflow'|e2] eqn:Hinject.
  2:{ eexists _, _. split; [reflexivity|]. simpl.
      repeat split; settle. }
  destruct (submitWorkflow postPrompt workflow') as [promptId|e3] eqn:Hsubmit.
  2:{ eexists _, _. split; [reflexivity|]. simpl.
      repeat split; settle. }
  destruct (PollerFacts.pollLoop_total (history (to_string promptId))
              (to_string promptId) (S maxAttempts) 0 ltac:(lia))
    as (polledResult & polled & Hpoll).
  change (pollLoop (S maxAttempts) (history (to_string promptId))
            (to_string promptId) {| attempts := 0; queries := 0 |})
    with (waitForComfyUICompletion (history (to_string promptId))
            (to_string promptId)) in Hpoll.
  rewrite Hpoll.
  pose proof (polled_after_submission _ _ _ _ Hpoll) as Hpolled.
  destruct polledResult as [outputs|e4].
  2:{ eexists _, _. split; [reflexivity|].
      destruct (Hpolled []) as (H1 & H2 & H3).
      rewrite app_nil_r in H1, H2, H3.
      cbv zeta. rewrite <- ?app_assoc.
      cbn [app orderlyFrom submissions queriesMade negb andb].
      rewrite H1, H2. simpl in *. repeat split; settle. }
  destruct (processComfyUIOutputs outputs (workflow_name data)
              (job_user_id data) now) as [processed|e5].
  2:{ eexists _, _. split; [reflexivity|].
      destruct (Hpolled [ProgressUpdated 90]) as (H1 & H2 & H3).
      cbv zeta. rewrite <- ?app_assoc.
      cbn [app orderlyFrom submissions queriesMade negb andb].
      rewrite H1, H2. simpl in *. repeat split; settle. }
  eexists _, _. split; [reflexivity|].
  destruct (Hpolled [ProgressUpdated 90; ProgressUpdated 100])
    as (H1 & H2 & H3).
  cbv zeta. rewrite <- ?app_assoc. cbn [app].
  cbn [orderlyFrom submissions queriesMade negb andb].
  change (polled ++ ProgressUpdated 90 :: [ProgressUpdated 100])
    with (polled ++ [ProgressUpdated 90; ProgressUpdated 100]).
  rewrite H1, H2. simpl in H3. simpl.
  split; [done|]. split; [lia|]. split; [exact H3|].
  split; [intros _; by eexists _, _, _|].
  intros res [= <-]. cbn [status prompt_id].
  split; [done|]. split; [done|]. split; [by exists workflow'|].
  exists ([ProgressUpdated 10; ProgressUpdated 20; ProgressUpdated 30;
           Submitted; ProgressUpdated 50] ++ polled ++ [ProgressUpdated 90]).
  by rewrite <- !app_assoc.
Qed.

End WorkerTraceFacts.
